(** * Moving Least Squares shape functions

    A shallow embedding of the two code cells of [MLS.ipynb].  The first
    writes the nodes of a rectangular channel; the second, the computational
    cell, runs the per-point pipeline on them: Gaussian weight kernel,
    quadratic Pascal basis, moment matrices, derivatives of the inverse,
    shape-function rows and assembly of the five sparse operators.

    Numbers are real numbers: [float64] arithmetic is idealised (no rounding,
    no overflow), the decimal literal [0.3] is the real [3/10].  The lines
    that divide by the support radius are the exception: they are also
    evaluated with the special values and the range of [float64], and the
    NaN they leave at a zero radius is what makes [pinv] raise.  The two
    library calls the notebook relies on, [NearestNeighbors.kneighbors] and
    [numpy.linalg.pinv] / [cond], are parameters of the development, constrained
    by their documented contracts where a property needs them. *)

From Stdlib Require Import Reals Lra Lia List.
From stdpp Require Import gmap sorting.
Import ListNotations.

Set Warnings "-abstract-large-number".

(** ** Dense arrays

    A 1-D array is a list of reals, a 2-D array a list of rows.  Operations
    are given by their index formulas, the way the numpy reference states
    them ([dot(a, b)[i, j] = sum(a[i, :] * b[:, j])]). *)

Module NDArray.
Local Open Scope R_scope.

Definition vector := list R.
Definition matrix := list (list R).

Definition Rsum (v : vector) : R := fold_right Rplus 0 v.

Definition sum_n (n : nat) (f : nat -> R) : R := Rsum (map f (seq 0 n)).

Definition nrows (M : matrix) : nat := length M.

Definition ncols (M : matrix) : nat := length (hd [] M).

(** [M[i, j]] *)
Definition item (M : matrix) (i j : nat) : R := nth j (nth i M []) 0.

Definition fromfunction (m n : nat) (f : nat -> nat -> R) : matrix :=
  map (fun i => map (f i) (seq 0 n)) (seq 0 m).

(** [M.dot(N)] for 2-D arrays *)
Definition dot (M N : matrix) : matrix :=
  fromfunction (nrows M) (ncols N)
    (fun i j => sum_n (ncols M) (fun l => item M i l * item N l j)).

(** [M.T] / [M.transpose()] *)
Definition transpose (M : matrix) : matrix :=
  fromfunction (ncols M) (nrows M) (fun i j => item M j i).

(** [np.diag(v)] for a 1-D array *)
Definition diag (v : vector) : matrix :=
  fromfunction (length v) (length v)
    (fun i j => if Nat.eqb i j then nth i v 0 else 0).

(** [M + N], [M - N], [-M], [c * M] on arrays of one shape *)
Definition add (M N : matrix) : matrix :=
  fromfunction (nrows M) (ncols M) (fun i j => item M i j + item N i j).

Definition sub (M N : matrix) : matrix :=
  fromfunction (nrows M) (ncols M) (fun i j => item M i j - item N i j).

Definition neg (M : matrix) : matrix :=
  fromfunction (nrows M) (ncols M) (fun i j => - item M i j).

Definition scale (c : R) (M : matrix) : matrix :=
  fromfunction (nrows M) (ncols M) (fun i j => c * item M i j).

(** [np.ravel(M)], row-major *)
Definition ravel (M : matrix) : vector := concat M.

(** the identity matrix *)
Definition eye (n : nat) : matrix :=
  fromfunction n n (fun i j => if Nat.eqb i j then 1 else 0).

(** element-wise operations on 1-D arrays, with a scalar broadcast *)
Definition vmul (u v : vector) : vector := zip_with Rmult u v.
Definition smul (c : R) (v : vector) : vector := map (Rmult c) v.
Definition ssub (c : R) (v : vector) : vector := map (fun x => c - x) v.
Definition vsubs (v : vector) (c : R) : vector := map (fun x => x - c) v.
Definition vpow (v : vector) (n : nat) : vector := map (fun x => x ^ n) v.
Definition vdivs (v : vector) (c : R) : vector := map (fun x => x / c) v.
Definition vneg (v : vector) : vector := map Ropp v.
Definition vexp (v : vector) : vector := map exp v.
Definition ones (n : nat) : vector := repeat 1 n.

(** [M] is an [m] by [n] array *)
Definition has_shape (m n : nat) (M : matrix) : Prop :=
  length M = m /\ Forall (fun r => length r = n) M.

End NDArray.

Import NDArray.

(** ** Inverses

    [X] is the Moore-Penrose pseudo-inverse of [M], what [numpy.linalg.pinv]
    computes; [M] has a two-sided inverse. *)

Definition Moore_Penrose (M X : matrix) : Prop :=
  has_shape (ncols M) (nrows M) X /\
  dot (dot M X) M = M /\
  dot (dot X M) X = X /\
  transpose (dot M X) = dot M X /\
  transpose (dot X M) = dot X M.

Definition invertible (n : nat) (M : matrix) : Prop :=
  exists Y, has_shape n n Y /\ dot Y M = eye n /\ dot M Y = eye n.

(** ** The per-point computation (body of the loop over the nodes) *)

Definition md : nat := 6.

(** the constant selector columns and their transposes *)
Definition w : matrix := [[1]; [0]; [0]; [0]; [0]; [0]]%R.
Definition pdx : matrix := [[0]; [1]; [0]; [0]; [0]; [0]]%R.
Definition pdxx : matrix := [[0]; [0]; [0]; [2]; [0]; [0]]%R.
Definition pdy : matrix := [[0]; [0]; [1]; [0]; [0]; [0]]%R.
Definition pdyy : matrix := [[0]; [0]; [0]; [0]; [0]; [2]]%R.

Definition w_ : matrix := transpose w.
Definition pdx_ : matrix := transpose pdx.
Definition pdxx_ : matrix := transpose pdxx.
Definition pdy_ : matrix := transpose pdy.
Definition pdyy_ : matrix := transpose pdyy.

(** a node is a pair of coordinates, one row of [distnod] *)
Definition point : Type := R * R.

Definition euclidean (p q : point) : R :=
  sqrt ((fst p - fst q) ^ 2 + (snd p - snd q) ^ 2).

Section PerPoint.
Local Open Scope R_scope.

(** [numpy.linalg.pinv] and [numpy.linalg.cond] *)
Variable pinv : matrix -> matrix.
Variable cond : matrix -> R.

(** [nsd = distnod[indices[i, :]]], [distances[i, :]] and [a0[i]] *)
Variable nsd : list point.
Variable dist_i : vector.
Variable a0_i : R.

(** [nsd[:, 0]], [nsd[:, 1]], [nsd[0, 0]], [nsd[0, 1]] ([nsd] has the 30
    rows of the neighbour query, so its first row exists) *)
Definition nsd_x : vector := map fst nsd.
Definition nsd_y : vector := map snd nsd.
Definition nsd00 : R := fst (nth 0 nsd (0, 0)).
Definition nsd01 : R := snd (nth 0 nsd (0, 0)).

Definition p_ : matrix :=
  [ ones (length nsd);
    vsubs nsd_x nsd00;
    vsubs nsd_y nsd01;
    vpow (vsubs nsd_x nsd00) 2;
    vmul (vsubs nsd_x nsd00) (vsubs nsd_y nsd01);
    vpow (vsubs nsd_y nsd01) 2 ].

Definition Dn : vector := vexp (vneg (vpow (vdivs dist_i a0_i) 2)).

Definition Dx : vector :=
  vmul (smul (-2 / a0_i ^ 2) (ssub nsd00 nsd_x)) Dn.
Definition Dxx : vector :=
  vmul (smul (-2 / a0_i ^ 4)
          (ssub (a0_i ^ 2) (smul 2 (vpow (ssub nsd00 nsd_x) 2)))) Dn.
Definition Dy : vector :=
  vmul (smul (-2 / a0_i ^ 2) (ssub nsd01 nsd_y)) Dn.
Definition Dyy : vector :=
  vmul (smul (-2 / a0_i ^ 4)
          (ssub (a0_i ^ 2) (smul 2 (vpow (ssub nsd01 nsd_y) 2)))) Dn.

Definition A : matrix := dot p_ (dot (diag Dn) (transpose p_)).
Definition Ax : matrix := dot p_ (dot (diag Dx) (transpose p_)).
Definition Axx : matrix := dot p_ (dot (diag Dxx) (transpose p_)).
Definition Ay : matrix := dot p_ (dot (diag Dy) (transpose p_)).
Definition Ayy : matrix := dot p_ (dot (diag Dyy) (transpose p_)).

Definition B : matrix := dot (diag Dn) (transpose p_).
Definition Bx : matrix := dot (diag Dx) (transpose p_).
Definition Bxx : matrix := dot (diag Dxx) (transpose p_).
Definition By : matrix := dot (diag Dy) (transpose p_).
Definition Byy : matrix := dot (diag Dyy) (transpose p_).

Definition IA : matrix := pinv A.

Definition IAx : matrix := neg (dot (dot IA Ax) IA).
Definition IAxx : matrix :=
  sub (sub (neg (dot (dot IAx Ax) IA)) (dot (dot IA Axx) IA))
      (dot (dot IA Ax) IAx).
Definition IAy : matrix := neg (dot (dot IA Ay) IA).
Definition IAyy : matrix :=
  sub (sub (neg (dot (dot IAy Ay) IA)) (dot (dot IA Ayy) IA))
      (dot (dot IA Ay) IAy).

Definition cond_A : R := cond A.

(** the five rows appended to [sf_list], [sfx_list], [sfy_list],
    [sfxx_list] and [sfyy_list] *)
Definition sf_row : vector :=
  ravel (transpose (dot (dot w_ IA) (transpose B))).

Definition sfx_row : vector :=
  ravel (transpose
    (add (dot (add (dot pdx_ IA) (dot w_ IAx)) (transpose B))
         (dot (dot w_ IA) (transpose Bx)))).

Definition sfy_row : vector :=
  ravel (transpose
    (add (dot (add (dot pdy_ IA) (dot w_ IAy)) (transpose B))
         (dot (dot w_ IA) (transpose By)))).

Definition sfxx_row : vector :=
  ravel (transpose
    (add (add (dot (add (add (dot pdxx_ IA) (scale 2 (dot pdx_ IAx)))
                        (dot w_ IAxx))
                   (transpose B))
              (dot (add (add (dot w_ IAx) (scale 2 (dot pdx_ IA)))
                        (dot w_ IAx))
                   (transpose Bx)))
         (dot (dot w_ IA) (transpose Bxx)))).

Definition sfyy_row : vector :=
  ravel (transpose
    (add (add (dot (add (add (dot pdyy_ IA) (scale 2 (dot pdy_ IAy)))
                        (dot w_ IAyy))
                   (transpose B))
              (dot (add (add (dot w_ IAy) (scale 2 (dot pdy_ IA)))
                        (dot w_ IAy))
                   (transpose By)))
         (dot (dot w_ IA) (transpose Byy)))).

End PerPoint.

(** ** The formulas of the method, entry by entry

    The design states the rows and the derivatives of the inverse as matrix
    products.  Written out on entries, with [md = 6] basis functions: *)

Section Formulas.
Local Open Scope R_scope.

(** [(v^T . M)[a]] for a selector column [v] *)
Definition select (v M : matrix) (a : nat) : R :=
  sum_n md (fun c => item v c 0 * item M c a).

(** [(X . Y . Z)[a, b]] *)
Definition triple (X Y Z : matrix) (a b : nat) : R :=
  sum_n md (fun c => sum_n md (fun d => item X a c * item Y c d * item Z d b)).

(** [- IA . dA . IA] *)
Definition inverse_d1 (IA dA : matrix) (a b : nat) : R :=
  - triple IA dA IA a b.

(** [- dIA . dA . IA - IA . d2A . IA - IA . dA . dIA] *)
Definition inverse_d2 (IA dIA dA d2A : matrix) (a b : nat) : R :=
  - triple dIA dA IA a b - triple IA d2A IA a b - triple IA dA dIA a b.

(** [w^T . IA . B^T] *)
Definition phi (IA B : matrix) (j : nat) : R :=
  sum_n md (fun a => select w IA a * item B j a).

(** [(p2^T . IA + 2 p1^T . dIA + w^T . d2IA) . B^T
     + (w^T . dIA + 2 p1^T . IA + w^T . dIA) . dB^T + w^T . IA . d2B^T] *)
Definition phi_d2 (p2 p1 IA dIA d2IA B dB d2B : matrix) (j : nat) : R :=
  sum_n md (fun a => (select p2 IA a + 2 * select p1 dIA a + select w d2IA a)
                     * item B j a)
  + sum_n md (fun a => (select w dIA a + 2 * select p1 IA a + select w dIA a)
                       * item dB j a)
  + sum_n md (fun a => select w IA a * item d2B j a).

(** the product rule applied twice to [p^T . IA . B^T] *)
Definition product_rule_d2 (p2 p1 IA dIA d2IA B dB d2B : matrix) (j : nat)
  : R :=
  sum_n md (fun a => (select p2 IA a + 2 * select p1 dIA a + select w d2IA a)
                     * item B j a)
  + 2 * sum_n md (fun a => (select p1 IA a + select w dIA a) * item dB j a)
  + sum_n md (fun a => select w IA a * item d2B j a).

End Formulas.

(** ** float64: special values and range

    The kernel lines divide by [a0[i]], [a0[i] ** 2] and [a0[i] ** 4].  On
    numpy scalars and arrays a division by zero raises nothing: it yields an
    infinity or a NaN (with a warning).  To observe this the kernel is also
    evaluated over [xreal]: a finite value, an infinity or NaN, with the
    range of [float64].  A product, a quotient, a power or an exponential of
    magnitude at most [tiny] = 2^-1075, half the least positive [float64],
    rounds to zero; a result whose magnitude reaches [huge] = 2^1024 - 2^970,
    half a unit in the last place above the greatest [float64], rounds to an
    infinity.  Between the two the rounding is idealised, and a zero is the
    positive zero (the divisors here are non-negative). *)

Module IEEE.
Local Open Scope R_scope.

Inductive xreal : Type :=
| Fin (r : R)
| PInf
| NInf
| NaN.

Definition is_finite (x : xreal) : Prop :=
  match x with Fin _ => True | _ => False end.

#[global] Instance is_finite_dec (x : xreal) : Decision (is_finite x) :=
  match x return Decision (is_finite x) with
  | Fin _ => left I
  | PInf => right (fun H => H)
  | NInf => right (fun H => H)
  | NaN => right (fun H => H)
  end.

(** the infinity with the sign of [r], NaN at zero *)
Definition signed_inf (r : R) (pos neg : xreal) : xreal :=
  if Rlt_dec 0 r then pos else if Rlt_dec r 0 then neg else NaN.

Definition tiny : R := / 2 ^ 1075.

Definition huge : R := 2 ^ 1024 - 2 ^ 970.

(** the [float64] for the exact result [r] of a sum or a difference: it
    can overflow, it never rounds to zero *)
Definition overflow (r : R) : xreal :=
  if Rle_dec huge (Rabs r) then signed_inf r PInf NInf else Fin r.

(** the [float64] for the exact result [r] of a product, a quotient, a
    power or an exponential: it underflows to zero or overflows *)
Definition fl (r : R) : xreal :=
  if Rle_dec (Rabs r) tiny then Fin 0 else overflow r.

(** a finite value of magnitude at most [B] *)
Definition bounded (B : R) (x : xreal) : Prop :=
  exists c, x = Fin c /\ Rabs c <= B.

Definition xneg (x : xreal) : xreal :=
  match x with
  | Fin r => Fin (- r)
  | PInf => NInf
  | NInf => PInf
  | NaN => NaN
  end.

Definition xmul (x y : xreal) : xreal :=
  match x, y with
  | NaN, _ | _, NaN => NaN
  | Fin a, Fin b => fl (a * b)
  | Fin a, PInf | PInf, Fin a => signed_inf a PInf NInf
  | Fin a, NInf | NInf, Fin a => signed_inf a NInf PInf
  | PInf, PInf | NInf, NInf => PInf
  | PInf, NInf | NInf, PInf => NInf
  end.

Definition xdiv (x y : xreal) : xreal :=
  match x, y with
  | NaN, _ | _, NaN => NaN
  | Fin a, Fin b =>
      if Req_dec_T b 0 then signed_inf a PInf NInf else fl (a / b)
  | Fin _, (PInf | NInf) => Fin 0
  | PInf, Fin b => if Rlt_dec b 0 then NInf else PInf
  | NInf, Fin b => if Rlt_dec b 0 then PInf else NInf
  | (PInf | NInf), (PInf | NInf) => NaN
  end.

Definition xsub (x y : xreal) : xreal :=
  match x, y with
  | NaN, _ | _, NaN => NaN
  | Fin a, Fin b => overflow (a - b)
  | Fin _, PInf => NInf
  | Fin _, NInf => PInf
  | PInf, Fin _ => PInf
  | NInf, Fin _ => NInf
  | PInf, NInf => PInf
  | NInf, PInf => NInf
  | PInf, PInf | NInf, NInf => NaN
  end.

(** [x ** n] for an integer literal [n] *)
Definition xpow (x : xreal) (n : nat) : xreal :=
  match n, x with
  | O, _ => Fin 1
  | _, Fin r => fl (r ^ n)
  | _, PInf => PInf
  | _, NInf => if Nat.even n then PInf else NInf
  | _, NaN => NaN
  end.

Definition xexp (x : xreal) : xreal :=
  match x with
  | Fin r => fl (exp r)
  | PInf => PInf
  | NInf => Fin 0
  | NaN => NaN
  end.

End IEEE.

Import IEEE.

Section PerPointIEEE.
Local Open Scope R_scope.

Variable nsd : list point.
Variable dist_i : vector.
Variable a0_i : R.

Definition xDn : list xreal :=
  map (fun d => xexp (xneg (xpow (xdiv (Fin d) (Fin a0_i)) 2))) dist_i.

Definition xD1 (c0 : R) (col : vector) : list xreal :=
  zip_with
    (fun c dn =>
       xmul (xmul (xdiv (Fin (-2)) (xpow (Fin a0_i) 2))
                  (xsub (Fin c0) (Fin c))) dn)
    col xDn.

Definition xD2 (c0 : R) (col : vector) : list xreal :=
  zip_with
    (fun c dn =>
       xmul (xmul (xdiv (Fin (-2)) (xpow (Fin a0_i) 4))
                  (xsub (xpow (Fin a0_i) 2)
                        (xmul (Fin 2) (xpow (xsub (Fin c0) (Fin c)) 2))))
            dn)
    col xDn.

Definition xDx : list xreal := xD1 (nsd00 nsd) (nsd_x nsd).
Definition xDxx : list xreal := xD2 (nsd00 nsd) (nsd_x nsd).
Definition xDy : list xreal := xD1 (nsd01 nsd) (nsd_y nsd).
Definition xDyy : list xreal := xD2 (nsd01 nsd) (nsd_y nsd).

End PerPointIEEE.

(** ** The whole cell: neighbour query, loop over the nodes, assembly *)

Inductive error : Type :=
| InsufficientPoints
    (* ValueError of the neighbour query on fewer nodes than asked for:
       kneighbors refuses (Expected n_neighbors <= n_samples_fit), and fit
       already refuses an empty cloud *)
| IndexError
    (* an index array or a column number outside the indexed array *)
| LinAlgError
    (* pinv: SVD did not converge, on an array that holds a NaN *)
| ValueError.
    (* arrays whose shapes do not fit; csc_matrix: index exceeds the matrix
       dimensions, or the three triplet arrays differ in length *)

(** the pair of arrays returned by [nbrs.kneighbors(distnod)] *)
Record neighbors : Type := {
  distances : list (list R);
  indices : list (list nat)
}.

(** a sparse matrix: its shape and its stored entries by (row, column) *)
Record sparse : Type := {
  shape : nat * nat;
  stored : gmap (nat * nat) R
}.

(** the accumulators filled by the loop *)
Record lists : Type := {
  cond_number : list R;
  i_list : list (list nat);
  sf_list : list vector;
  sfx_list : list vector;
  sfxx_list : list vector;
  sfy_list : list vector;
  sfyy_list : list vector
}.

(** what the cell leaves behind *)
Record output : Type := {
  out_cond_number : list R;
  sf : sparse;
  sfx : sparse;
  sfxx : sparse;
  sfy : sparse;
  sfyy : sparse
}.

Definition n_neighbors : nat := 30.

Definition scale_factor : R := (3 / 10)%R.

(** [arr[idx]] with an integer index array *)
Fixpoint take {X : Type} (arr : list X) (idx : list nat) : error + list X :=
  match idx with
  | [] => inr []
  | j :: idx' =>
      match arr !! j, take arr idx' with
      | Some x, inr xs => inr (x :: xs)
      | _, _ => inl IndexError
      end
  end.

(** [arr[:, c]] *)
Fixpoint column (arr : list (list R)) (c : nat) : error + vector :=
  match arr with
  | [] => inr []
  | row :: arr' =>
      match row !! c, column arr' c with
      | Some x, inr xs => inr (x :: xs)
      | _, _ => inl IndexError
      end
  end.

(** [sp.sparse.csc_matrix((data, (row, col)), shape=(n, n))]: entries given
    more than once for one position are summed *)
Definition add_entry (t : R * (nat * nat)) (m : gmap (nat * nat) R)
  : gmap (nat * nat) R :=
  <[ t.2 := (t.1 + default 0%R (m !! t.2))%R ]> m.

Definition csc_matrix (data : vector) (row col : list nat) (n : nat)
  : error + sparse :=
  if decide (length data = length row /\ length row = length col /\
             Forall (fun r => r < n) row /\ Forall (fun c => c < n) col)
  then inr {| shape := (n, n);
              stored := foldr add_entry ∅ (zip data (zip row col)) |}
  else inl ValueError.

Section Cell.

Variable pinv : matrix -> matrix.
Variable cond : matrix -> R.

(** [NearestNeighbors(n_neighbors=k, algorithm='ball_tree').fit(X).kneighbors(X)] *)
Variable kneighbors : nat -> list point -> error + neighbors.

Variable distnod : list point.

(** one pass of the loop body for node [i], after the progress line; a row
    number outside [indices], [distances] or [a0] is an IndexError.  When
    the rows of [indices] and [distances] differ in length the kernel arrays
    do not fit the basis and numpy raises a ValueError.  A division by zero
    raises nothing in the kernel lines, but [pinv(A)] raises LinAlgError
    when [A] holds a NaN, which it does as soon as an entry of [Dn] is one:
    for a zero [a0[i]] and a zero distance.  Past that line the pass is
    taken over the reals. *)
Definition body (nb : neighbors) (a0 : vector) (i : nat) (acc : lists)
  : error + lists :=
  match indices nb !! i, distances nb !! i, a0 !! i with
  | Some ix, Some dist_i, Some a0_i =>
      match take distnod ix with
      | inl e => inl e
      | inr nsd =>
          if decide (length nsd = length dist_i)
          then
            if decide (Forall is_finite (xDn dist_i a0_i))
            then
              inr {| cond_number :=
                       cond_number acc ++ [cond_A cond nsd dist_i a0_i];
                     i_list := i_list acc ++ [repeat i (length nsd)];
                     sf_list := sf_list acc ++ [sf_row pinv nsd dist_i a0_i];
                     sfx_list :=
                       sfx_list acc ++ [sfx_row pinv nsd dist_i a0_i];
                     sfxx_list :=
                       sfxx_list acc ++ [sfxx_row pinv nsd dist_i a0_i];
                     sfy_list :=
                       sfy_list acc ++ [sfy_row pinv nsd dist_i a0_i];
                     sfyy_list :=
                       sfyy_list acc ++ [sfyy_row pinv nsd dist_i a0_i] |}
            else inl LinAlgError
          else inl ValueError
      end
  | _, _, _ => inl IndexError
  end.

Definition progress (i : nat) (out : list nat) : list nat :=
  if i mod 10000 =? 0 then out ++ [i] else out.

Fixpoint loop (nb : neighbors) (a0 : vector) (range : list nat)
    (out : list nat) (acc : lists) : list nat * (error + lists) :=
  match range with
  | [] => (out, inr acc)
  | i :: range' =>
      let out' := progress i out in
      match body nb a0 i acc with
      | inl e => (out', inl e)
      | inr acc' => loop nb a0 range' out' acc'
      end
  end.

Definition empty_lists : lists :=
  {| cond_number := []; i_list := []; sf_list := []; sfx_list := [];
     sfxx_list := []; sfy_list := []; sfyy_list := [] |}.

(** flattening of the lists and construction of the five operators *)
Definition assemble (nb : neighbors) (acc : lists) : error + output :=
  let n := length distnod in
  let sdi_list := concat (indices nb) in
  let i_flat := concat (i_list acc) in
  match csc_matrix (concat (sf_list acc)) i_flat sdi_list n,
        csc_matrix (concat (sfx_list acc)) i_flat sdi_list n,
        csc_matrix (concat (sfxx_list acc)) i_flat sdi_list n,
        csc_matrix (concat (sfy_list acc)) i_flat sdi_list n,
        csc_matrix (concat (sfyy_list acc)) i_flat sdi_list n with
  | inr m, inr mx, inr mxx, inr my, inr myy =>
      inr {| out_cond_number := cond_number acc;
             sf := m; sfx := mx; sfxx := mxx; sfy := my; sfyy := myy |}
  | _, _, _, _, _ => inl ValueError
  end.

(** the cell: the progress lines printed, and the error raised or the
    result handed to [np.savez] (the closing line with the elapsed time and
    the files written are left out) *)
Definition mls : list nat * (error + output) :=
  match kneighbors n_neighbors distnod with
  | inl e => ([], inl e)
  | inr nb =>
      match column (distances nb) 29 with
      | inl e => ([], inl e)
      | inr a1 =>
          let a0 := smul scale_factor a1 in
          match loop nb a0 (seq 0 (length distnod)) [] empty_lists with
          | (out, inl e) => (out, inl e)
          | (out, inr acc) => (out, assemble nb acc)
          end
      end
  end.

(** the documented behaviour of the neighbour query on [X]: it refuses a
    cloud smaller than [k]; otherwise row [i] of the result lists [k]
    distinct nodes of [X], nearest first, with their Euclidean distances to
    node [i], and no node left out is closer than the last one listed *)
Definition kneighbors_spec (k : nat) (X : list point) (nb : neighbors) : Prop :=
  length (distances nb) = length X /\
  length (indices nb) = length X /\
  forall i, i < length X ->
    let d := nth i (distances nb) [] in
    let ix := nth i (indices nb) [] in
    length d = k /\ length ix = k /\ NoDup ix /\
    (forall j, j < k ->
       nth j ix 0 < length X /\
       nth j d 0%R =
         euclidean (nth i X (0, 0)%R) (nth (nth j ix 0) X (0, 0)%R)) /\
    (forall j j', j <= j' -> j' < k -> (nth j d 0 <= nth j' d 0)%R) /\
    (forall m, m < length X -> m ∉ ix ->
       (nth (k - 1) d 0 <= euclidean (nth i X (0, 0)) (nth m X (0, 0)))%R).

Definition kneighbors_contract (k : nat) (X : list point) : Prop :=
  match kneighbors k X with
  | inl e => length X < k /\ e = InsufficientPoints
  | inr nb => k <= length X /\ kneighbors_spec k X nb
  end.

End Cell.

(** ** Reading the result of the cell *)

Section Reading.

(** [nsd], [a0[i]] for node [i], from the arrays of the neighbour query *)
Definition nsd_at (distnod : list point) (nb : neighbors) (i : nat)
  : list point :=
  map (fun j => nth j distnod (0, 0)%R) (nth i (indices nb) []).

Definition a0_at (nb : neighbors) (i : nat) : R :=
  (scale_factor * nth 29 (nth i (distances nb) []) 0)%R.

(** the arrays of the neighbour query are [n] by [k], with node numbers
    below [n] *)
Definition well_indexed (n k : nat) (nb : neighbors) : Prop :=
  length (distances nb) = n /\ length (indices nb) = n /\
  forall i, i < n ->
    length (nth i (distances nb) []) = k /\
    length (nth i (indices nb) []) = k /\
    Forall (fun j => j < n) (nth i (indices nb) []).

(** the columns stored in row [i] of a sparse matrix *)
Definition row_columns (op : sparse) (i : nat) : gset nat :=
  set_map snd (filter (fun rc : nat * nat => rc.1 = i) (dom (stored op))).

(** the sum of the entries of [row] that go to column [c] *)
Definition column_sum (row : vector) (ix : list nat) (c : nat) : R :=
  Rsum (map fst (filter (fun t : R * nat => t.2 = c) (zip row ix))).

(** the row appended for node [i] by one of the five row functions *)
Definition row_at (row : list point -> vector -> R -> vector)
    (distnod : list point) (nb : neighbors) (i : nat) : vector :=
  row (nsd_at distnod nb i) (nth i (distances nb) []) (a0_at nb i).

(** row [i] of [op] has its stored entries exactly at the columns [ix],
    [k] of them, the entry at column [ix[j]] being [row[j]] *)
Definition neighbour_row (k : nat) (op : sparse) (ix : list nat)
    (row : vector) (i : nat) : Prop :=
  row_columns op i = list_to_set ix /\
  size (row_columns op i) = k /\
  forall j, j < k -> stored op !! (i, nth j ix 0) = Some (nth j row 0%R).

(** the data given for position [(r, c)] in a list of triplets *)
Definition given (T : list (R * (nat * nat))) (r c : nat) : list R :=
  map fst (filter (fun t : R * (nat * nat) => t.2 = (r, c)) T).

(** the triplets of one operator, node after node, and the operator *)
Definition triplets (row : list point -> vector -> R -> vector)
    (distnod : list point) (nb : neighbors) : list (R * (nat * nat)) :=
  concat
    (map (fun i =>
            zip (row_at row distnod nb i)
                (zip (repeat i (length (nth i (indices nb) [])))
                     (nth i (indices nb) [])))
         (seq 0 (length distnod))).

Definition operator (row : list point -> vector -> R -> vector)
    (distnod : list point) (nb : neighbors) : sparse :=
  {| shape := (length distnod, length distnod);
     stored := foldr add_entry ∅ (triplets row distnod nb) |}.

End Reading.

(** ** A sample neighbourhood

    Thirty nodes around the origin: five at each of six places that lie on
    no common conic, listed by distance.  The Lagrange polynomials of the six
    places give the inverse of the moment matrix in closed form. *)

Section Sample.
Local Open Scope R_scope.

Definition sample_nsd : list point :=
  repeat (0, 0) 5 ++ repeat (1, 0) 5 ++ repeat (-1, 0) 5 ++
  repeat (0, 1) 5 ++ repeat (0, -1) 5 ++ repeat (1, 1) 5.

Definition sample_dist : vector :=
  repeat 0 5 ++ repeat 1 20 ++ repeat (sqrt 2) 5.

Definition sample_a0 : R := scale_factor * nth 29 sample_dist 0.

(** coefficients of the Lagrange polynomials on [1, x, y, x^2, xy, y^2] *)
Definition lagrange : matrix :=
  [ [1; 0; 0; -1; 1; -1];
    [0; 1 / 2; 0; 1 / 2; -1; 0];
    [0; -1 / 2; 0; 1 / 2; 0; 0];
    [0; 0; 1 / 2; 0; -1; 1 / 2];
    [0; 0; -1 / 2; 0; 0; 1 / 2];
    [0; 0; 0; 0; 1; 0] ].

Definition sample_weight (l : nat) : R :=
  nth (5 * l) (Dn sample_dist sample_a0) 0.

Definition sample_inverse : matrix :=
  fromfunction 6 6
    (fun a b =>
       sum_n 6 (fun l => item lagrange l a * item lagrange l b
                         / (5 * sample_weight l))).

End Sample.

(** The same thirty nodes as a cloud: for each node the thirty nodes listed
    by distance (places in the order below, five nodes each), and a
    neighbour query that answers with this table. *)

Definition sample_order (p : nat) : list nat :=
  nth p [ [0; 1; 2; 3; 4; 5]; [1; 0; 5; 3; 4; 2]; [2; 0; 3; 4; 1; 5];
          [3; 0; 5; 1; 2; 4]; [4; 0; 1; 2; 3; 5]; [5; 1; 3; 0; 2; 4] ] [].

Definition sample_row (i : nat) : list nat :=
  flat_map (fun q => seq (5 * q) 5) (sample_order (i / 5)).

Definition sample_neighbors : neighbors :=
  {| distances :=
       map (fun i =>
              map (fun j => euclidean (nth i sample_nsd (0, 0)%R)
                                      (nth j sample_nsd (0, 0)%R))
                  (sample_row i))
           (seq 0 30);
     indices := map sample_row (seq 0 30) |}.

Definition sample_kneighbors (k : nat) (X : list point) : error + neighbors :=
  if decide (length X < k) then inl InsufficientPoints
  else inr sample_neighbors.

(** ** Reading the rows: quadratics, fields and stored positions *)

Section Quadratics.
Local Open Scope R_scope.

(** the quadratic with coefficients [c] on the basis of [nsd], at
    neighbour [j] *)
Definition quadratic (c : vector) (nsd : list point) (j : nat) : R :=
  sum_n md (fun b => nth b c 0 * item (p_ nsd) b j).

(** a quadratic field on the plane, with coefficients [c] on
    [1, x, y, x^2, x y, y^2], and its coefficients on the basis shifted to
    the point [o] *)
Definition quadratic_field (c : vector) (p : point) : R :=
  (nth 0 c 0 + nth 1 c 0 * p.1 + nth 2 c 0 * p.2 + nth 3 c 0 * p.1 ^ 2
   + nth 4 c 0 * (p.1 * p.2) + nth 5 c 0 * p.2 ^ 2).

Definition shifted (c : vector) (o : point) : vector :=
  [ quadratic_field c o;
    nth 1 c 0 + 2 * nth 3 c 0 * o.1 + nth 4 c 0 * o.2;
    nth 2 c 0 + nth 4 c 0 * o.1 + 2 * nth 5 c 0 * o.2;
    nth 3 c 0; nth 4 c 0; nth 5 c 0 ].

(** row [i] of [op] applied to the nodal values [u], over the columns
    [ix] *)
Definition apply_row (op : sparse) (i : nat) (ix : list nat) (u : nat -> R)
  : R :=
  sum_n (length ix)
    (fun j => default 0 (stored op !! (i, nth j ix 0%nat))
              * u (nth j ix 0%nat)).

(** the Gaussian of the squared offset [(t - u)^2 + c], and its first two
    derivatives in [t] *)
Definition gauss (a0 u c t : R) : R := exp (- (((t - u) ^ 2 + c) / a0 ^ 2)).

End Quadratics.

(** the positions given for the rows [l], whatever the data *)
Definition positions (ixf : nat -> list nat) (l : list nat)
  : list (nat * nat) :=
  concat (map (fun i => map (pair i) (ixf i)) l).

(** ** The node file: the rectangular channel of the first cell *)

Section Channel.
Local Open Scope R_scope.

(** [np.linspace(start, stop, num)]: [num] evenly spaced samples, the last
    one set to [stop] when there is more than one *)
Definition linspace (start stop : R) (num : nat) : vector :=
  match num with
  | O => []
  | S O => [start]
  | S div =>
      let step := (stop - start) / INR div in
      map (fun i => INR i * step + start) (seq 0 div) ++ [stop]
  end.

(** [np.meshgrid(x, y)]: two arrays of [len(y)] rows and [len(x)] columns *)
Definition meshgrid (x y : vector) : matrix * matrix :=
  (map (fun _ => x) y, map (fun v => map (fun _ => v) x) y).

(** [np.reshape(M, (n, 1))] *)
Definition reshape (M : matrix) (n : nat) : error + matrix :=
  if decide (length (ravel M) = n)
  then inr (map (fun v => [v]) (ravel M))
  else inl ValueError.

(** [np.hstack((X, Y))] *)
Definition hstack (X Y : matrix) : error + matrix :=
  if decide (length X = length Y)
  then inr (zip_with app X Y)
  else inl ValueError.

(** the array [nodes] written to [geom.dat], for a channel of width [H] and
    length [L] with [ny] by [nx] points *)
Definition nodes (H L : R) (ny nx : nat) : error + matrix :=
  let x := linspace 0 L nx in
  let y := linspace 0 H ny in
  let (X, Y) := meshgrid x y in
  match reshape X (ny * nx), reshape Y (ny * nx) with
  | inr X', inr Y' => hstack X' Y'
  | inl e, _ => inl e
  | _, inl e => inl e
  end.

(** [np.genfromtxt('geom.dat')] on the rows written by [np.savetxt]: an
    array of two columns, a point per row (a file of two rows or more; for a
    single row numpy hands back a flat array) *)
Definition genfromtxt (saved : matrix) : list point :=
  map (fun r => (nth 0 r 0, nth 1 r 0)) saved.

End Channel.

(** ** A neighbour query by exhaustive search

    For each node the nodes of the cloud sorted by their distance to it,
    the first [k] kept: a query that behaves as documented on every
    cloud. *)

Definition nearer (t u : R * nat) : Prop := (t.1 <= u.1)%R.

#[global] Instance nearer_dec : RelDecision nearer :=
  fun t u => Rle_dec t.1 u.1.

Definition candidates (X : list point) (p : point) : list (R * nat) :=
  map (fun m => (euclidean p (nth m X (0, 0)%R), m)) (seq 0 (length X)).

Definition nearest (k : nat) (X : list point) (p : point)
  : list (R * nat) :=
  firstn k (merge_sort nearer (candidates X p)).

Definition exhaustive_kneighbors (k : nat) (X : list point)
  : error + neighbors :=
  if decide (length X < k) then inl InsufficientPoints
  else inr {| distances := map (fun p => map fst (nearest k X p)) X;
              indices := map (fun p => map snd (nearest k X p)) X |}.

(** ** Arrays: index lemmas *)

Section ArrayFacts.
Local Open Scope R_scope.

Lemma nth_map_seq {X : Type} (f : nat -> X) (n i : nat) (d : X) :
  (i < n)%nat -> nth i (map f (seq 0 n)) d = f i.
Proof.
  intros Hi.
  rewrite (nth_indep _ d (f 0%nat)) by (now rewrite length_map, length_seq).
  rewrite (map_nth f), seq_nth by assumption.
  reflexivity.
Qed.

Lemma item_fromfunction m n f i j :
  (i < m)%nat -> (j < n)%nat -> item (fromfunction m n f) i j = f i j.
Proof.
  intros Hi Hj. unfold item, fromfunction.
  rewrite nth_map_seq by assumption.
  now apply nth_map_seq.
Qed.

Lemma nrows_fromfunction m n f : nrows (fromfunction m n f) = m.
Proof. unfold nrows, fromfunction. now rewrite length_map, length_seq. Qed.

Lemma ncols_fromfunction m n f :
  (0 < m)%nat -> ncols (fromfunction m n f) = n.
Proof.
  intros Hm. unfold ncols, fromfunction.
  destruct m as [|m]; [lia|].
  cbn. now rewrite length_map, length_seq.
Qed.

Lemma fromfunction_ext m n f g :
  (forall i j, (i < m)%nat -> (j < n)%nat -> f i j = g i j) ->
  fromfunction m n f = fromfunction m n g.
Proof.
  intros H. unfold fromfunction.
  apply map_ext_in. intros i Hi. apply in_seq in Hi.
  apply map_ext_in. intros j Hj. apply in_seq in Hj.
  apply H; lia.
Qed.

Lemma has_shape_fromfunction m n f : has_shape m n (fromfunction m n f).
Proof.
  split.
  - apply nrows_fromfunction.
  - unfold fromfunction. apply List.Forall_forall. intros r Hr.
    apply in_map_iff in Hr. destruct Hr as (i & <- & _).
    now rewrite length_map, length_seq.
Qed.

Lemma nth_zip_with {X Y Z : Type} (f : X -> Y -> Z) u v j dx dy dz :
  (j < length u)%nat -> (j < length v)%nat ->
  nth j (zip_with f u v) dz = f (nth j u dx) (nth j v dy).
Proof.
  revert v j. induction u as [|a u IH]; intros [|b v] j Hu Hv;
    cbn in *; try lia.
  destruct j as [|j]; [reflexivity|].
  apply IH; lia.
Qed.

Lemma nth_map_lt {X Y : Type} (f : X -> Y) l j dx dy :
  (j < length l)%nat -> nth j (map f l) dy = f (nth j l dx).
Proof.
  intros Hj.
  rewrite (nth_indep _ dy (f dx)) by now rewrite length_map.
  apply map_nth.
Qed.

End ArrayFacts.

(** ** The weight kernel *)

Section KernelFacts.
Local Open Scope R_scope.

Variable nsd : list point.
Variable dist_i : vector.
Variable a0_i : R.
Hypothesis same_length : length dist_i = length nsd.

Lemma length_Dn : length (Dn dist_i a0_i) = length dist_i.
Proof. unfold Dn, vexp, vneg, vpow, vdivs. now rewrite !length_map. Qed.

Lemma nth_Dn j :
  (j < length nsd)%nat ->
  nth j (Dn dist_i a0_i) 0 = exp (- (nth j dist_i 0 / a0_i) ^ 2).
Proof.
  intros Hj. unfold Dn, vexp, vneg, vpow, vdivs.
  rewrite !map_map.
  apply (nth_map_lt (fun d => exp (- (d / a0_i) ^ 2))). lia.
Qed.

Lemma nth_D1 (c0 : R) (col : vector) j :
  length col = length nsd -> (j < length nsd)%nat ->
  nth j (vmul (smul (-2 / a0_i ^ 2) (ssub c0 col)) (Dn dist_i a0_i)) 0 =
  -2 / a0_i ^ 2 * (c0 - nth j col 0) * exp (- (nth j dist_i 0 / a0_i) ^ 2).
Proof.
  intros Hc Hj. unfold vmul, smul, ssub.
  rewrite (nth_zip_with _ _ _ _ 0 0)
    by (rewrite ?length_map, ?length_Dn; lia).
  rewrite nth_Dn by assumption.
  rewrite map_map.
  rewrite (nth_map_lt (fun x => -2 / a0_i ^ 2 * (c0 - x)) _ _ 0) by lia.
  reflexivity.
Qed.

Lemma nth_D2 (c0 : R) (col : vector) j :
  length col = length nsd -> (j < length nsd)%nat ->
  nth j (vmul (smul (-2 / a0_i ^ 4)
                 (ssub (a0_i ^ 2) (smul 2 (vpow (ssub c0 col) 2))))
              (Dn dist_i a0_i)) 0 =
  -2 / a0_i ^ 4 * (a0_i ^ 2 - 2 * (c0 - nth j col 0) ^ 2)
    * exp (- (nth j dist_i 0 / a0_i) ^ 2).
Proof.
  intros Hc Hj. unfold vmul, smul, ssub, vpow.
  rewrite (nth_zip_with _ _ _ _ 0 0)
    by (rewrite ?length_map, ?length_Dn; lia).
  rewrite nth_Dn by assumption.
  rewrite !map_map.
  rewrite (nth_map_lt
             (fun x => -2 / a0_i ^ 4 * (a0_i ^ 2 - 2 * (c0 - x) ^ 2)) _ _ 0)
    by lia.
  reflexivity.
Qed.

Lemma nth_nsd_x j : nth j (nsd_x nsd) 0 = fst (nth j nsd (0, 0)).
Proof. unfold nsd_x. apply (map_nth fst nsd (0, 0)). Qed.

Lemma nth_nsd_y j : nth j (nsd_y nsd) 0 = snd (nth j nsd (0, 0)).
Proof. unfold nsd_y. apply (map_nth snd nsd (0, 0)). Qed.

End KernelFacts.

Lemma euclidean_nonneg p q : (0 <= euclidean p q)%R.
Proof. apply sqrt_pos. Qed.

Lemma euclidean_self p : euclidean p p = 0%R.
Proof.
  unfold euclidean.
  replace ((p.1 - p.1) ^ 2 + (p.2 - p.2) ^ 2)%R with 0%R by ring.
  apply sqrt_0.
Qed.

Lemma euclidean_zero p q : euclidean p q = 0%R -> p = q.
Proof.
  unfold euclidean. intros H.
  apply sqrt_eq_0 in H;
    [|apply Rplus_le_le_0_compat; apply pow2_ge_0].
  destruct p as [a b], q as [c d]; cbn [fst snd] in *.
  assert (Ha := pow2_ge_0 (a - c)).
  assert (Hb := pow2_ge_0 (b - d)).
  assert (Hac : ((a - c) * (a - c) = 0)%R) by lra.
  assert (Hbd : ((b - d) * (b - d) = 0)%R) by lra.
  apply Rsqr_0_uniq in Hac, Hbd.
  f_equal; lra.
Qed.

Section KernelClaims.
Local Open Scope R_scope.

(** C4.  For a neighbour [j] at distance [d] of the evaluation point
    [(x0, y0)] (the first row of [nsd]) and a support radius [a0 > 0], the
    kernel arrays hold [Dn = exp(-(d/a0)^2)], [Dx = (-2/a0^2)(x0 - x) Dn],
    [Dy] likewise in [y], [Dxx = (-2/a0^4)(a0^2 - 2 (x0 - x)^2) Dn], [Dyy]
    likewise in [y]; at distance zero they are [1], [0], [0], [-2/a0^2] and
    [-2/a0^2]. *)
Theorem weight_kernel_values (nsd : list point) (dist_i : vector) (a0 : R)
    (j : nat) :
  let x0 := nsd00 nsd in
  let y0 := nsd01 nsd in
  let x := fst (nth j nsd (0, 0)) in
  let y := snd (nth j nsd (0, 0)) in
  let d := nth j dist_i 0 in
  0 < a0 ->
  length dist_i = length nsd ->
  (j < length nsd)%nat ->
  d = euclidean (x0, y0) (x, y) ->
  (nth j (Dn dist_i a0) 0 = exp (- (d / a0) ^ 2) /\
   nth j (Dx nsd dist_i a0) 0 = -2 / a0 ^ 2 * (x0 - x) * exp (- (d / a0) ^ 2) /\
   nth j (Dy nsd dist_i a0) 0 = -2 / a0 ^ 2 * (y0 - y) * exp (- (d / a0) ^ 2) /\
   nth j (Dxx nsd dist_i a0) 0 =
     -2 / a0 ^ 4 * (a0 ^ 2 - 2 * (x0 - x) ^ 2) * exp (- (d / a0) ^ 2) /\
   nth j (Dyy nsd dist_i a0) 0 =
     -2 / a0 ^ 4 * (a0 ^ 2 - 2 * (y0 - y) ^ 2) * exp (- (d / a0) ^ 2)) /\
  (d = 0 ->
   nth j (Dn dist_i a0) 0 = 1 /\
   nth j (Dx nsd dist_i a0) 0 = 0 /\
   nth j (Dy nsd dist_i a0) 0 = 0 /\
   nth j (Dxx nsd dist_i a0) 0 = -2 / a0 ^ 2 /\
   nth j (Dyy nsd dist_i a0) 0 = -2 / a0 ^ 2).
Proof.
  intros x0 y0 x y d Ha Hlen Hj Hd.
  assert (HDn : nth j (Dn dist_i a0) 0 = exp (- (d / a0) ^ 2))
    by exact (nth_Dn nsd dist_i a0 Hlen j Hj).
  assert (HDx : nth j (Dx nsd dist_i a0) 0 =
                -2 / a0 ^ 2 * (x0 - x) * exp (- (d / a0) ^ 2)).
  { unfold Dx. rewrite (nth_D1 nsd) by (unfold nsd_x; rewrite ?length_map; auto).
    now rewrite nth_nsd_x. }
  assert (HDy : nth j (Dy nsd dist_i a0) 0 =
                -2 / a0 ^ 2 * (y0 - y) * exp (- (d / a0) ^ 2)).
  { unfold Dy. rewrite (nth_D1 nsd) by (unfold nsd_y; rewrite ?length_map; auto).
    now rewrite nth_nsd_y. }
  assert (HDxx : nth j (Dxx nsd dist_i a0) 0 =
     -2 / a0 ^ 4 * (a0 ^ 2 - 2 * (x0 - x) ^ 2) * exp (- (d / a0) ^ 2)).
  { unfold Dxx. rewrite (nth_D2 nsd) by (unfold nsd_x; rewrite ?length_map; auto).
    now rewrite nth_nsd_x. }
  assert (HDyy : nth j (Dyy nsd dist_i a0) 0 =
     -2 / a0 ^ 4 * (a0 ^ 2 - 2 * (y0 - y) ^ 2) * exp (- (d / a0) ^ 2)).
  { unfold Dyy. rewrite (nth_D2 nsd) by (unfold nsd_y; rewrite ?length_map; auto).
    now rewrite nth_nsd_y. }
  split; [now repeat split|].
  intros Hd0.
  assert (Hxy : (x0, y0) = (x, y)).
  { apply euclidean_zero. now rewrite <- Hd. }
  injection Hxy as Hx Hy.
  assert (He : exp (- (d / a0) ^ 2) = 1).
  { rewrite Hd0. replace (- (0 / a0) ^ 2) with 0 by (field; lra).
    apply exp_0. }
  rewrite HDn, HDx, HDy, HDxx, HDyy, He, <- Hx, <- Hy.
  repeat split; try (field; lra).
Qed.

End KernelClaims.

Lemma weight_kernel_values_witness :
  let nsd : list point := [(0, 0); (1, 0)]%R in
  let dist_i : vector := [0; 1]%R in
  (0 < 1)%R /\ length dist_i = length nsd /\ 1 < length nsd /\
  nth 1 (Dn dist_i 1) 0%R = exp (- (1 / 1) ^ 2) /\
  nth 1 (Dxx nsd dist_i 1) 0%R =
    (-2 / 1 ^ 4 * (1 ^ 2 - 2 * (0 - 1) ^ 2) * exp (- (1 / 1) ^ 2))%R.
Proof.
  intros nsd dist_i.
  assert (H01 : (0 < 1)%R) by lra.
  assert (Hlen : length dist_i = length nsd) by reflexivity.
  assert (Hj : 1 < length nsd) by (cbn; lia).
  assert (Hd : nth 1 dist_i 0%R =
               euclidean (nsd00 nsd, nsd01 nsd)
                 (fst (nth 1 nsd (0, 0)%R), snd (nth 1 nsd (0, 0)%R))).
  { unfold euclidean; cbn.
    replace ((0 - 1) * ((0 - 1) * 1) + (0 - 0) * ((0 - 0) * 1))%R
      with 1%R by ring.
    now rewrite sqrt_1. }
  destruct (weight_kernel_values nsd dist_i 1 1 H01 Hlen Hj Hd)
    as [(HDn & _ & _ & HDxx & _) _].
  repeat split; assumption.
Defined.

Section KernelZero.
Local Open Scope R_scope.

(** C5 as stated fails: at the self point (distance zero) the second
    derivatives of the weight are [-2/a0^2], not zero.  Here a single node at
    the origin with [a0 = 1]. *)
Lemma zero_distance_second_derivatives_not_zero :
  let nsd : list point := [(0, 0)] in
  let dist_i : vector := [0] in
  nth 0 dist_i 0 = 0 /\
  nth 0 (Dxx nsd dist_i 1) 0 = -2 /\
  ~ (nth 0 (Dn dist_i 1) 0 = 1 /\
     nth 0 (Dx nsd dist_i 1) 0 = 0 /\
     nth 0 (Dy nsd dist_i 1) 0 = 0 /\
     nth 0 (Dxx nsd dist_i 1) 0 = 0 /\
     nth 0 (Dyy nsd dist_i 1) 0 = 0).
Proof.
  intros nsd dist_i.
  assert (H : nth 0 (Dxx nsd dist_i 1) 0 = -2).
  { cbn.
    replace (- (0 / 1 * (0 / 1 * 1))) with 0 by field.
    rewrite exp_0. field. }
  split; [reflexivity|]. split; [exact H|].
  intros (_ & _ & _ & Hxx & _). rewrite H in Hxx. lra.
Qed.

(** C5, amended.  At the self point (distance zero, the coordinates of the
    first row of [nsd]) and for [a0 <> 0] the kernel arrays hold [Dn = 1],
    [Dx = Dy = 0] and [Dxx = Dyy = -2/a0^2]. *)
Theorem zero_distance_kernel (nsd : list point) (dist_i : vector) (a0 : R)
    (j : nat) :
  a0 <> 0 ->
  length dist_i = length nsd ->
  (j < length nsd)%nat ->
  nth j dist_i 0 = 0 ->
  nth j nsd (0, 0) = nth 0 nsd (0, 0) ->
  nth j (Dn dist_i a0) 0 = 1 /\
  nth j (Dx nsd dist_i a0) 0 = 0 /\
  nth j (Dy nsd dist_i a0) 0 = 0 /\
  nth j (Dxx nsd dist_i a0) 0 = -2 / a0 ^ 2 /\
  nth j (Dyy nsd dist_i a0) 0 = -2 / a0 ^ 2.
Proof.
  intros Ha Hlen Hj Hd Hself.
  assert (He : exp (- (nth j dist_i 0 / a0) ^ 2) = 1).
  { rewrite Hd. replace (- (0 / a0) ^ 2) with 0 by (field; assumption).
    apply exp_0. }
  unfold Dx, Dy, Dxx, Dyy.
  rewrite (nth_Dn nsd), !(nth_D1 nsd), !(nth_D2 nsd), He
    by (unfold nsd_x, nsd_y; rewrite ?length_map; auto).
  rewrite nth_nsd_x, nth_nsd_y, Hself.
  unfold nsd00, nsd01.
  repeat split; field; assumption.
Qed.

Lemma zero_distance_kernel_witness :
  let nsd : list point := [(2, 5); (3, 5)] in
  let dist_i : vector := [0; 1] in
  (3 / 10 <> 0) /\
  nth 0 (Dxx nsd dist_i (3 / 10)) 0 = -2 / (3 / 10) ^ 2.
Proof.
  intros nsd dist_i.
  assert (Ha : 3 / 10 <> 0) by lra.
  assert (Hlen : length dist_i = length nsd) by reflexivity.
  assert (Hj : (0 < length nsd)%nat) by (cbn; lia).
  assert (Hd : nth 0 dist_i 0 = 0) by reflexivity.
  assert (Hs : nth 0 nsd (0, 0) = nth 0 nsd (0, 0)) by reflexivity.
  destruct (zero_distance_kernel nsd dist_i (3 / 10) 0 Ha Hlen Hj Hd Hs)
    as (_ & _ & _ & Hxx & _).
  split; assumption.
Defined.

End KernelZero.

(** ** Division by the support radius *)

Section Range.
Local Open Scope R_scope.

Lemma tiny_pos : 0 < tiny.
Proof. unfold tiny. apply Rinv_0_lt_compat, pow_lt. lra. Qed.

Lemma huge_above : 2 ^ 1023 <= huge.
Proof.
  unfold huge.
  assert (H : 2 ^ 1024 = 2 * 2 ^ 1023) by reflexivity.
  assert (H' : 2 ^ 970 <= 2 ^ 1023) by (apply Rle_pow; [lra|lia]).
  rewrite H. lra.
Qed.

Lemma tiny_huge : tiny < huge.
Proof.
  pose proof huge_above as H.
  assert (H1 : tiny <= 1).
  { unfold tiny. rewrite <- Rinv_1. apply Rinv_le_contravar; [lra|].
    apply pow_R1_Rle. lra. }
  assert (H2 : 1 < 2 ^ 1023).
  { replace 1 with (2 ^ 0) by reflexivity. apply Rlt_pow; [lra|lia]. }
  lra.
Qed.

Lemma overflow_Fin r : Rabs r < huge -> overflow r = Fin r.
Proof.
  intros H. unfold overflow.
  destruct (Rle_dec huge (Rabs r)); [lra|reflexivity].
Qed.

Lemma fl_exact r : tiny < Rabs r -> Rabs r < huge -> fl r = Fin r.
Proof.
  intros Ht Hh. unfold fl.
  destruct (Rle_dec (Rabs r) tiny); [lra|]. now apply overflow_Fin.
Qed.

Lemma fl_zero r : Rabs r <= tiny -> fl r = Fin 0.
Proof.
  intros H. unfold fl. now destruct (Rle_dec (Rabs r) tiny).
Qed.

Lemma signed_inf_pos r pos neg : 0 < r -> signed_inf r pos neg = pos.
Proof. intros H. unfold signed_inf. now destruct (Rlt_dec 0 r). Qed.

Lemma signed_inf_neg r pos neg : r < 0 -> signed_inf r pos neg = neg.
Proof.
  intros H. unfold signed_inf.
  destruct (Rlt_dec 0 r); [lra|]. now destruct (Rlt_dec r 0).
Qed.

Lemma signed_inf_zero pos neg : signed_inf 0 pos neg = NaN.
Proof.
  unfold signed_inf.
  destruct (Rlt_dec 0 0); [lra|].
  destruct (Rlt_dec 0 0); [lra|]. reflexivity.
Qed.

(** a rounded result is zero, the exact result or an infinity *)
Lemma fl_cases r :
  fl r = Fin 0 \/ fl r = Fin r \/ (0 < r /\ fl r = PInf) \/
  (r < 0 /\ fl r = NInf).
Proof.
  unfold fl, overflow. pose proof tiny_pos. pose proof tiny_huge.
  destruct (Rle_dec (Rabs r) tiny); [now left|].
  destruct (Rle_dec huge (Rabs r)) as [Hh|]; [|now right; left].
  right; right.
  destruct (Rcase_abs r) as [Hneg|Hpos].
  - right. split; [assumption|]. now apply signed_inf_neg.
  - left. assert (Hr : 0 < r).
    { destruct Hpos as [Hp|Hp]; [assumption|]. subst r. rewrite Rabs_R0 in Hh. lra. }
    split; [assumption|]. now apply signed_inf_pos.
Qed.

Lemma bounded_finite B x : bounded B x -> is_finite x.
Proof. now intros (c & -> & _). Qed.

Lemma fl_bounded r B : Rabs r <= B -> B < huge -> bounded B (fl r).
Proof.
  intros Hr HB. unfold fl.
  destruct (Rle_dec (Rabs r) tiny).
  - exists 0. split; [reflexivity|].
    rewrite Rabs_R0. pose proof (Rabs_pos r). lra.
  - rewrite overflow_Fin by lra. now exists r.
Qed.

Lemma xmul_bounded A B x y :
  bounded A x -> bounded B y -> A * B < huge -> bounded (A * B) (xmul x y).
Proof.
  intros (a & -> & Ha) (b & -> & Hb) HAB. cbn [xmul].
  apply fl_bounded; [|assumption].
  rewrite Rabs_mult.
  apply Rmult_le_compat; try apply Rabs_pos; assumption.
Qed.

Lemma xsub_bounded A B x y :
  bounded A x -> bounded B y -> A + B < huge -> bounded (A + B) (xsub x y).
Proof.
  intros (a & -> & Ha) (b & -> & Hb) HAB. cbn [xsub].
  assert (H : Rabs (a - b) <= A + B).
  { unfold Rminus. eapply Rle_trans; [apply Rabs_triang|].
    rewrite Rabs_Ropp. lra. }
  rewrite overflow_Fin by lra. now exists (a - b).
Qed.

Lemma xpow_bounded A x n :
  bounded A x -> A ^ n < huge -> bounded (A ^ n) (xpow x n).
Proof.
  intros (a & -> & Ha) HA.
  destruct n as [|n].
  - exists 1. split; [reflexivity|]. rewrite Rabs_R1. cbn. lra.
  - cbn [xpow]. apply fl_bounded; [|assumption].
    rewrite <- RPow_abs. apply pow_incr. split; [apply Rabs_pos|assumption].
Qed.

Lemma xdiv_bounded A x b :
  bounded A x -> b <> 0 -> A / Rabs b < huge ->
  bounded (A / Rabs b) (xdiv x (Fin b)).
Proof.
  intros (a & -> & Ha) Hb HB. cbn [xdiv].
  destruct (Req_dec_T b 0); [contradiction|].
  apply fl_bounded; [|assumption].
  unfold Rdiv. rewrite Rabs_mult, Rabs_inv.
  apply Rmult_le_compat_r; [|assumption].
  left. apply Rinv_0_lt_compat, Rabs_pos_lt. assumption.
Qed.

(** the square, negated: an infinity or a finite value below zero *)
Lemma xneg_square x :
  x <> NaN ->
  xneg (xpow x 2) = NInf \/ exists c, xneg (xpow x 2) = Fin c /\ c <= 0.
Proof.
  intros Hx. destruct x as [q| | |]; cbn [xpow Nat.even xneg];
    [|now left|now left|contradiction].
  destruct (fl_cases (q ^ 2)) as [H|[H|[[_ H]|[Hneg _]]]]; rewrite ?H.
  - right. exists (- 0). split; [reflexivity|lra].
  - right. exists (- q ^ 2). split; [reflexivity|].
    pose proof (pow2_ge_0 q). lra.
  - now left.
  - pose proof (pow2_ge_0 q). lra.
Qed.

Lemma xexp_nonpos c : c <= 0 -> bounded 1 (xexp (Fin c)).
Proof.
  intros Hc. cbn [xexp].
  assert (H0 : 0 < exp c) by apply exp_pos.
  assert (H1 : exp c <= 1).
  { rewrite <- exp_0. destruct Hc as [Hc| ->]; [|lra].
    left. now apply exp_increasing. }
  apply fl_bounded.
  - rewrite Rabs_pos_eq; lra.
  - pose proof huge_above.
    assert (1 < 2 ^ 1023); [|lra].
    replace 1 with (2 ^ 0) by reflexivity. apply Rlt_pow; [lra|lia].
Qed.

Lemma xdiv_Fin_not_NaN d a0 : a0 <> 0 -> xdiv (Fin d) (Fin a0) <> NaN.
Proof.
  intros Ha. cbn [xdiv]. destruct (Req_dec_T a0 0); [contradiction|].
  destruct (fl_cases (d / a0)) as [H|[H|[[_ H]|[_ H]]]]; rewrite H;
    discriminate.
Qed.

(** one entry of [Dn] *)
Lemma xDn_entry_bounded d a0 :
  a0 <> 0 -> bounded 1 (xexp (xneg (xpow (xdiv (Fin d) (Fin a0)) 2))).
Proof.
  intros Ha.
  destruct (xneg_square (xdiv (Fin d) (Fin a0)) (xdiv_Fin_not_NaN d a0 Ha))
    as [H|(c & H & Hc)]; rewrite H.
  - exists 0. split; [reflexivity|]. rewrite Rabs_R0. lra.
  - now apply xexp_nonpos.
Qed.

Lemma xdiv_zero_zero : xdiv (Fin 0) (Fin 0) = NaN.
Proof.
  unfold xdiv. destruct (Req_dec_T 0 0) as [_|H]; [|now destruct H].
  apply signed_inf_zero.
Qed.

Lemma xDn_entry_NaN :
  xexp (xneg (xpow (xdiv (Fin 0) (Fin 0)) 2)) = NaN.
Proof. now rewrite xdiv_zero_zero. Qed.

Lemma xmul_NaN_r x : xmul x NaN = NaN.
Proof. now destruct x. Qed.

Lemma xmul_not_finite x y : ~ is_finite x -> ~ is_finite (xmul x y).
Proof.
  intros Hx. destruct x as [a| | |]; [now destruct Hx| | |];
    destruct y as [b| | |]; cbn [xmul]; try (intros H; exact H);
    unfold signed_inf;
    destruct (Rlt_dec 0 b); try (intros H; exact H);
    destruct (Rlt_dec b 0); intros H; exact H.
Qed.

Lemma euclidean_fst p q : Rabs (p.1 - q.1) <= euclidean p q.
Proof.
  unfold euclidean. rewrite <- sqrt_Rsqr_abs.
  apply sqrt_le_1_alt. unfold Rsqr.
  pose proof (pow2_ge_0 (p.2 - q.2)). lra.
Qed.

Lemma euclidean_snd p q : Rabs (p.2 - q.2) <= euclidean p q.
Proof.
  unfold euclidean. rewrite <- sqrt_Rsqr_abs.
  apply sqrt_le_1_alt. unfold Rsqr.
  pose proof (pow2_ge_0 (p.1 - q.1)). lra.
Qed.

Lemma Forall_zip_with_nth {X Y Z : Type} (P : Z -> Prop) (f : X -> Y -> Z)
    (l : list X) (k : list Y) (dx : X) (dy : Y) :
  (forall j, (j < length l)%nat -> (j < length k)%nat ->
             P (f (nth j l dx) (nth j k dy))) ->
  Forall P (zip_with f l k).
Proof.
  revert k. induction l as [|x l IH]; intros [|y k] H; cbn [zip_with];
    try constructor.
  - apply (H 0%nat); cbn; lia.
  - apply IH. intros j Hl Hk. apply (H (S j)); cbn; lia.
Qed.

Lemma zip_with_NaN (F : R -> xreal -> xreal) col n :
  (forall c, F c NaN = NaN) ->
  length col = n ->
  zip_with F col (repeat NaN n) = repeat NaN n.
Proof.
  intros HF. revert n.
  induction col as [|c col IH]; intros [|n] Hn; cbn in *; try lia;
    try reflexivity.
  rewrite HF, IH by lia. reflexivity.
Qed.

End Range.

Section KernelIEEE.
Local Open Scope R_scope.

Variable nsd : list point.
Variable dist_i : vector.
Variable a0 : R.

Lemma length_xDn : length (xDn dist_i a0) = length dist_i.
Proof. unfold xDn. apply length_map. Qed.

Lemma length_xD1 c0 col :
  length col = length dist_i -> length (xD1 dist_i a0 c0 col) = length dist_i.
Proof.
  intros H. unfold xD1. rewrite length_zip_with, length_xDn, H.
  apply Nat.min_id.
Qed.

Lemma length_xD2 c0 col :
  length col = length dist_i -> length (xD2 dist_i a0 c0 col) = length dist_i.
Proof.
  intros H. unfold xD2. rewrite length_zip_with, length_xDn, H.
  apply Nat.min_id.
Qed.

Lemma kernel_lengths :
  length dist_i = length nsd ->
  length (xDn dist_i a0) = length nsd /\
  length (xDx nsd dist_i a0) = length nsd /\
  length (xDy nsd dist_i a0) = length nsd /\
  length (xDxx nsd dist_i a0) = length nsd /\
  length (xDyy nsd dist_i a0) = length nsd.
Proof.
  intros Hlen. unfold xDx, xDy, xDxx, xDyy.
  rewrite length_xDn, !length_xD1, !length_xD2
    by (unfold nsd_x, nsd_y; rewrite length_map; symmetry; exact Hlen).
  now rewrite Hlen.
Qed.

Lemma nth_xDn j :
  nth j (xDn dist_i a0) (xexp (xneg (xpow (xdiv (Fin 0) (Fin a0)) 2))) =
  xexp (xneg (xpow (xdiv (Fin (nth j dist_i 0)) (Fin a0)) 2)).
Proof.
  unfold xDn.
  apply (map_nth (fun d => xexp (xneg (xpow (xdiv (Fin d) (Fin a0)) 2)))).
Qed.

(** for a nonzero radius [Dn] is finite, whatever the distances *)
Lemma xDn_bounded : a0 <> 0 -> Forall (bounded 1) (xDn dist_i a0).
Proof.
  intros Ha. unfold xDn. apply List.Forall_map, List.Forall_forall.
  intros d _. now apply xDn_entry_bounded.
Qed.

Lemma xDn_finite : a0 <> 0 -> Forall is_finite (xDn dist_i a0).
Proof.
  intros Ha. eapply List.Forall_impl; [|now apply xDn_bounded].
  intros x. apply bounded_finite.
Qed.

(** a zero radius and a zero distance leave a NaN in [Dn] *)
Lemma xDn_not_finite :
  a0 = 0 -> In 0 dist_i -> ~ Forall is_finite (xDn dist_i a0).
Proof.
  intros -> Hin HF. rewrite List.Forall_forall in HF.
  specialize (HF (xexp (xneg (xpow (xdiv (Fin 0) (Fin 0)) 2)))).
  rewrite xDn_entry_NaN in HF. apply HF.
  rewrite <- xDn_entry_NaN. unfold xDn.
  apply (in_map (fun d => xexp (xneg (xpow (xdiv (Fin d) (Fin 0)) 2)))).
  exact Hin.
Qed.

Lemma xDn_zero :
  a0 = 0 -> Forall (fun d => d = 0) dist_i ->
  xDn dist_i a0 = repeat NaN (length dist_i).
Proof.
  intros -> Hd. unfold xDn.
  induction Hd as [|d l -> _ IH]; [reflexivity|].
  cbn [map length repeat]. rewrite IH. f_equal.
  apply xDn_entry_NaN.
Qed.

(** when [a0 ** 4] underflows, [-2 / a0 ** 4] is a division by zero *)
Lemma xD2_underflow c0 col :
  a0 ^ 4 <= tiny ->
  xpow (Fin a0) 4 = Fin 0 /\
  xdiv (Fin (-2)) (xpow (Fin a0) 4) = NInf /\
  Forall (fun x => ~ is_finite x) (xD2 dist_i a0 c0 col).
Proof.
  intros Hu.
  assert (Hp : xpow (Fin a0) 4 = Fin 0).
  { cbn [xpow]. apply fl_zero.
    rewrite Rabs_pos_eq; [assumption|].
    replace (a0 ^ 4) with ((a0 ^ 2) ^ 2) by ring. apply pow2_ge_0. }
  assert (Hq : xdiv (Fin (-2)) (xpow (Fin a0) 4) = NInf).
  { rewrite Hp. cbn [xdiv].
    destruct (Req_dec_T 0 0) as [_|H]; [|now destruct H].
    apply signed_inf_neg. lra. }
  split; [assumption|]. split; [assumption|].
  unfold xD2. rewrite Hq.
  apply (Forall_zip_with_nth _ _ _ _ 0 NaN). intros j _ _.
  apply xmul_not_finite, xmul_not_finite. intros H; exact H.
Qed.

Section InRange.

Hypothesis radius_range : / 2 ^ 250 <= a0 <= 2 ^ 250.

Lemma radius_pos : 0 < a0.
Proof.
  assert (0 < / 2 ^ 250) by (apply Rinv_0_lt_compat, pow_lt; lra). lra.
Qed.

Lemma radius_pow n :
  (/ 2 ^ 250) ^ n <= a0 ^ n <= (2 ^ 250) ^ n.
Proof.
  assert (0 < / 2 ^ 250) by (apply Rinv_0_lt_compat, pow_lt; lra).
  split; apply pow_incr; lra.
Qed.

Lemma xpow_radius n :
  (0 < n <= 4)%nat -> xpow (Fin a0) n = Fin (a0 ^ n).
Proof.
  intros Hn. destruct n as [|n]; [lia|]. cbn [xpow].
  pose proof (radius_pow (S n)) as [Hlo Hhi].
  assert (Hl : tiny < (/ 2 ^ 250) ^ S n).
  { unfold tiny. rewrite pow_inv, <- pow_mult.
    apply Rinv_lt_contravar.
    - apply Rmult_lt_0_compat; apply pow_lt; lra.
    - apply Rlt_pow; [lra|lia]. }
  assert (Hh : (2 ^ 250) ^ S n < huge).
  { pose proof huge_above. rewrite <- pow_mult.
    assert (2 ^ (250 * S n) < 2 ^ 1023); [|lra].
    apply Rlt_pow; [lra|lia]. }
  pose proof tiny_pos.
  apply fl_exact; rewrite Rabs_pos_eq; lra.
Qed.

Lemma radius_pow_inv n :
  (n <= 4)%nat -> 0 < a0 ^ n /\ / a0 ^ n <= 2 ^ (250 * n).
Proof.
  intros Hn. pose proof (radius_pow n) as [Hlo _].
  assert (Hp : 0 < (/ 2 ^ 250) ^ n)
    by (apply pow_lt, Rinv_0_lt_compat, pow_lt; lra).
  split; [lra|].
  apply Rle_trans with (/ (/ 2 ^ 250) ^ n);
    [apply Rinv_le_contravar; assumption|].
  rewrite pow_inv, Rinv_inv, <- pow_mult. apply Rle_refl.
Qed.

(** [-2 / a0 ** n] for [n] = 2 or 4 *)
Lemma xdiv_radius n :
  (0 < n <= 4)%nat ->
  bounded (2 / a0 ^ n) (xdiv (Fin (-2)) (xpow (Fin a0) n)).
Proof.
  intros Hn. rewrite xpow_radius by assumption.
  destruct (radius_pow_inv n) as [Hpos Hinv]; [lia|].
  assert (Hb : bounded 2 (Fin (-2))).
  { exists (-2). split; [reflexivity|].
    rewrite Rabs_left; lra. }
  rewrite <- (Rabs_pos_eq (a0 ^ n)) at 1 by lra.
  apply xdiv_bounded; [assumption|lra|].
  rewrite Rabs_pos_eq by lra.
  pose proof huge_above.
  assert (2 / a0 ^ n <= 2 ^ (S (250 * n))).
  { cbn [pow]. unfold Rdiv. lra. }
  assert (2 ^ S (250 * n) < 2 ^ 1023); [|lra].
  apply Rlt_pow; [lra|lia].
Qed.

Lemma radius_facts :
  0 < a0 /\ a0 <= 2 ^ 250 /\ a0 ^ 2 <= 2 ^ 500 /\
  / a0 <= 2 ^ 250 /\ / a0 ^ 2 <= 2 ^ 500 /\ 2 ^ 1023 <= huge.
Proof.
  pose proof radius_pos as Hpos.
  destruct (radius_pow 2) as [_ H2]. rewrite <- pow_mult in H2.
  destruct (radius_pow_inv 1) as [_ Hi1]; [lia|].
  destruct (radius_pow_inv 2) as [_ Hi2]; [lia|].
  rewrite pow_1 in Hi1.
  repeat split; try assumption; try apply huge_above.
  apply radius_range.
Qed.

(** the offset [c0 - c] of a neighbour at distance [d <= a0 / 0.3] *)
Lemma xsub_offset c0 c d :
  Rabs (c0 - c) <= d -> 3 / 10 * d <= a0 ->
  bounded (10 / 3 * a0) (xsub (Fin c0) (Fin c)).
Proof.
  intros Hc Hd.
  destruct radius_facts as (Hpos & Hhi & _ & _ & _ & Hh).
  assert (H : Rabs (c0 - c) <= 10 / 3 * a0) by lra.
  cbn [xsub]. rewrite overflow_Fin.
  - now exists (c0 - c).
  - assert (10 / 3 * 2 ^ 250 < 2 ^ 1023) by lra. lra.
Qed.

(** one entry of [Dx] or [Dy] *)
Lemma xD1_entry_finite c0 c d dn :
  Rabs (c0 - c) <= d -> 3 / 10 * d <= a0 -> bounded 1 dn ->
  is_finite
    (xmul (xmul (xdiv (Fin (-2)) (xpow (Fin a0) 2))
                (xsub (Fin c0) (Fin c))) dn).
Proof.
  intros Hc Hd Hdn.
  destruct radius_facts as (Hpos & Hhi & Ha2 & Hi1 & Hi2 & Hh).
  assert (Hc2 := xdiv_radius 2 ltac:(lia)).
  assert (Hs := xsub_offset c0 c d Hc Hd).
  assert (E : 2 / a0 ^ 2 * (10 / 3 * a0) = 20 / 3 * / a0)
    by (field; lra).
  assert (K : 20 / 3 * 2 ^ 250 < 2 ^ 1023) by lra.
  eapply bounded_finite.
  apply xmul_bounded; [apply xmul_bounded; eassumption || idtac|eassumption|];
    rewrite ?Rmult_1_r, E; lra.
Qed.

(** one entry of [Dxx] or [Dyy] *)
Lemma xD2_entry_finite c0 c d dn :
  Rabs (c0 - c) <= d -> 3 / 10 * d <= a0 -> bounded 1 dn ->
  is_finite
    (xmul (xmul (xdiv (Fin (-2)) (xpow (Fin a0) 4))
                (xsub (xpow (Fin a0) 2)
                      (xmul (Fin 2) (xpow (xsub (Fin c0) (Fin c)) 2))))
          dn).
Proof.
  intros Hc Hd Hdn.
  destruct radius_facts as (Hpos & Hhi & Ha2 & Hi1 & Hi2 & Hh).
  assert (Hc4 := xdiv_radius 4 ltac:(lia)).
  assert (Hs := xsub_offset c0 c d Hc Hd).
  assert (E2 : (10 / 3 * a0) ^ 2 = 100 / 9 * a0 ^ 2) by field.
  assert (K2 : 300 * 2 ^ 500 < 2 ^ 1023) by lra.
  assert (Hsq : bounded ((10 / 3 * a0) ^ 2)
                  (xpow (xsub (Fin c0) (Fin c)) 2)).
  { apply xpow_bounded; [assumption|]. rewrite E2. lra. }
  assert (Htwo : bounded 2 (Fin 2)).
  { exists 2. split; [reflexivity|]. rewrite Rabs_pos_eq; lra. }
  assert (Hm : bounded (2 * (10 / 3 * a0) ^ 2)
                 (xmul (Fin 2) (xpow (xsub (Fin c0) (Fin c)) 2))).
  { apply xmul_bounded; [assumption|assumption|]. rewrite E2. lra. }
  assert (Hp2 : bounded (a0 ^ 2) (xpow (Fin a0) 2)).
  { rewrite xpow_radius by lia. exists (a0 ^ 2). split; [reflexivity|].
    rewrite Rabs_pos_eq; [lra|]. apply pow2_ge_0. }
  assert (Hin : bounded (a0 ^ 2 + 2 * (10 / 3 * a0) ^ 2)
                  (xsub (xpow (Fin a0) 2)
                     (xmul (Fin 2) (xpow (xsub (Fin c0) (Fin c)) 2)))).
  { apply xsub_bounded; [assumption|assumption|]. rewrite E2. lra. }
  assert (E : 2 / a0 ^ 4 * (a0 ^ 2 + 2 * (10 / 3 * a0) ^ 2)
              = 418 / 9 * / a0 ^ 2) by (field; lra).
  eapply bounded_finite.
  apply xmul_bounded; [apply xmul_bounded; eassumption || idtac|eassumption|];
    rewrite ?Rmult_1_r, E; lra.
Qed.

Lemma xD1_finite c0 col :
  (forall j, (j < length col)%nat ->
     Rabs (c0 - nth j col 0) <= nth j dist_i 0 /\
     3 / 10 * nth j dist_i 0 <= a0) ->
  Forall is_finite (xD1 dist_i a0 c0 col).
Proof.
  intros H. pose proof radius_pos as Hpos. unfold xD1.
  apply (Forall_zip_with_nth _ _ _ _ 0
           (xexp (xneg (xpow (xdiv (Fin 0) (Fin a0)) 2)))).
  intros j Hj _. rewrite nth_xDn.
  destruct (H j Hj) as [Hc Hd].
  apply (xD1_entry_finite _ _ (nth j dist_i 0)); try assumption.
  apply xDn_entry_bounded. lra.
Qed.

Lemma xD2_finite c0 col :
  (forall j, (j < length col)%nat ->
     Rabs (c0 - nth j col 0) <= nth j dist_i 0 /\
     3 / 10 * nth j dist_i 0 <= a0) ->
  Forall is_finite (xD2 dist_i a0 c0 col).
Proof.
  intros H. pose proof radius_pos as Hpos. unfold xD2.
  apply (Forall_zip_with_nth _ _ _ _ 0
           (xexp (xneg (xpow (xdiv (Fin 0) (Fin a0)) 2)))).
  intros j Hj _. rewrite nth_xDn.
  destruct (H j Hj) as [Hc Hd].
  apply (xD2_entry_finite _ _ (nth j dist_i 0)); try assumption.
  apply xDn_entry_bounded. lra.
Qed.

(** the neighbours are at their Euclidean distances of the evaluation
    point, none farther than [a0 / 0.3] *)
Hypothesis within_support :
  forall j, (j < length nsd)%nat ->
    nth j dist_i 0 = euclidean (nsd00 nsd, nsd01 nsd) (nth j nsd (0, 0)) /\
    3 / 10 * nth j dist_i 0 <= a0.

Lemma kernel_in_range :
  Forall is_finite (xDn dist_i a0) /\
  Forall is_finite (xDx nsd dist_i a0) /\
  Forall is_finite (xDy nsd dist_i a0) /\
  Forall is_finite (xDxx nsd dist_i a0) /\
  Forall is_finite (xDyy nsd dist_i a0).
Proof.
  pose proof radius_pos as Hpos.
  assert (Hx : forall j, (j < length (nsd_x nsd))%nat ->
            Rabs (nsd00 nsd - nth j (nsd_x nsd) 0) <= nth j dist_i 0 /\
            3 / 10 * nth j dist_i 0 <= a0).
  { intros j Hj. unfold nsd_x in Hj. rewrite length_map in Hj.
    destruct (within_support j Hj) as [Hd Hs]. split; [|assumption].
    rewrite nth_nsd_x, Hd.
    apply (euclidean_fst (nsd00 nsd, nsd01 nsd)). }
  assert (Hy : forall j, (j < length (nsd_y nsd))%nat ->
            Rabs (nsd01 nsd - nth j (nsd_y nsd) 0) <= nth j dist_i 0 /\
            3 / 10 * nth j dist_i 0 <= a0).
  { intros j Hj. unfold nsd_y in Hj. rewrite length_map in Hj.
    destruct (within_support j Hj) as [Hd Hs]. split; [|assumption].
    rewrite nth_nsd_y, Hd.
    apply (euclidean_snd (nsd00 nsd, nsd01 nsd)). }
  split; [apply xDn_finite; lra|].
  unfold xDx, xDy, xDxx, xDyy.
  split; [now apply xD1_finite|].
  split; [now apply xD1_finite|].
  split; [now apply xD2_finite|now apply xD2_finite].
Qed.

End InRange.

Lemma kernel_nan :
  length dist_i = length nsd ->
  a0 = 0 -> Forall (fun d => d = 0) dist_i ->
  let nans := repeat NaN (length nsd) in
  xDn dist_i a0 = nans /\
  xDx nsd dist_i a0 = nans /\
  xDy nsd dist_i a0 = nans /\
  xDxx nsd dist_i a0 = nans /\
  xDyy nsd dist_i a0 = nans.
Proof.
  intros Hlen Ha Hd nans. subst nans.
  assert (HDn := xDn_zero Ha Hd). rewrite Hlen in HDn.
  unfold xDx, xDy, xDxx, xDyy, xD1, xD2. rewrite HDn.
  repeat split;
    try (apply zip_with_NaN;
         [intros c; apply xmul_NaN_r
         |unfold nsd_x, nsd_y; now rewrite length_map]).
Qed.

End KernelIEEE.

(** C10 as stated fails: a positive support radius does not keep the
    divisors away from zero.  For a neighbour at distance 2^-298 the radius
    [a0 = 0.3 * 2^-298] is positive, but [a0 ** 4] underflows to zero:
    [-2 / a0 ** 4] is a division by zero and the value of [Dxx] at the node
    itself is minus infinity. *)
Lemma tiny_radius_division_by_zero :
  let d_k := (/ 2 ^ 298)%R in
  let nsd : list point := [(0, 0); (d_k, 0)]%R in
  let dist_i : vector := [0; d_k]%R in
  let a0 := (3 / 10 * d_k)%R in
  (0 < a0)%R /\
  xpow (Fin a0) 4 = Fin 0 /\
  nth 0 (xDxx nsd dist_i a0) NaN = NInf /\
  ~ Forall is_finite (xDxx nsd dist_i a0).
Proof.
  intros d_k nsd dist_i a0.
  assert (Hpos : (0 < a0)%R) by (unfold a0, d_k; lra).
  assert (Hu : (a0 ^ 4 <= tiny)%R) by (unfold a0, d_k, tiny; lra).
  destruct (xD2_underflow dist_i a0 (nsd00 nsd) (nsd_x nsd) Hu)
    as (Hp & Hq & Hall).
  assert (Hentry : nth 0 (xDxx nsd dist_i a0) NaN = NInf).
  { unfold xDxx, xD2. rewrite Hq.
    cbn [nsd nsd_x nsd00 map fst nth dist_i xDn zip_with].
    assert (H0 : xsub (Fin 0) (Fin 0) = Fin (0 - 0)).
    { cbn [xsub]. apply overflow_Fin.
      pose proof tiny_pos. pose proof tiny_huge.
      replace (0 - 0)%R with 0%R by ring. rewrite Rabs_R0. lra. }
    assert (H1 : xpow (Fin (0 - 0)) 2 = Fin 0).
    { cbn [xpow]. apply fl_zero.
      replace ((0 - 0) ^ 2)%R with 0%R by ring. rewrite Rabs_R0.
      left. apply tiny_pos. }
    assert (H2 : xmul (Fin 2) (Fin 0) = Fin 0).
    { cbn [xmul]. apply fl_zero. rewrite Rmult_0_r, Rabs_R0.
      left. apply tiny_pos. }
    assert (H3 : xpow (Fin a0) 2 = Fin (a0 ^ 2)).
    { cbn [xpow]. pose proof huge_above.
      apply fl_exact; rewrite Rabs_pos_eq by apply pow2_ge_0;
        unfold a0, d_k, tiny; lra. }
    assert (H4 : xsub (Fin (a0 ^ 2)) (Fin 0) = Fin (a0 ^ 2 - 0)).
    { cbn [xsub]. pose proof huge_above. apply overflow_Fin.
      rewrite Rabs_pos_eq; unfold a0, d_k; lra. }
    assert (H5 : xdiv (Fin 0) (Fin a0) = Fin 0).
    { cbn [xdiv]. destruct (Req_dec_T a0 0); [lra|].
      apply fl_zero. unfold Rdiv. rewrite Rmult_0_l, Rabs_R0.
      left. apply tiny_pos. }
    assert (H6 : xexp (Fin (- 0)) = Fin (exp (- 0))).
    { cbn [xexp]. rewrite Ropp_0, exp_0. pose proof huge_above.
      apply fl_exact; rewrite Rabs_R1; unfold tiny; lra. }
    assert (H7 : xpow (Fin 0) 2 = Fin 0).
    { cbn [xpow]. apply fl_zero.
      replace (0 ^ 2)%R with 0%R by ring. rewrite Rabs_R0.
      left. apply tiny_pos. }
    rewrite H0, H1, H2, H3, H4, H5, H7. cbn [xneg]. rewrite H6.
    cbn [xmul]. rewrite signed_inf_pos by (unfold a0, d_k; lra).
    cbn [xmul]. apply signed_inf_pos, exp_pos. }
  split; [assumption|]. split; [assumption|]. split; [assumption|].
  intros HF. rewrite List.Forall_forall in Hall, HF.
  apply (Hall NInf); [|apply HF]; rewrite <- Hentry;
    apply nth_In; cbn; lia.
Qed.

(** C10, amended.  The kernel lines divide by [a0], [a0 ** 2] and
    [a0 ** 4] without a guard and return five arrays of length [k].  For
    [a0 <> 0] every value of [Dn] is finite.  When [a0 ** 4] rounds to zero (it is at most 2^-1075, as for
    [a0 = 0]) [-2 / a0 ** 4] is a division by zero, minus infinity, and no
    value of [Dxx], [Dyy] is finite.  For [a0] between 2^-250 and 2^250 and
    neighbours at their Euclidean distances, none above [a0 / 0.3], none of
    the three divisors is zero and every value of [Dn], [Dx], [Dy], [Dxx],
    [Dyy] is finite.  When [a0 = 0] and the distances of the [k] neighbours
    are all zero, the lines still return arrays of length [k], holding NaN
    throughout. *)
Theorem kernel_division (nsd : list point) (dist_i : vector) (a0 : R) :
  length dist_i = length nsd ->
  (length (xDn dist_i a0) = length nsd /\
   length (xDx nsd dist_i a0) = length nsd /\
   length (xDy nsd dist_i a0) = length nsd /\
   length (xDxx nsd dist_i a0) = length nsd /\
   length (xDyy nsd dist_i a0) = length nsd) /\
  (a0 <> 0%R -> Forall is_finite (xDn dist_i a0)) /\
  ((a0 ^ 4 <= tiny)%R ->
   xdiv (Fin (-2)) (xpow (Fin a0) 4) = NInf /\
   Forall (fun x => ~ is_finite x) (xDxx nsd dist_i a0) /\
   Forall (fun x => ~ is_finite x) (xDyy nsd dist_i a0)) /\
  ((/ 2 ^ 250 <= a0 <= 2 ^ 250)%R ->
   (forall j, j < length nsd ->
      nth j dist_i 0%R =
        euclidean (nsd00 nsd, nsd01 nsd) (nth j nsd (0, 0)%R) /\
      (3 / 10 * nth j dist_i 0 <= a0)%R) ->
   (a0 <> 0%R /\ xpow (Fin a0) 2 = Fin (a0 ^ 2) /\ (a0 ^ 2 <> 0)%R /\
    xpow (Fin a0) 4 = Fin (a0 ^ 4) /\ (a0 ^ 4 <> 0)%R) /\
   Forall is_finite (xDn dist_i a0) /\
   Forall is_finite (xDx nsd dist_i a0) /\
   Forall is_finite (xDy nsd dist_i a0) /\
   Forall is_finite (xDxx nsd dist_i a0) /\
   Forall is_finite (xDyy nsd dist_i a0)) /\
  (a0 = 0%R -> Forall (fun d => d = 0%R) dist_i ->
   let nans := repeat NaN (length nsd) in
   xDn dist_i a0 = nans /\
   xDx nsd dist_i a0 = nans /\
   xDy nsd dist_i a0 = nans /\
   xDxx nsd dist_i a0 = nans /\
   xDyy nsd dist_i a0 = nans).
Proof.
  intros Hlen. split; [|split; [|split; [|split]]].
  - now apply kernel_lengths.
  - apply xDn_finite.
  - intros Hu.
    destruct (xD2_underflow dist_i a0 (nsd00 nsd) (nsd_x nsd) Hu)
      as (_ & Hq & Hxx).
    destruct (xD2_underflow dist_i a0 (nsd01 nsd) (nsd_y nsd) Hu)
      as (_ & _ & Hyy).
    now repeat split.
  - intros Hr Hs. split; [|now apply kernel_in_range].
    pose proof (radius_pos a0 Hr) as Hpos.
    assert (Ha : a0 <> 0%R) by lra.
    repeat split; try assumption; try (apply pow_nonzero; assumption);
      apply xpow_radius; try assumption; lia.
  - now apply kernel_nan.
Qed.

Lemma kernel_division_witness :
  let nsd : list point := [(0, 0); (0, 0)]%R in
  let dist_i : vector := [0; 0]%R in
  length dist_i = length nsd /\
  length (xDxx nsd dist_i (3 / 10)) = 2 /\
  Forall is_finite (xDxx nsd dist_i (3 / 10)) /\
  xDn dist_i 0 = [NaN; NaN] /\
  xDxx nsd dist_i 0 = [NaN; NaN].
Proof.
  intros nsd dist_i.
  assert (Hlen : length dist_i = length nsd) by reflexivity.
  destruct (kernel_division nsd dist_i (3 / 10) Hlen)
    as ((_ & _ & _ & Hl & _) & _ & _ & Hin & _).
  destruct (kernel_division nsd dist_i 0 Hlen) as (_ & _ & _ & _ & Hzero).
  assert (Hr : (/ 2 ^ 250 <= 3 / 10 <= 2 ^ 250)%R) by (split; lra).
  assert (Hs : forall j, j < length nsd ->
            nth j dist_i 0%R =
              euclidean (nsd00 nsd, nsd01 nsd) (nth j nsd (0, 0)%R) /\
            (3 / 10 * nth j dist_i 0 <= 3 / 10)%R).
  { intros j Hj.
    assert (E : euclidean (0, 0)%R (0, 0)%R = 0%R) by apply euclidean_self.
    destruct j as [|[|j]]; [| |cbn in Hj; lia];
      cbn [nth nsd dist_i nsd00 nsd01 fst snd]; rewrite E; split;
      try reflexivity; lra. }
  assert (Hd : Forall (fun d => d = 0%R) dist_i)
    by (repeat constructor).
  destruct (Hin Hr Hs) as (_ & _ & _ & _ & Hxx & _).
  destruct (Hzero eq_refl Hd) as (Hn & _ & _ & Hxx0 & _).
  repeat split; assumption.
Defined.

(** ** Finite sums and the algebra of 2-D arrays *)

Section Sums.
Local Open Scope R_scope.

Lemma Rsum_app u v : Rsum (u ++ v) = Rsum u + Rsum v.
Proof.
  unfold Rsum.
  induction u as [|a u IH]; cbn; [ring|].
  rewrite IH. ring.
Qed.

Lemma sum_n_S n f : sum_n (S n) f = sum_n n f + f n.
Proof.
  unfold sum_n. rewrite seq_S, map_app, Rsum_app. cbn. ring.
Qed.

Lemma sum_n_ext n f g :
  (forall i, (i < n)%nat -> f i = g i) -> sum_n n f = sum_n n g.
Proof.
  intros H. unfold sum_n. f_equal.
  apply map_ext_in. intros i Hi. apply in_seq in Hi. apply H. lia.
Qed.

Lemma sum_n_zero n : sum_n n (fun _ => 0) = 0.
Proof.
  induction n as [|n IH]; [reflexivity|].
  rewrite sum_n_S, IH. ring.
Qed.

Lemma sum_n_plus n f g :
  sum_n n (fun i => f i + g i) = sum_n n f + sum_n n g.
Proof.
  induction n as [|n IH]; [cbn; ring|].
  rewrite !sum_n_S, IH. ring.
Qed.

Lemma sum_n_minus n f g :
  sum_n n (fun i => f i - g i) = sum_n n f - sum_n n g.
Proof.
  induction n as [|n IH]; [cbn; ring|].
  rewrite !sum_n_S, IH. ring.
Qed.

Lemma sum_n_opp n f : sum_n n (fun i => - f i) = - sum_n n f.
Proof.
  induction n as [|n IH]; [cbn; ring|].
  rewrite !sum_n_S, IH. ring.
Qed.

Lemma sum_n_mult_l c n f : sum_n n (fun i => c * f i) = c * sum_n n f.
Proof.
  induction n as [|n IH]; [cbn; ring|].
  rewrite !sum_n_S, IH. ring.
Qed.

Lemma sum_n_mult_r c n f : sum_n n (fun i => f i * c) = sum_n n f * c.
Proof.
  induction n as [|n IH]; [cbn; ring|].
  rewrite !sum_n_S, IH. ring.
Qed.

Lemma sum_n_swap m n (f : nat -> nat -> R) :
  sum_n m (fun i => sum_n n (f i)) = sum_n n (fun j => sum_n m (fun i => f i j)).
Proof.
  induction m as [|m IH].
  - cbn. symmetry. apply sum_n_zero.
  - rewrite sum_n_S, IH, <- sum_n_plus.
    apply sum_n_ext. intros j _. now rewrite sum_n_S.
Qed.

Lemma sum_n_delta n i (g : nat -> R) :
  (i < n)%nat -> sum_n n (fun l => if Nat.eqb i l then g l else 0) = g i.
Proof.
  induction n as [|n IH]; [lia|].
  intros Hi. rewrite sum_n_S.
  destruct (Nat.eqb_spec i n) as [->|Hne].
  - rewrite (sum_n_ext _ _ (fun _ => 0)), sum_n_zero; [ring|].
    intros l Hl. destruct (Nat.eqb_spec n l); [lia|reflexivity].
  - rewrite IH by lia. ring.
Qed.

Lemma sum_n_6 f :
  sum_n 6 f = f 0%nat + f 1%nat + f 2%nat + f 3%nat + f 4%nat + f 5%nat.
Proof. unfold sum_n. cbn. ring. Qed.

Lemma sum_n_1 f : sum_n 1 f = f 0%nat.
Proof. unfold sum_n. cbn. ring. Qed.

End Sums.

Section Shapes.
Local Open Scope R_scope.

Lemma has_shape_nrows m n M : has_shape m n M -> nrows M = m.
Proof. now intros [H _]. Qed.

Lemma has_shape_ncols m n M : has_shape m n M -> (0 < m)%nat -> ncols M = n.
Proof.
  intros [Hm Hr] Hpos. unfold ncols.
  destruct M as [|r M]; cbn in *; [lia|].
  now inversion Hr.
Qed.

Lemma has_shape_row m n M i :
  has_shape m n M -> (i < m)%nat -> length (nth i M []) = n.
Proof.
  intros [Hm Hr] Hi.
  rewrite List.Forall_forall in Hr. apply Hr, nth_In. lia.
Qed.

Lemma array_ext m n M N :
  has_shape m n M -> has_shape m n N ->
  (forall i j, (i < m)%nat -> (j < n)%nat -> item M i j = item N i j) ->
  M = N.
Proof.
  intros HM HN H.
  apply (nth_ext _ _ [] []).
  - destruct HM, HN. congruence.
  - intros i Hi. destruct HM as [Hm HrM]. rewrite Hm in Hi.
    apply (nth_ext _ _ 0 0).
    + rewrite (has_shape_row m n M), (has_shape_row m n N);
        try assumption; try reflexivity.
      now split.
    + intros j Hj.
      rewrite (has_shape_row m n M) in Hj by (try assumption; now split).
      now apply H.
Qed.

Lemma nrows_dot M N : nrows (dot M N) = nrows M.
Proof. apply nrows_fromfunction. Qed.

Lemma ncols_dot M N : (0 < nrows M)%nat -> ncols (dot M N) = ncols N.
Proof. apply ncols_fromfunction. Qed.

Lemma item_dot M N i j :
  (i < nrows M)%nat -> (j < ncols N)%nat ->
  item (dot M N) i j = sum_n (ncols M) (fun l => item M i l * item N l j).
Proof.
  intros Hi Hj. unfold dot. now rewrite item_fromfunction.
Qed.

Lemma nrows_transpose M : nrows (transpose M) = ncols M.
Proof. apply nrows_fromfunction. Qed.

Lemma ncols_transpose M : (0 < ncols M)%nat -> ncols (transpose M) = nrows M.
Proof. apply ncols_fromfunction. Qed.

Lemma item_transpose M i j :
  (i < ncols M)%nat -> (j < nrows M)%nat -> item (transpose M) i j = item M j i.
Proof.
  intros Hi Hj. unfold transpose. now rewrite item_fromfunction.
Qed.

Lemma nrows_diag v : nrows (diag v) = length v.
Proof. apply nrows_fromfunction. Qed.

Lemma ncols_diag v : (0 < length v)%nat -> ncols (diag v) = length v.
Proof. apply ncols_fromfunction. Qed.

Lemma item_diag v i j :
  (i < length v)%nat -> (j < length v)%nat ->
  item (diag v) i j = if Nat.eqb i j then nth i v 0 else 0.
Proof.
  intros Hi Hj. unfold diag. now rewrite item_fromfunction.
Qed.

Lemma nrows_add M N : nrows (add M N) = nrows M.
Proof. apply nrows_fromfunction. Qed.

Lemma ncols_add M N : (0 < nrows M)%nat -> ncols (add M N) = ncols M.
Proof. apply ncols_fromfunction. Qed.

Lemma item_add M N i j :
  (i < nrows M)%nat -> (j < ncols M)%nat ->
  item (add M N) i j = item M i j + item N i j.
Proof.
  intros Hi Hj. unfold add. now rewrite item_fromfunction.
Qed.

Lemma nrows_sub M N : nrows (sub M N) = nrows M.
Proof. apply nrows_fromfunction. Qed.

Lemma ncols_sub M N : (0 < nrows M)%nat -> ncols (sub M N) = ncols M.
Proof. apply ncols_fromfunction. Qed.

Lemma item_sub M N i j :
  (i < nrows M)%nat -> (j < ncols M)%nat ->
  item (sub M N) i j = item M i j - item N i j.
Proof.
  intros Hi Hj. unfold sub. now rewrite item_fromfunction.
Qed.

Lemma nrows_neg M : nrows (neg M) = nrows M.
Proof. apply nrows_fromfunction. Qed.

Lemma ncols_neg M : (0 < nrows M)%nat -> ncols (neg M) = ncols M.
Proof. apply ncols_fromfunction. Qed.

Lemma item_neg M i j :
  (i < nrows M)%nat -> (j < ncols M)%nat -> item (neg M) i j = - item M i j.
Proof.
  intros Hi Hj. unfold neg. now rewrite item_fromfunction.
Qed.

Lemma nrows_scale c M : nrows (scale c M) = nrows M.
Proof. apply nrows_fromfunction. Qed.

Lemma ncols_scale c M : (0 < nrows M)%nat -> ncols (scale c M) = ncols M.
Proof. apply ncols_fromfunction. Qed.

Lemma item_scale c M i j :
  (i < nrows M)%nat -> (j < ncols M)%nat ->
  item (scale c M) i j = c * item M i j.
Proof.
  intros Hi Hj. unfold scale. now rewrite item_fromfunction.
Qed.

Lemma item_eye n i j :
  (i < n)%nat -> (j < n)%nat -> item (eye n) i j = if Nat.eqb i j then 1 else 0.
Proof.
  intros Hi Hj. unfold eye. now rewrite item_fromfunction.
Qed.

Lemma has_shape_eye n : has_shape n n (eye n).
Proof. apply has_shape_fromfunction. Qed.

Lemma has_shape_dot M N : has_shape (nrows M) (ncols N) (dot M N).
Proof. apply has_shape_fromfunction. Qed.

(** a one-column array, flattened *)
Lemma ravel_column n f :
  ravel (fromfunction n 1 f) = map (fun i => f i 0%nat) (seq 0 n).
Proof.
  unfold ravel, fromfunction. cbn [seq map].
  induction (seq 0 n) as [|i l IH]; [reflexivity|].
  cbn. now rewrite IH.
Qed.

(** a row array [M], transposed and flattened *)
Lemma ravel_transpose_row M :
  nrows M = 1%nat ->
  ravel (transpose M) = map (fun j => item M 0 j) (seq 0 (ncols M)).
Proof.
  intros H. unfold transpose. rewrite H. apply ravel_column.
Qed.

End Shapes.

(** ** Shapes and entries of the per-point arrays *)

Section PerPointFacts.
Local Open Scope R_scope.

Variable nsd : list point.
Hypothesis nonempty : (0 < length nsd)%nat.

Lemma nrows_p_ : nrows (p_ nsd) = 6%nat.
Proof. reflexivity. Qed.

Lemma ncols_p_ : ncols (p_ nsd) = length nsd.
Proof. unfold ncols, p_, ones. cbn. apply repeat_length. Qed.

Lemma item_p_0 j : (j < length nsd)%nat -> item (p_ nsd) 0 j = 1.
Proof.
  intros Hj. unfold item, p_, ones. cbn [nth].
  apply nth_repeat_lt. assumption.
Qed.

Lemma item_p_1 j :
  (j < length nsd)%nat ->
  item (p_ nsd) 1 j = fst (nth j nsd (0, 0)) - nsd00 nsd.
Proof.
  intros Hj. unfold item, p_, vsubs, nsd_x. cbn [nth].
  rewrite map_map.
  now rewrite (nth_map_lt (fun q : point => fst q - nsd00 nsd) _ _ (0, 0)).
Qed.

Lemma item_p_2 j :
  (j < length nsd)%nat ->
  item (p_ nsd) 2 j = snd (nth j nsd (0, 0)) - nsd01 nsd.
Proof.
  intros Hj. unfold item, p_, vsubs, nsd_y. cbn [nth].
  rewrite map_map.
  now rewrite (nth_map_lt (fun q : point => snd q - nsd01 nsd) _ _ (0, 0)).
Qed.

Lemma item_p_3 j :
  (j < length nsd)%nat ->
  item (p_ nsd) 3 j = (fst (nth j nsd (0, 0)) - nsd00 nsd) ^ 2.
Proof.
  intros Hj. unfold item, p_, vpow, vsubs, nsd_x. cbn [nth].
  rewrite !map_map.
  now rewrite (nth_map_lt (fun q : point => (fst q - nsd00 nsd) ^ 2)
                 _ _ (0, 0)).
Qed.

Lemma item_p_4 j :
  (j < length nsd)%nat ->
  item (p_ nsd) 4 j =
  (fst (nth j nsd (0, 0)) - nsd00 nsd) * (snd (nth j nsd (0, 0)) - nsd01 nsd).
Proof.
  intros Hj. unfold item, p_, vmul, vsubs, nsd_x, nsd_y. cbn [nth].
  rewrite !map_map.
  rewrite (nth_zip_with _ _ _ _ 0 0) by now rewrite length_map.
  rewrite (nth_map_lt (fun q : point => fst q - nsd00 nsd) _ _ (0, 0)),
          (nth_map_lt (fun q : point => snd q - nsd01 nsd) _ _ (0, 0))
    by assumption.
  reflexivity.
Qed.

Lemma item_p_5 j :
  (j < length nsd)%nat ->
  item (p_ nsd) 5 j = (snd (nth j nsd (0, 0)) - nsd01 nsd) ^ 2.
Proof.
  intros Hj. unfold item, p_, vpow, vsubs, nsd_y. cbn [nth].
  rewrite !map_map.
  now rewrite (nth_map_lt (fun q : point => (snd q - nsd01 nsd) ^ 2)
                 _ _ (0, 0)).
Qed.

(** the weighted basis [np.diag(D).dot(p_.T)] and the moment matrix
    [p_.dot(np.diag(D).dot(p_.T))] for a weight array [D] of length [k] *)

Variable D : vector.
Hypothesis length_D : length D = length nsd.

Lemma nrows_weighted : nrows (dot (diag D) (transpose (p_ nsd))) = length nsd.
Proof. now rewrite nrows_dot, nrows_diag. Qed.

Lemma ncols_weighted : ncols (dot (diag D) (transpose (p_ nsd))) = 6%nat.
Proof.
  rewrite ncols_dot by (rewrite nrows_diag; lia).
  rewrite ncols_transpose by (rewrite ncols_p_; lia).
  reflexivity.
Qed.

Lemma item_weighted j a :
  (j < length nsd)%nat -> (a < 6)%nat ->
  item (dot (diag D) (transpose (p_ nsd))) j a = nth j D 0 * item (p_ nsd) a j.
Proof.
  intros Hj Ha.
  rewrite item_dot.
  2: { rewrite nrows_diag. lia. }
  2: { rewrite ncols_transpose by (rewrite ncols_p_; lia). exact Ha. }
  rewrite ncols_diag by lia. rewrite length_D.
  rewrite (sum_n_ext _ _
             (fun l => if Nat.eqb j l
                       then nth j D 0 * item (p_ nsd) a l else 0)).
  - now rewrite sum_n_delta.
  - intros l Hl.
    rewrite item_diag by lia.
    rewrite item_transpose by (rewrite ?ncols_p_; assumption).
    destruct (Nat.eqb j l); ring.
Qed.

Lemma nrows_moment :
  nrows (dot (p_ nsd) (dot (diag D) (transpose (p_ nsd)))) = 6%nat.
Proof. now rewrite nrows_dot. Qed.

Lemma ncols_moment :
  ncols (dot (p_ nsd) (dot (diag D) (transpose (p_ nsd)))) = 6%nat.
Proof.
  rewrite ncols_dot by (rewrite nrows_p_; lia).
  apply ncols_weighted.
Qed.

Lemma item_moment a b :
  (a < 6)%nat -> (b < 6)%nat ->
  item (dot (p_ nsd) (dot (diag D) (transpose (p_ nsd)))) a b =
  sum_n (length nsd)
    (fun j => item (p_ nsd) a j * (nth j D 0 * item (p_ nsd) b j)).
Proof.
  intros Ha Hb.
  rewrite item_dot by (rewrite ?ncols_weighted; assumption).
  rewrite ncols_p_.
  apply sum_n_ext. intros j Hj.
  now rewrite item_weighted.
Qed.

Lemma has_shape_moment :
  has_shape 6 6 (dot (p_ nsd) (dot (diag D) (transpose (p_ nsd)))).
Proof.
  pose proof (has_shape_dot (p_ nsd) (dot (diag D) (transpose (p_ nsd)))) as H.
  now rewrite ncols_weighted in H.
Qed.

End PerPointFacts.

Section KernelLengths.

Variable nsd : list point.
Variable dist_i : vector.
Variable a0 : R.
Hypothesis same_length : length dist_i = length nsd.

Lemma length_Dn' : length (Dn dist_i a0) = length nsd.
Proof. now rewrite length_Dn. Qed.

Lemma length_Dx : length (Dx nsd dist_i a0) = length nsd.
Proof.
  unfold Dx, vmul, smul, ssub, nsd_x.
  rewrite length_zip_with, !length_map, length_Dn'. apply Nat.min_id.
Qed.

Lemma length_Dy : length (Dy nsd dist_i a0) = length nsd.
Proof.
  unfold Dy, vmul, smul, ssub, nsd_y.
  rewrite length_zip_with, !length_map, length_Dn'. apply Nat.min_id.
Qed.

Lemma length_Dxx : length (Dxx nsd dist_i a0) = length nsd.
Proof.
  unfold Dxx, vmul, smul, ssub, vpow, nsd_x.
  rewrite length_zip_with, !length_map, length_Dn'. apply Nat.min_id.
Qed.

Lemma length_Dyy : length (Dyy nsd dist_i a0) = length nsd.
Proof.
  unfold Dyy, vmul, smul, ssub, vpow, nsd_y.
  rewrite length_zip_with, !length_map, length_Dn'. apply Nat.min_id.
Qed.

End KernelLengths.

(** ** Products of arrays *)

Section Products.
Local Open Scope R_scope.

Lemma dot_assoc M N P :
  ncols M = nrows N -> ncols N = nrows P ->
  (0 < nrows M)%nat -> (0 < nrows N)%nat ->
  dot (dot M N) P = dot M (dot N P).
Proof.
  intros HMN HNP HM HN.
  apply (array_ext (nrows M) (ncols P)).
  - pose proof (has_shape_dot (dot M N) P) as H.
    now rewrite nrows_dot in H.
  - pose proof (has_shape_dot M (dot N P)) as H.
    now rewrite ncols_dot in H.
  - intros i j Hi Hj.
    rewrite item_dot by (rewrite ?nrows_dot; assumption).
    rewrite ncols_dot by assumption.
    rewrite (item_dot M) by (rewrite ?ncols_dot; assumption).
    rewrite (sum_n_ext _ _
      (fun l => sum_n (ncols M)
                  (fun c => item M i c * item N c l * item P l j))).
    2: { intros l Hl. rewrite item_dot by assumption.
         now rewrite <- sum_n_mult_r. }
    rewrite sum_n_swap.
    apply sum_n_ext. intros c Hc.
    rewrite item_dot by (rewrite <- ?HMN; assumption).
    rewrite <- sum_n_mult_l.
    apply sum_n_ext. intros l _. ring.
Qed.

Lemma dot_eye_l n p M :
  has_shape n p M -> (0 < n)%nat -> dot (eye n) M = M.
Proof.
  intros HM Hn.
  apply (array_ext n p); [|assumption|].
  - pose proof (has_shape_dot (eye n) M) as H.
    rewrite (has_shape_ncols _ _ _ HM Hn) in H.
    unfold eye in H at 1. now rewrite nrows_fromfunction in H.
  - intros i j Hi Hj.
    rewrite item_dot.
    2: { unfold eye. now rewrite nrows_fromfunction. }
    2: { now rewrite (has_shape_ncols _ _ _ HM Hn). }
    unfold eye at 1. rewrite ncols_fromfunction by assumption.
    rewrite (sum_n_ext _ _
               (fun l => if Nat.eqb i l then item M l j else 0)).
    + now rewrite sum_n_delta.
    + intros l Hl. rewrite item_eye by assumption.
      destruct (Nat.eqb i l); ring.
Qed.

Lemma dot_eye_r n p M :
  has_shape p n M -> (0 < n)%nat -> (0 < p)%nat -> dot M (eye n) = M.
Proof.
  intros HM Hn Hp.
  assert (Hc : ncols (eye n) = n)
    by (unfold eye; now apply ncols_fromfunction).
  apply (array_ext p n); [|assumption|].
  - pose proof (has_shape_dot M (eye n)) as H.
    now rewrite Hc, (has_shape_nrows _ _ _ HM) in H.
  - intros i j Hi Hj.
    rewrite item_dot by (rewrite ?Hc, ?(has_shape_nrows _ _ _ HM); assumption).
    rewrite (has_shape_ncols _ _ _ HM Hp).
    rewrite (sum_n_ext _ _
               (fun l => if Nat.eqb j l then item M i l else 0)).
    + now rewrite sum_n_delta.
    + intros l Hl. rewrite item_eye by assumption.
      rewrite Nat.eqb_sym.
      destruct (Nat.eqb j l); ring.
Qed.

Lemma transpose_eye n : (0 < n)%nat -> transpose (eye n) = eye n.
Proof.
  intros Hn. unfold transpose.
  assert (Hc : ncols (eye n) = n)
    by (unfold eye; now apply ncols_fromfunction).
  assert (Hr : nrows (eye n) = n)
    by (unfold eye; now apply nrows_fromfunction).
  rewrite Hc, Hr. unfold eye at 2.
  apply fromfunction_ext. intros i j Hi Hj.
  rewrite item_eye by assumption.
  now rewrite Nat.eqb_sym.
Qed.

(** an entry of [X.dot(N.T)] *)
Lemma item_dot_transpose X N i j :
  (i < nrows X)%nat -> (j < nrows N)%nat -> ncols X = ncols N ->
  (0 < ncols N)%nat ->
  item (dot X (transpose N)) i j =
  sum_n (ncols N) (fun a => item X i a * item N j a).
Proof.
  intros Hi Hj Hc Hpos.
  rewrite item_dot by (rewrite ?ncols_transpose; assumption).
  rewrite Hc. apply sum_n_ext. intros a Ha.
  now rewrite item_transpose.
Qed.

End Products.

(** An inverse is a pseudo-inverse, and the pseudo-inverse of an invertible
    array is its inverse. *)

Section PseudoInverse.
Local Open Scope R_scope.

Variable n : nat.
Hypothesis n_pos : (0 < n)%nat.
Variable M : matrix.
Hypothesis shape_M : has_shape n n M.

Lemma nrows_M : nrows M = n.
Proof. exact (has_shape_nrows _ _ _ shape_M). Qed.

Lemma ncols_M : ncols M = n.
Proof. exact (has_shape_ncols _ _ _ shape_M n_pos). Qed.

Lemma inverse_Moore_Penrose X :
  has_shape n n X -> dot X M = eye n -> dot M X = eye n ->
  Moore_Penrose M X.
Proof.
  intros HX HXM HMX. unfold Moore_Penrose.
  rewrite nrows_M, ncols_M, HMX, HXM.
  repeat split; try (apply HX).
  - now apply (dot_eye_l n n).
  - now apply (dot_eye_l n n).
  - now apply transpose_eye.
  - now apply transpose_eye.
Qed.

Lemma pinv_left_inverse X :
  Moore_Penrose M X -> invertible n M -> dot X M = eye n.
Proof.
  intros (HX & H1 & _) (Y & HY & HYM & HMY).
  rewrite nrows_M, ncols_M in HX.
  pose proof (has_shape_nrows _ _ _ HX) as HXr.
  pose proof (has_shape_ncols _ _ _ HX n_pos) as HXc.
  pose proof (has_shape_nrows _ _ _ HY) as HYr.
  pose proof (has_shape_ncols _ _ _ HY n_pos) as HYc.
  pose proof nrows_M as HMr. pose proof ncols_M as HMc.
  assert (E : dot Y (dot (dot M X) M) = eye n) by now rewrite H1.
  rewrite <- dot_assoc in E
    by (rewrite ?nrows_dot, ?ncols_dot; lia).
  rewrite <- (dot_assoc Y M X) in E by lia.
  rewrite HYM in E.
  now rewrite (dot_eye_l n n X) in E.
Qed.

End PseudoInverse.

(** ** The rows of shape-function coefficients *)

Lemma nrows_w_ : nrows w_ = 1. Proof. reflexivity. Qed.
Lemma ncols_w_ : ncols w_ = 6. Proof. reflexivity. Qed.
Lemma nrows_pdx_ : nrows pdx_ = 1. Proof. reflexivity. Qed.
Lemma ncols_pdx_ : ncols pdx_ = 6. Proof. reflexivity. Qed.
Lemma nrows_pdxx_ : nrows pdxx_ = 1. Proof. reflexivity. Qed.
Lemma ncols_pdxx_ : ncols pdxx_ = 6. Proof. reflexivity. Qed.
Lemma nrows_pdy_ : nrows pdy_ = 1. Proof. reflexivity. Qed.
Lemma ncols_pdy_ : ncols pdy_ = 6. Proof. reflexivity. Qed.
Lemma nrows_pdyy_ : nrows pdyy_ = 1. Proof. reflexivity. Qed.
Lemma ncols_pdyy_ : ncols pdyy_ = 6. Proof. reflexivity. Qed.

(** [s^T . M] is the selected combination of the rows of [M] *)
Lemma item_selector (s M : matrix) a :
  nrows s = 6 -> ncols s = 1 -> (a < ncols M)%nat ->
  item (dot (transpose s) M) 0 a = select s M a.
Proof.
  intros Hr Hc Ha.
  rewrite item_dot by (rewrite ?nrows_transpose, ?Hc; lia).
  rewrite ncols_transpose, Hr by (rewrite Hc; lia).
  unfold select, md. apply sum_n_ext. intros c Hc'.
  now rewrite item_transpose by (rewrite ?Hr, ?Hc; lia).
Qed.

Create Rewrite HintDb mls_dims.

Ltac dims :=
  repeat first
    [ rewrite nrows_dot | rewrite nrows_add | rewrite nrows_sub
    | rewrite nrows_neg | rewrite nrows_scale | rewrite nrows_transpose
    | rewrite nrows_w_ | rewrite nrows_pdx_ | rewrite nrows_pdxx_
    | rewrite nrows_pdy_ | rewrite nrows_pdyy_
    | rewrite ncols_w_ | rewrite ncols_pdx_ | rewrite ncols_pdxx_
    | rewrite ncols_pdy_ | rewrite ncols_pdyy_
    | rewrite ncols_dot by (dims; lia)
    | rewrite ncols_add by (dims; lia)
    | rewrite ncols_sub by (dims; lia)
    | rewrite ncols_neg by (dims; lia)
    | rewrite ncols_scale by (dims; lia)
    | rewrite ncols_transpose by (dims; lia)
    | rewrite nrows_p_
    | rewrite ncols_p_
    | rewrite nrows_diag
    | progress autorewrite with mls_dims ].

Section Rows.
Local Open Scope R_scope.

Variable pinv : matrix -> matrix.
Variable nsd : list point.
Variable dist_i : vector.
Variable a0 : R.

Hypothesis nonempty : (0 < length nsd)%nat.
Hypothesis same_length : length dist_i = length nsd.
Hypothesis shape_pinv : has_shape 6 6 (pinv (A nsd dist_i a0)).

#[local] Abbreviation k := (length nsd).
#[local] Abbreviation IA' := (IA pinv nsd dist_i a0).
#[local] Abbreviation IAx' := (IAx pinv nsd dist_i a0).
#[local] Abbreviation IAxx' := (IAxx pinv nsd dist_i a0).
#[local] Abbreviation IAy' := (IAy pinv nsd dist_i a0).
#[local] Abbreviation IAyy' := (IAyy pinv nsd dist_i a0).

Lemma nrows_IA : nrows IA' = 6%nat.
Proof. exact (has_shape_nrows _ _ _ shape_pinv). Qed.

Lemma ncols_IA : ncols IA' = 6%nat.
Proof. apply (has_shape_ncols 6 6); [exact shape_pinv|lia]. Qed.

Lemma nrows_A : nrows (A nsd dist_i a0) = 6%nat.
Proof. reflexivity. Qed.
Lemma ncols_A : ncols (A nsd dist_i a0) = 6%nat.
Proof. apply ncols_moment; [assumption|now apply length_Dn']. Qed.
Lemma nrows_Ax : nrows (Ax nsd dist_i a0) = 6%nat.
Proof. reflexivity. Qed.
Lemma ncols_Ax : ncols (Ax nsd dist_i a0) = 6%nat.
Proof. apply ncols_moment; [assumption|now apply length_Dx]. Qed.
Lemma nrows_Axx : nrows (Axx nsd dist_i a0) = 6%nat.
Proof. reflexivity. Qed.
Lemma ncols_Axx : ncols (Axx nsd dist_i a0) = 6%nat.
Proof. apply ncols_moment; [assumption|now apply length_Dxx]. Qed.
Lemma nrows_Ay : nrows (Ay nsd dist_i a0) = 6%nat.
Proof. reflexivity. Qed.
Lemma ncols_Ay : ncols (Ay nsd dist_i a0) = 6%nat.
Proof. apply ncols_moment; [assumption|now apply length_Dy]. Qed.
Lemma nrows_Ayy : nrows (Ayy nsd dist_i a0) = 6%nat.
Proof. reflexivity. Qed.
Lemma ncols_Ayy : ncols (Ayy nsd dist_i a0) = 6%nat.
Proof. apply ncols_moment; [assumption|now apply length_Dyy]. Qed.

Lemma nrows_B : nrows (B nsd dist_i a0) = k.
Proof. apply nrows_weighted. now apply length_Dn'. Qed.
Lemma ncols_B : ncols (B nsd dist_i a0) = 6%nat.
Proof. apply ncols_weighted; [assumption|now apply length_Dn']. Qed.
Lemma nrows_Bx : nrows (Bx nsd dist_i a0) = k.
Proof. apply nrows_weighted. now apply length_Dx. Qed.
Lemma ncols_Bx : ncols (Bx nsd dist_i a0) = 6%nat.
Proof. apply ncols_weighted; [assumption|now apply length_Dx]. Qed.
Lemma nrows_Bxx : nrows (Bxx nsd dist_i a0) = k.
Proof. apply nrows_weighted. now apply length_Dxx. Qed.
Lemma ncols_Bxx : ncols (Bxx nsd dist_i a0) = 6%nat.
Proof. apply ncols_weighted; [assumption|now apply length_Dxx]. Qed.
Lemma nrows_By : nrows (By nsd dist_i a0) = k.
Proof. apply nrows_weighted. now apply length_Dy. Qed.
Lemma ncols_By : ncols (By nsd dist_i a0) = 6%nat.
Proof. apply ncols_weighted; [assumption|now apply length_Dy]. Qed.
Lemma nrows_Byy : nrows (Byy nsd dist_i a0) = k.
Proof. apply nrows_weighted. now apply length_Dyy. Qed.
Lemma ncols_Byy : ncols (Byy nsd dist_i a0) = 6%nat.
Proof. apply ncols_weighted; [assumption|now apply length_Dyy]. Qed.

#[local] Hint Rewrite nrows_IA ncols_IA nrows_A ncols_A nrows_Ax ncols_Ax
  nrows_Axx ncols_Axx nrows_Ay ncols_Ay nrows_Ayy ncols_Ayy
  nrows_B ncols_B nrows_Bx ncols_Bx nrows_Bxx ncols_Bxx
  nrows_By ncols_By nrows_Byy ncols_Byy : mls_dims.

Lemma nrows_IAx : nrows IAx' = 6%nat.
Proof. unfold IAx. now dims. Qed.
Lemma ncols_IAx : ncols IAx' = 6%nat.
Proof. unfold IAx. now dims. Qed.
Lemma nrows_IAy : nrows IAy' = 6%nat.
Proof. unfold IAy. now dims. Qed.
Lemma ncols_IAy : ncols IAy' = 6%nat.
Proof. unfold IAy. now dims. Qed.

#[local] Hint Rewrite nrows_IAx ncols_IAx nrows_IAy ncols_IAy : mls_dims.

Lemma nrows_IAxx : nrows IAxx' = 6%nat.
Proof. unfold IAxx. now dims. Qed.
Lemma ncols_IAxx : ncols IAxx' = 6%nat.
Proof. unfold IAxx. now dims. Qed.
Lemma nrows_IAyy : nrows IAyy' = 6%nat.
Proof. unfold IAyy. now dims. Qed.
Lemma ncols_IAyy : ncols IAyy' = 6%nat.
Proof. unfold IAyy. now dims. Qed.

#[local] Hint Rewrite nrows_IAxx ncols_IAxx nrows_IAyy ncols_IAyy : mls_dims.

Lemma item_dot3 X Y Z a b :
  nrows X = 6%nat -> ncols X = 6%nat -> ncols Y = 6%nat -> ncols Z = 6%nat ->
  (a < 6)%nat -> (b < 6)%nat ->
  item (dot (dot X Y) Z) a b = triple X Y Z a b.
Proof.
  intros HXr HXc HYc HZc Ha Hb.
  rewrite item_dot by (rewrite ?nrows_dot; lia).
  rewrite ncols_dot, HYc by lia.
  unfold triple, md. rewrite sum_n_swap.
  apply sum_n_ext. intros d Hd.
  rewrite item_dot, HXc by lia.
  now rewrite sum_n_mult_r.
Qed.

Lemma IAx_entries a b :
  (a < 6)%nat -> (b < 6)%nat ->
  item IAx' a b = inverse_d1 IA' (Ax nsd dist_i a0) a b.
Proof.
  intros Ha Hb. unfold IAx.
  rewrite item_neg by (dims; lia).
  rewrite item_dot3 by (dims; lia).
  reflexivity.
Qed.

Lemma IAy_entries a b :
  (a < 6)%nat -> (b < 6)%nat ->
  item IAy' a b = inverse_d1 IA' (Ay nsd dist_i a0) a b.
Proof.
  intros Ha Hb. unfold IAy.
  rewrite item_neg by (dims; lia).
  rewrite item_dot3 by (dims; lia).
  reflexivity.
Qed.

Lemma IAxx_entries a b :
  (a < 6)%nat -> (b < 6)%nat ->
  item IAxx' a b =
  inverse_d2 IA' IAx' (Ax nsd dist_i a0) (Axx nsd dist_i a0) a b.
Proof.
  intros Ha Hb. unfold IAxx.
  rewrite !item_sub by (dims; lia).
  rewrite item_neg by (dims; lia).
  rewrite !item_dot3 by (dims; lia).
  reflexivity.
Qed.

Lemma IAyy_entries a b :
  (a < 6)%nat -> (b < 6)%nat ->
  item IAyy' a b =
  inverse_d2 IA' IAy' (Ay nsd dist_i a0) (Ayy nsd dist_i a0) a b.
Proof.
  intros Ha Hb. unfold IAyy.
  rewrite !item_sub by (dims; lia).
  rewrite item_neg by (dims; lia).
  rewrite !item_dot3 by (dims; lia).
  reflexivity.
Qed.

Lemma item_w_ M a : (a < ncols M)%nat -> item (dot w_ M) 0 a = select w M a.
Proof. now apply item_selector. Qed.

Lemma item_pdx_ M a :
  (a < ncols M)%nat -> item (dot pdx_ M) 0 a = select pdx M a.
Proof. now apply item_selector. Qed.

Lemma item_pdxx_ M a :
  (a < ncols M)%nat -> item (dot pdxx_ M) 0 a = select pdxx M a.
Proof. now apply item_selector. Qed.

Lemma item_pdy_ M a :
  (a < ncols M)%nat -> item (dot pdy_ M) 0 a = select pdy M a.
Proof. now apply item_selector. Qed.

Lemma item_pdyy_ M a :
  (a < ncols M)%nat -> item (dot pdyy_ M) 0 a = select pdyy M a.
Proof. now apply item_selector. Qed.

Lemma sf_row_entries :
  sf_row pinv nsd dist_i a0 = map (phi IA' (B nsd dist_i a0)) (seq 0 k).
Proof.
  unfold sf_row.
  rewrite ravel_transpose_row by (now dims).
  dims.
  apply map_ext_in. intros j Hj. apply in_seq in Hj.
  rewrite item_dot_transpose by (dims; lia).
  dims. unfold phi, md.
  apply sum_n_ext. intros a Ha.
  now rewrite item_w_ by (dims; lia).
Qed.

Lemma sfxx_row_entries :
  sfxx_row pinv nsd dist_i a0 =
  map (phi_d2 pdxx pdx IA' IAx' IAxx'
         (B nsd dist_i a0) (Bx nsd dist_i a0) (Bxx nsd dist_i a0))
      (seq 0 k).
Proof.
  unfold sfxx_row.
  rewrite ravel_transpose_row by (now dims).
  dims.
  apply map_ext_in. intros j Hj. apply in_seq in Hj.
  rewrite !item_add by (dims; lia).
  rewrite !item_dot_transpose by (dims; lia).
  dims. unfold phi_d2, md.
  f_equal; [f_equal|]; apply sum_n_ext; intros a Ha;
    rewrite ?item_add, ?item_scale by (dims; lia);
    rewrite ?item_w_, ?item_pdx_, ?item_pdxx_ by (dims; lia);
    reflexivity.
Qed.

Lemma sfyy_row_entries :
  sfyy_row pinv nsd dist_i a0 =
  map (phi_d2 pdyy pdy IA' IAy' IAyy'
         (B nsd dist_i a0) (By nsd dist_i a0) (Byy nsd dist_i a0))
      (seq 0 k).
Proof.
  unfold sfyy_row.
  rewrite ravel_transpose_row by (now dims).
  dims.
  apply map_ext_in. intros j Hj. apply in_seq in Hj.
  rewrite !item_add by (dims; lia).
  rewrite !item_dot_transpose by (dims; lia).
  dims. unfold phi_d2, md.
  f_equal; [f_equal|]; apply sum_n_ext; intros a Ha;
    rewrite ?item_add, ?item_scale by (dims; lia);
    rewrite ?item_w_, ?item_pdy_, ?item_pdyy_ by (dims; lia);
    reflexivity.
Qed.

Lemma select_w M a : select w M a = item M 0 a.
Proof.
  unfold select, md. rewrite sum_n_6.
  unfold item at 1 3 5 7 9 11. cbn [w nth]. ring.
Qed.

(** the entries of the row [sf_row] add up to the corner entry of
    [IA . A] *)
Lemma sum_sf_row :
  Rsum (sf_row pinv nsd dist_i a0) = item (dot IA' (A nsd dist_i a0)) 0 0.
Proof.
  rewrite sf_row_entries.
  change (Rsum (map ?f (seq 0 ?n))) with (sum_n n f).
  rewrite item_dot by (dims; lia).
  dims.
  rewrite (sum_n_ext _ _
    (fun j => sum_n 6
       (fun a => item IA' 0 a *
                 (item (p_ nsd) a j * (nth j (Dn dist_i a0) 0 * 1))))).
  2: { intros j Hj. unfold phi, md. apply sum_n_ext. intros a Ha.
       rewrite select_w. unfold B.
       rewrite item_weighted by (try assumption; now apply length_Dn').
       ring. }
  rewrite sum_n_swap.
  apply sum_n_ext. intros a Ha.
  rewrite sum_n_mult_l. f_equal.
  unfold A. rewrite item_moment by (try assumption; try lia; now apply length_Dn').
  apply sum_n_ext. intros j Hj.
  now rewrite item_p_0.
Qed.

End Rows.

Section RowClaims.
Local Open Scope R_scope.

Variable pinv : matrix -> matrix.
Variable nsd : list point.
Variable dist_i : vector.
Variable a0 : R.

(** C1.  Partition of unity: when the moment matrix [A] of a point is
    invertible (and [pinv] returns its Moore-Penrose pseudo-inverse), the
    entries of the shape-function row [w^T . IA . B^T] of that point add up
    to one. *)
Theorem partition_of_unity :
  (0 < length nsd)%nat ->
  length dist_i = length nsd ->
  Moore_Penrose (A nsd dist_i a0) (pinv (A nsd dist_i a0)) ->
  invertible 6 (A nsd dist_i a0) ->
  Rsum (sf_row pinv nsd dist_i a0) = 1.
Proof.
  intros Hk Hlen HMP Hinv.
  assert (HA : has_shape 6 6 (A nsd dist_i a0))
    by (apply has_shape_moment; [assumption|now apply length_Dn']).
  assert (HIA : has_shape 6 6 (pinv (A nsd dist_i a0))).
  { destruct HMP as [H _].
    now rewrite (has_shape_nrows _ _ _ HA),
                (has_shape_ncols 6 6 _ HA) in H by lia. }
  rewrite sum_sf_row by assumption.
  unfold IA.
  rewrite (pinv_left_inverse 6) by (try assumption; lia).
  now rewrite item_eye by lia.
Qed.

(** C2.  The derivatives of the inverse moment matrix are the entries of
    [IAx = - IA . Ax . IA] and
    [IAxx = - IAx . Ax . IA - IA . Axx . IA - IA . Ax . IAx], and likewise
    [IAy], [IAyy] with [Ay], [Ayy], where [IA] is [pinv(A)]. *)
Theorem inverse_derivatives (a b : nat) :
  (0 < length nsd)%nat ->
  length dist_i = length nsd ->
  has_shape 6 6 (pinv (A nsd dist_i a0)) ->
  (a < 6)%nat -> (b < 6)%nat ->
  let IA := IA pinv nsd dist_i a0 in
  let IAx := IAx pinv nsd dist_i a0 in
  let IAy := IAy pinv nsd dist_i a0 in
  IA = pinv (A nsd dist_i a0) /\
  item IAx a b = - triple IA (Ax nsd dist_i a0) IA a b /\
  item (IAxx pinv nsd dist_i a0) a b =
    - triple IAx (Ax nsd dist_i a0) IA a b
    - triple IA (Axx nsd dist_i a0) IA a b
    - triple IA (Ax nsd dist_i a0) IAx a b /\
  item IAy a b = - triple IA (Ay nsd dist_i a0) IA a b /\
  item (IAyy pinv nsd dist_i a0) a b =
    - triple IAy (Ay nsd dist_i a0) IA a b
    - triple IA (Ayy nsd dist_i a0) IA a b
    - triple IA (Ay nsd dist_i a0) IAy a b.
Proof.
  intros Hk Hlen Hshape Ha Hb. cbn zeta.
  split; [reflexivity|].
  rewrite IAx_entries, IAxx_entries, IAy_entries, IAyy_entries
    by assumption.
  repeat split; reflexivity.
Qed.

(** C3.  The xx-derivative row is the literal expansion
    [(pdxx^T.IA + 2 pdx^T.IAx + w^T.IAxx).B^T
     + (w^T.IAx + 2 pdx^T.IA + w^T.IAx).Bx^T + w^T.IA.Bxx^T],
    with [w^T.IAx] twice in the coefficient of [Bx^T]; the yy-derivative row
    is the same expansion with [pdyy], [pdy], [IAy], [IAyy], [By], [Byy]. *)
Theorem second_derivative_rows :
  (0 < length nsd)%nat ->
  length dist_i = length nsd ->
  has_shape 6 6 (pinv (A nsd dist_i a0)) ->
  sfxx_row pinv nsd dist_i a0 =
    map (fun j =>
           sum_n 6 (fun c =>
               (select pdxx (IA pinv nsd dist_i a0) c
                + 2 * select pdx (IAx pinv nsd dist_i a0) c
                + select w (IAxx pinv nsd dist_i a0) c)
               * item (B nsd dist_i a0) j c)
           + sum_n 6 (fun c =>
               (select w (IAx pinv nsd dist_i a0) c
                + 2 * select pdx (IA pinv nsd dist_i a0) c
                + select w (IAx pinv nsd dist_i a0) c)
               * item (Bx nsd dist_i a0) j c)
           + sum_n 6 (fun c =>
               select w (IA pinv nsd dist_i a0) c
               * item (Bxx nsd dist_i a0) j c))
        (seq 0 (length nsd)) /\
  sfyy_row pinv nsd dist_i a0 =
    map (fun j =>
           sum_n 6 (fun c =>
               (select pdyy (IA pinv nsd dist_i a0) c
                + 2 * select pdy (IAy pinv nsd dist_i a0) c
                + select w (IAyy pinv nsd dist_i a0) c)
               * item (B nsd dist_i a0) j c)
           + sum_n 6 (fun c =>
               (select w (IAy pinv nsd dist_i a0) c
                + 2 * select pdy (IA pinv nsd dist_i a0) c
                + select w (IAy pinv nsd dist_i a0) c)
               * item (By nsd dist_i a0) j c)
           + sum_n 6 (fun c =>
               select w (IA pinv nsd dist_i a0) c
               * item (Byy nsd dist_i a0) j c))
        (seq 0 (length nsd)).
Proof.
  intros Hk Hlen Hshape.
  rewrite sfxx_row_entries, sfyy_row_entries by assumption.
  split; reflexivity.
Qed.

(** In exact arithmetic the literal expansion of C3 is the product rule
    applied twice: the coefficient of [Bx^T] is [2 (pdx^T.IA + w^T.IAx)]. *)
Lemma phi_d2_product_rule p2 p1 IA dIA d2IA B dB d2B j :
  phi_d2 p2 p1 IA dIA d2IA B dB d2B j =
  product_rule_d2 p2 p1 IA dIA d2IA B dB d2B j.
Proof.
  unfold phi_d2, product_rule_d2.
  rewrite <- sum_n_mult_l.
  f_equal. f_equal.
  apply sum_n_ext. intros c _. ring.
Qed.

End RowClaims.

(** ** The sample neighbourhood: its moment matrix is invertible *)

Section SampleFacts.
Local Open Scope R_scope.

Lemma sample_nonempty : (0 < length sample_nsd)%nat.
Proof. cbn. lia. Qed.

Lemma sample_lengths : length sample_dist = length sample_nsd.
Proof. reflexivity. Qed.

Lemma sample_shape_A : has_shape 6 6 (A sample_nsd sample_dist sample_a0).
Proof.
  apply has_shape_moment; [exact sample_nonempty|].
  apply length_Dn', sample_lengths.
Qed.

Lemma sample_shape_inverse : has_shape 6 6 sample_inverse.
Proof. apply has_shape_fromfunction. Qed.

Ltac sample_entry :=
  cbv [sum_n Rsum map seq fold_right foldr item nth lagrange sample_weight
       p_ sample_nsd sample_dist length repeat app ones vsubs vpow vmul
       nsd_x nsd_y nsd00 nsd01 fst snd zip_with Dn vexp vneg vdivs
       Nat.mul Nat.add Nat.eqb];
  set (t0 := exp _); set (t1 := exp _); set (t2 := exp _);
  assert (t0 <> 0) by (apply Rgt_not_eq, exp_pos);
  assert (t1 <> 0) by (apply Rgt_not_eq, exp_pos);
  assert (t2 <> 0) by (apply Rgt_not_eq, exp_pos);
  clearbody t0 t1 t2;
  field; repeat split; assumption.

Lemma sample_left_inverse :
  dot sample_inverse (A sample_nsd sample_dist sample_a0) = eye 6.
Proof.
  pose proof sample_nonempty as Hk.
  assert (Hl : length (Dn sample_dist sample_a0) = length sample_nsd)
    by reflexivity.
  apply (array_ext 6 6).
  - pose proof (has_shape_dot sample_inverse
                  (A sample_nsd sample_dist sample_a0)) as H.
    now rewrite (has_shape_ncols 6 6 _ sample_shape_A) in H by lia.
  - apply has_shape_eye.
  - intros i j Hi Hj.
    rewrite item_dot
      by (rewrite ?(has_shape_ncols 6 6 _ sample_shape_A); cbn; lia).
    change (ncols sample_inverse) with 6%nat.
    rewrite sum_n_6.
    unfold A. rewrite !item_moment by (try assumption; lia).
    rewrite item_eye by assumption.
    unfold sample_inverse. rewrite !item_fromfunction by lia.
    destruct i as [|[|[|[|[|[|i]]]]]]; try lia;
      destruct j as [|[|[|[|[|[|j]]]]]]; try lia;
      sample_entry.
Qed.

Lemma sample_right_inverse :
  dot (A sample_nsd sample_dist sample_a0) sample_inverse = eye 6.
Proof.
  pose proof sample_nonempty as Hk.
  assert (Hl : length (Dn sample_dist sample_a0) = length sample_nsd)
    by reflexivity.
  apply (array_ext 6 6).
  - apply (has_shape_dot (A sample_nsd sample_dist sample_a0) sample_inverse).
  - apply has_shape_eye.
  - intros i j Hi Hj.
    rewrite item_dot by (cbn; lia).
    rewrite (has_shape_ncols 6 6 _ sample_shape_A) by lia.
    rewrite sum_n_6.
    unfold A. rewrite !item_moment by (try assumption; lia).
    rewrite item_eye by assumption.
    unfold sample_inverse. rewrite !item_fromfunction by lia.
    destruct i as [|[|[|[|[|[|i]]]]]]; try lia;
      destruct j as [|[|[|[|[|[|j]]]]]]; try lia;
      sample_entry.
Qed.

Lemma sample_invertible : invertible 6 (A sample_nsd sample_dist sample_a0).
Proof.
  exists sample_inverse.
  split; [exact sample_shape_inverse|].
  split; [exact sample_left_inverse|exact sample_right_inverse].
Qed.

Lemma sample_Moore_Penrose :
  Moore_Penrose (A sample_nsd sample_dist sample_a0) sample_inverse.
Proof.
  apply (inverse_Moore_Penrose 6).
  - lia.
  - exact sample_shape_A.
  - exact sample_shape_inverse.
  - exact sample_left_inverse.
  - exact sample_right_inverse.
Qed.

End SampleFacts.

Lemma partition_of_unity_witness :
  Rsum (sf_row (fun _ => sample_inverse) sample_nsd sample_dist sample_a0)
  = 1%R.
Proof.
  apply partition_of_unity.
  - exact sample_nonempty.
  - exact sample_lengths.
  - exact sample_Moore_Penrose.
  - exact sample_invertible.
Defined.

Lemma inverse_derivatives_witness :
  let pinv := fun _ : matrix => sample_inverse in
  let IA := IA pinv sample_nsd sample_dist sample_a0 in
  item (IAx pinv sample_nsd sample_dist sample_a0) 0 1 =
  (- triple IA (Ax sample_nsd sample_dist sample_a0) IA 0 1)%R.
Proof.
  intros pinv IA.
  assert (H0 : 0 < 6) by lia.
  assert (H1 : 1 < 6) by lia.
  destruct (inverse_derivatives pinv sample_nsd sample_dist sample_a0 0 1
              sample_nonempty sample_lengths sample_shape_inverse H0 H1)
    as (_ & H & _).
  exact H.
Defined.

Lemma second_derivative_rows_witness :
  let pinv := fun _ : matrix => sample_inverse in
  length (sfxx_row pinv sample_nsd sample_dist sample_a0) = 30 /\
  length (sfyy_row pinv sample_nsd sample_dist sample_a0) = 30.
Proof.
  intros pinv.
  destruct (second_derivative_rows pinv sample_nsd sample_dist sample_a0
              sample_nonempty sample_lengths sample_shape_inverse)
    as [Hxx Hyy].
  rewrite Hxx, Hyy, !length_map, length_seq.
  split; reflexivity.
Defined.

(** ** Indexing with the arrays of the neighbour query *)

Section Indexing.

Lemma take_ok {X : Type} (arr : list X) (idx : list nat) (d : X) :
  Forall (fun j => j < length arr) idx ->
  take arr idx = inr (map (fun j => nth j arr d) idx).
Proof.
  induction 1 as [|j idx Hj _ IH]; [reflexivity|].
  cbn [take map]. rewrite IH.
  destruct (arr !! j) as [x|] eqn:E.
  - now rewrite (nth_lookup_Some _ _ d _ E).
  - apply lookup_ge_None in E. lia.
Qed.

Lemma column_ok (arr : list (list R)) (c : nat) :
  Forall (fun row => c < length row) arr ->
  column arr c = inr (map (fun row => nth c row 0%R) arr).
Proof.
  induction 1 as [|row arr Hc _ IH]; [reflexivity|].
  cbn [column map]. rewrite IH.
  destruct (row !! c) as [x|] eqn:E.
  - now rewrite (nth_lookup_Some _ _ 0%R _ E).
  - apply lookup_ge_None in E. lia.
Qed.

End Indexing.

Section RowLengths.

Variable pinv : matrix -> matrix.
Variable nsd : list point.
Variable dist_i : vector.
Variable a0 : R.

Hypothesis nonempty : 0 < length nsd.
Hypothesis same_length : length dist_i = length nsd.

Lemma length_ravel_row M :
  nrows M = 1 -> length (ravel (transpose M)) = ncols M.
Proof.
  intros H. rewrite ravel_transpose_row by assumption.
  now rewrite length_map, length_seq.
Qed.

#[local] Hint Rewrite nrows_B ncols_B nrows_Bx ncols_Bx nrows_Bxx ncols_Bxx
  nrows_By ncols_By nrows_Byy ncols_Byy using assumption : mls_dims.

Lemma length_sf_row : length (sf_row pinv nsd dist_i a0) = length nsd.
Proof. unfold sf_row. rewrite length_ravel_row by now dims. now dims. Qed.

Lemma length_sfx_row : length (sfx_row pinv nsd dist_i a0) = length nsd.
Proof. unfold sfx_row. rewrite length_ravel_row by now dims. now dims. Qed.

Lemma length_sfy_row : length (sfy_row pinv nsd dist_i a0) = length nsd.
Proof. unfold sfy_row. rewrite length_ravel_row by now dims. now dims. Qed.

Lemma length_sfxx_row : length (sfxx_row pinv nsd dist_i a0) = length nsd.
Proof. unfold sfxx_row. rewrite length_ravel_row by now dims. now dims. Qed.

Lemma length_sfyy_row : length (sfyy_row pinv nsd dist_i a0) = length nsd.
Proof. unfold sfyy_row. rewrite length_ravel_row by now dims. now dims. Qed.

End RowLengths.

(** ** The loop and the assembly *)

Section CellFacts.

Variable pinv : matrix -> matrix.
Variable cond : matrix -> R.
Variable kneighbors : nat -> list point -> error + neighbors.
Variable distnod : list point.
Variable nb : neighbors.

Lemma length_nsd_at i :
  length (nsd_at distnod nb i) = length (nth i (indices nb) []).
Proof. unfold nsd_at. apply length_map. Qed.

Lemma lookup_nth_lt {X : Type} (l : list X) (i : nat) (d : X) :
  i < length l -> l !! i = Some (nth i l d).
Proof.
  intros Hi. destruct (l !! i) as [x|] eqn:E.
  - now rewrite (nth_lookup_Some _ _ d _ E).
  - apply lookup_ge_None in E. lia.
Qed.

Lemma take_fail {X : Type} (arr : list X) (idx : list nat) :
  Exists (fun j => length arr <= j) idx -> take arr idx = inl IndexError.
Proof.
  induction 1 as [j idx Hj|j idx _ IH]; cbn [take].
  - now rewrite (proj2 (lookup_ge_None arr j) Hj).
  - rewrite IH. now destruct (arr !! j).
Qed.

(** one pass for a node within the arrays of the query *)
Lemma body_ok (a0 : vector) (i : nat) (acc : lists) :
  i < length (indices nb) -> i < length (distances nb) -> i < length a0 ->
  Forall (fun j => j < length distnod) (nth i (indices nb) []) ->
  length (nth i (indices nb) []) = length (nth i (distances nb) []) ->
  body pinv cond distnod nb a0 i acc =
  if decide (Forall is_finite
               (xDn (nth i (distances nb) []) (nth i a0 0%R)))
  then inr {| cond_number :=
                cond_number acc ++
                [cond_A cond (nsd_at distnod nb i)
                   (nth i (distances nb) []) (nth i a0 0%R)];
              i_list := i_list acc ++ [repeat i (length (nsd_at distnod nb i))];
              sf_list :=
                sf_list acc ++
                [sf_row pinv (nsd_at distnod nb i)
                   (nth i (distances nb) []) (nth i a0 0%R)];
              sfx_list :=
                sfx_list acc ++
                [sfx_row pinv (nsd_at distnod nb i)
                   (nth i (distances nb) []) (nth i a0 0%R)];
              sfxx_list :=
                sfxx_list acc ++
                [sfxx_row pinv (nsd_at distnod nb i)
                   (nth i (distances nb) []) (nth i a0 0%R)];
              sfy_list :=
                sfy_list acc ++
                [sfy_row pinv (nsd_at distnod nb i)
                   (nth i (distances nb) []) (nth i a0 0%R)];
              sfyy_list :=
                sfyy_list acc ++
                [sfyy_row pinv (nsd_at distnod nb i)
                   (nth i (distances nb) []) (nth i a0 0%R)] |}
  else inl LinAlgError.
Proof.
  intros Hi1 Hi2 Hi3 Hi4 Hi5. unfold body, vector.
  rewrite (lookup_nth_lt _ _ [] Hi1), (lookup_nth_lt _ _ [] Hi2),
          (lookup_nth_lt _ _ 0%R Hi3).
  rewrite (take_ok _ _ (0, 0)%R) by assumption.
  fold (nsd_at distnod nb i).
  rewrite decide_True by (rewrite ?length_nsd_at, ?length_map; assumption).
  destruct (decide _); reflexivity.
Qed.

(** a node number listed for node [i] outside the cloud: IndexError *)
Lemma body_IndexError (a0 : vector) (i : nat) (acc : lists) :
  i < length (indices nb) -> i < length (distances nb) -> i < length a0 ->
  Exists (fun j => length distnod <= j) (nth i (indices nb) []) ->
  body pinv cond distnod nb a0 i acc = inl IndexError.
Proof.
  intros Hi1 Hi2 Hi3 Hbad. unfold body, vector.
  rewrite (lookup_nth_lt _ _ [] Hi1), (lookup_nth_lt _ _ [] Hi2),
          (lookup_nth_lt _ _ 0%R Hi3).
  now rewrite take_fail.
Qed.

Lemma loop_ok (a0 : vector) (range out : list nat) (acc : lists) :
  (forall i, In i range ->
     i < length (indices nb) /\ i < length (distances nb) /\
     i < length a0 /\
     Forall (fun j => j < length distnod) (nth i (indices nb) []) /\
     length (nth i (indices nb) []) = length (nth i (distances nb) []) /\
     Forall is_finite (xDn (nth i (distances nb) []) (nth i a0 0%R))) ->
  loop pinv cond distnod nb a0 range out acc =
  (fold_left (fun o i => progress i o) range out,
   inr {| cond_number := cond_number acc ++
            map (fun i => cond_A cond (nsd_at distnod nb i)
                            (nth i (distances nb) []) (nth i a0 0%R)) range;
          i_list := i_list acc ++
            map (fun i => repeat i (length (nsd_at distnod nb i))) range;
          sf_list := sf_list acc ++
            map (fun i => sf_row pinv (nsd_at distnod nb i)
                            (nth i (distances nb) []) (nth i a0 0%R)) range;
          sfx_list := sfx_list acc ++
            map (fun i => sfx_row pinv (nsd_at distnod nb i)
                            (nth i (distances nb) []) (nth i a0 0%R)) range;
          sfxx_list := sfxx_list acc ++
            map (fun i => sfxx_row pinv (nsd_at distnod nb i)
                            (nth i (distances nb) []) (nth i a0 0%R)) range;
          sfy_list := sfy_list acc ++
            map (fun i => sfy_row pinv (nsd_at distnod nb i)
                            (nth i (distances nb) []) (nth i a0 0%R)) range;
          sfyy_list := sfyy_list acc ++
            map (fun i => sfyy_row pinv (nsd_at distnod nb i)
                            (nth i (distances nb) []) (nth i a0 0%R)) range
       |}).
Proof.
  revert out acc.
  induction range as [|i range IH]; intros out acc Hix.
  - destruct acc. cbn. now rewrite !app_nil_r.
  - cbn [loop].
    destruct (Hix i) as (Hi1 & Hi2 & Hi3 & Hi4 & Hi5 & Hi6); [now left|].
    rewrite body_ok, decide_True by assumption.
    rewrite IH by (intros i' Hi'; apply Hix; now right).
    cbn [fold_left map cond_number i_list sf_list sfx_list sfxx_list
         sfy_list sfyy_list].
    now rewrite <- !app_assoc.
Qed.

(** a loop that runs to its end has passed [pinv] at every node *)
Lemma loop_inr (a0 : vector) (range out log : list nat) (acc acc' : lists) :
  (forall i, In i range ->
     i < length (indices nb) /\ i < length (distances nb) /\
     i < length a0 /\
     Forall (fun j => j < length distnod) (nth i (indices nb) []) /\
     length (nth i (indices nb) []) = length (nth i (distances nb) [])) ->
  loop pinv cond distnod nb a0 range out acc = (log, inr acc') ->
  forall i, In i range ->
    Forall is_finite (xDn (nth i (distances nb) []) (nth i a0 0%R)).
Proof.
  revert out acc.
  induction range as [|i range IH]; intros out acc Hix Hrun i' Hi';
    [destruct Hi'|].
  cbn [loop] in Hrun.
  destruct (Hix i) as (Hi1 & Hi2 & Hi3 & Hi4 & Hi5); [now left|].
  rewrite body_ok in Hrun by assumption.
  destruct (decide _) as [Hfin|]; [|discriminate].
  destruct Hi' as [<-|Hi']; [assumption|].
  eapply IH; [|exact Hrun|exact Hi'].
  intros j Hj. apply Hix. now right.
Qed.

(** within the arrays of the query the loop stops for one reason only *)
Lemma loop_inl (a0 : vector) (range out log : list nat) (acc : lists)
    (e : error) :
  (forall i, In i range ->
     i < length (indices nb) /\ i < length (distances nb) /\
     i < length a0 /\
     Forall (fun j => j < length distnod) (nth i (indices nb) []) /\
     length (nth i (indices nb) []) = length (nth i (distances nb) [])) ->
  loop pinv cond distnod nb a0 range out acc = (log, inl e) ->
  e = LinAlgError.
Proof.
  revert out acc.
  induction range as [|i range IH]; intros out acc Hix Hrun;
    [discriminate|].
  cbn [loop] in Hrun.
  destruct (Hix i) as (Hi1 & Hi2 & Hi3 & Hi4 & Hi5); [now left|].
  rewrite body_ok in Hrun by assumption.
  destruct (decide _) as [Hfin|].
  - eapply IH; [|exact Hrun]. intros j Hj. apply Hix. now right.
  - now injection Hrun as _ <-.
Qed.

(** the loop stops at the first node whose pass fails, after its progress
    line *)
Lemma loop_stop (a0 : vector) (l1 l2 out : list nat) (i : nat)
    (acc : lists) (e : error) :
  (forall i', In i' l1 ->
     i' < length (indices nb) /\ i' < length (distances nb) /\
     i' < length a0 /\
     Forall (fun j => j < length distnod) (nth i' (indices nb) []) /\
     length (nth i' (indices nb) []) = length (nth i' (distances nb) []) /\
     Forall is_finite (xDn (nth i' (distances nb) []) (nth i' a0 0%R))) ->
  (forall acc', body pinv cond distnod nb a0 i acc' = inl e) ->
  loop pinv cond distnod nb a0 (l1 ++ i :: l2) out acc =
  (fold_left (fun o i => progress i o) (l1 ++ [i]) out, inl e).
Proof.
  revert out acc.
  induction l1 as [|i' l1 IH]; intros out acc Hok Hbad.
  - cbn [app loop fold_left]. now rewrite Hbad.
  - cbn [app loop fold_left].
    destruct (Hok i') as (H1 & H2 & H3 & H4 & H5 & H6); [now left|].
    rewrite body_ok, decide_True by assumption.
    apply IH; [|assumption]. intros j Hj. apply Hok. now right.
Qed.

End CellFacts.

(** ** Sparse assembly from triplets *)

Section Triplets.

Lemma lookup_add_entries (T : list (R * (nat * nat))) (r c : nat) :
  foldr add_entry ∅ T !! (r, c) =
  match given T r c with
  | [] => None
  | vs => Some (Rsum vs)
  end.
Proof.
  unfold given.
  induction T as [|t T IH]; [apply lookup_empty|].
  cbn [foldr]. unfold add_entry at 1.
  destruct (decide (t.2 = (r, c))) as [E|E].
  - rewrite filter_cons_True by assumption.
    rewrite E, lookup_insert_eq, IH.
    destruct (filter _ T); reflexivity.
  - rewrite filter_cons_False by assumption.
    now rewrite lookup_insert_ne.
Qed.

Lemma zip_concat_map {X Y I : Type} (f : I -> list X) (g : I -> list Y)
    (l : list I) :
  (forall i, In i l -> length (f i) = length (g i)) ->
  zip (concat (map f l)) (concat (map g l)) =
  concat (map (fun i => zip (f i) (g i)) l).
Proof.
  induction l as [|i l IH]; intros H; [reflexivity|].
  cbn [map concat].
  rewrite zip_with_app by (apply H; now left).
  rewrite IH by (intros i' Hi'; apply H; now right).
  reflexivity.
Qed.

Lemma filter_concat_map_one {X I : Type} (P : X -> Prop)
    `{!forall x, Decision (P x)} (f : I -> list X) (l : list I) (i : I) :
  NoDup l -> In i l ->
  (forall i', In i' l -> i' <> i -> filter P (f i') = []) ->
  filter P (concat (map f l)) = filter P (f i).
Proof.
  induction l as [|a l IH]; intros Hnd Hin Hother; [destruct Hin|].
  cbn [map concat]. rewrite filter_app.
  apply NoDup_cons in Hnd as [Ha Hnd].
  destruct Hin as [->|Hin].
  - assert (E : filter P (concat (map f l)) = []).
    { clear IH. induction l as [|b l IHl]; [reflexivity|].
      cbn [map concat]. rewrite filter_app.
      apply NoDup_cons in Hnd as [_ Hnd].
      rewrite (Hother b).
      - apply IHl.
        + intros Hi. apply Ha. now right.
        + assumption.
        + intros i' [->|Hi'] Hne; [congruence|].
          apply Hother; [right; now right|assumption].
      - right. now left.
      - intros ->. apply Ha. now left. }
    rewrite E. apply app_nil_r.
  - rewrite (Hother a).
    + cbn. apply IH; try assumption.
      intros i' Hi' Hne. apply Hother; [now right|assumption].
    + now left.
    + intros ->. apply Ha. now apply list_elem_of_In.
Qed.

Lemma filter_row_block (row : vector) (ix : list nat) (i i' c : nat) :
  i' <> i ->
  filter (fun t : R * (nat * nat) => t.2 = (i, c))
         (zip row (zip (repeat i' (length ix)) ix)) = [].
Proof.
  intros Hne. revert row.
  induction ix as [|j ix IH]; intros [|v row]; try reflexivity.
  cbn [length repeat zip_with].
  rewrite filter_cons_False by (cbn; congruence).
  apply IH.
Qed.

Lemma filter_own_block (row : vector) (ix : list nat) (i c : nat) :
  map fst (filter (fun t : R * (nat * nat) => t.2 = (i, c))
             (zip row (zip (repeat i (length ix)) ix))) =
  map fst (filter (fun t : R * nat => t.2 = c) (zip row ix)).
Proof.
  revert row.
  induction ix as [|j ix IH]; intros [|v row]; try reflexivity.
  cbn [length repeat zip_with].
  destruct (decide (j = c)) as [->|Hne].
  - rewrite !filter_cons_True by reflexivity.
    cbn [map fst]. now rewrite IH.
  - rewrite !filter_cons_False by (cbn; congruence).
    apply IH.
Qed.

Lemma filter_column_nil (row : vector) (ix : list nat) (c : nat) :
  length row = length ix ->
  filter (fun t : R * nat => t.2 = c) (zip row ix) = [] <-> c ∉ ix.
Proof.
  revert row.
  induction ix as [|j ix IH]; intros [|v row] Hlen; cbn in Hlen; try lia.
  - split; [intros _; apply not_elem_of_nil|reflexivity].
  - cbn [zip_with]. rewrite not_elem_of_cons.
    destruct (decide (j = c)) as [->|Hne].
    + rewrite filter_cons_True by reflexivity.
      split; [discriminate|intros [H _]; congruence].
    + rewrite filter_cons_False by (cbn; congruence).
      rewrite IH by lia. intuition congruence.
Qed.

Lemma column_sum_nodup (row : vector) (ix : list nat) (j : nat) :
  length row = length ix -> NoDup ix -> j < length ix ->
  column_sum row ix (nth j ix 0) = nth j row 0%R.
Proof.
  unfold column_sum. revert row j.
  induction ix as [|c ix IH]; intros [|v row] j Hlen Hnd Hj;
    cbn in Hlen, Hj; try lia.
  apply NoDup_cons in Hnd as [Hc Hnd].
  cbn [zip_with]. destruct j as [|j]; cbn [nth].
  - rewrite filter_cons_True by reflexivity.
    assert (E : filter (fun t : R * nat => t.2 = c) (zip row ix) = []).
    { apply filter_column_nil; [lia|assumption]. }
    rewrite E. cbn. lra.
  - rewrite filter_cons_False.
    + apply IH; [lia|assumption|lia].
    + cbn. intros ->. apply Hc. apply nth_elem_of. lia.
Qed.

Lemma size_list_to_set_le (l : list nat) :
  size (list_to_set l : gset nat) <= length l.
Proof.
  induction l as [|x l IH]; cbn [list_to_set length].
  - now rewrite size_empty.
  - rewrite size_union_alt, size_singleton.
    assert (size (list_to_set l ∖ {[x]} : gset nat)
            <= size (list_to_set l : gset nat))
      by (apply subseteq_size, subseteq_difference_l; reflexivity).
    lia.
Qed.

End Triplets.

Section Assembly.

Variable n k : nat.
Variable row : nat -> vector.
Variable ix : nat -> list nat.

Hypothesis row_length : forall i, i < n -> length (row i) = length (ix i).
Hypothesis ix_bound : forall i, i < n -> Forall (fun j => j < n) (ix i).

Lemma length_concat_map {X Y : Type} (f : nat -> list X) (g : nat -> list Y)
    (l : list nat) :
  (forall i, In i l -> length (f i) = length (g i)) ->
  length (concat (map f l)) = length (concat (map g l)).
Proof.
  induction l as [|i l IH]; intros H; [reflexivity|].
  cbn [map concat]. rewrite !length_app.
  rewrite H by now left.
  rewrite IH; [reflexivity|].
  intros i' Hi'. apply H. now right.
Qed.

Lemma Forall_concat_map {X : Type} (P : X -> Prop) (f : nat -> list X)
    (l : list nat) :
  (forall i, In i l -> Forall P (f i)) -> Forall P (concat (map f l)).
Proof.
  induction l as [|i l IH]; intros H; [constructor|].
  cbn [map concat]. apply Forall_app. split.
  - apply H. now left.
  - apply IH. intros i' Hi'. apply H. now right.
Qed.

Lemma csc_matrix_ok :
  csc_matrix (concat (map row (seq 0 n)))
             (concat (map (fun i => repeat i (length (ix i))) (seq 0 n)))
             (concat (map ix (seq 0 n))) n =
  inr {| shape := (n, n);
         stored := foldr add_entry ∅
           (concat (map (fun i => zip (row i)
                                   (zip (repeat i (length (ix i))) (ix i)))
                        (seq 0 n))) |}.
Proof.
  unfold csc_matrix. rewrite decide_True.
  - do 2 f_equal.
    rewrite (zip_concat_map (fun i => repeat i (length (ix i))) ix)
      by (intros i _; apply repeat_length).
    rewrite (zip_concat_map row); [reflexivity|].
    intros i Hi. apply in_seq in Hi.
    rewrite length_zip_with, repeat_length, Nat.min_id.
    apply row_length. lia.
  - repeat split.
    + apply length_concat_map. intros i Hi. apply in_seq in Hi.
      rewrite repeat_length. apply row_length. lia.
    + apply length_concat_map. intros i _. apply repeat_length.
    + apply Forall_concat_map. intros i Hi. apply in_seq in Hi.
      apply Forall_forall. intros r Hr.
      apply list_elem_of_In, repeat_spec in Hr. lia.
    + apply Forall_concat_map. intros i Hi. apply in_seq in Hi.
      apply ix_bound. lia.
Qed.

End Assembly.

Section Operators.

Variable pinv : matrix -> matrix.
Variable cond : matrix -> R.
Variable kneighbors : nat -> list point -> error + neighbors.
Variable distnod : list point.
Variable nb : neighbors.

Hypothesis indexed : well_indexed (length distnod) n_neighbors nb.

Lemma list_as_map_nth {X : Type} (l : list X) (d : X) :
  l = map (fun i => nth i l d) (seq 0 (length l)).
Proof.
  apply (nth_ext _ _ d d).
  - now rewrite length_map, length_seq.
  - intros i Hi. now rewrite nth_map_seq.
Qed.

Lemma nth_a0 i :
  i < length distnod ->
  nth i (smul scale_factor (map (fun r => nth 29 r 0%R) (distances nb))) 0%R
  = a0_at nb i.
Proof.
  intros Hi. destruct indexed as (Hd & _ & _).
  unfold smul, a0_at. rewrite map_map.
  rewrite (nth_map_lt (fun r => (scale_factor * nth 29 r 0)%R) _ _ [])
    by lia.
  reflexivity.
Qed.

Lemma length_indices_row i :
  i < length distnod -> length (nth i (indices nb) []) = n_neighbors.
Proof. intros Hi. now destruct indexed as (_ & _ & H), (H i Hi) as (_ & ? & _). Qed.

Lemma length_distances_row i :
  i < length distnod -> length (nth i (distances nb) []) = n_neighbors.
Proof. intros Hi. now destruct indexed as (_ & _ & H), (H i Hi) as (? & _). Qed.

Lemma csc_matrix_rows (row : list point -> vector -> R -> vector) :
  (forall nsd d a, 0 < length nsd -> length d = length nsd ->
                   length (row nsd d a) = length nsd) ->
  csc_matrix
    (concat (map (fun i =>
                    row (nsd_at distnod nb i) (nth i (distances nb) [])
                      (nth i (smul scale_factor
                                (map (fun r => nth 29 r 0%R) (distances nb)))
                           0%R))
                 (seq 0 (length distnod))))
    (concat (map (fun i => repeat i (length (nsd_at distnod nb i)))
                 (seq 0 (length distnod))))
    (concat (indices nb)) (length distnod) =
  inr (operator row distnod nb).
Proof.
  intros Hrow.
  pose proof indexed as (_ & Hix & _).
  rewrite (list_as_map_nth (indices nb) []) at 1. rewrite Hix.
  rewrite (map_ext_in _ (fun i => row_at row distnod nb i)).
  2: { intros i Hi. apply in_seq in Hi. unfold row_at.
       rewrite nth_a0 by lia. reflexivity. }
  rewrite (map_ext _ (fun i => repeat i (length (nth i (indices nb) []))))
    by (intros i; now rewrite length_nsd_at).
  apply (csc_matrix_ok (length distnod) (row_at row distnod nb)
           (fun i => nth i (indices nb) [])).
  - intros i Hi. unfold row_at.
    rewrite Hrow, length_nsd_at; try reflexivity.
    + rewrite length_nsd_at, length_indices_row by assumption.
      unfold n_neighbors. lia.
    + rewrite length_nsd_at, length_indices_row, length_distances_row
        by assumption. reflexivity.
  - intros i Hi. now destruct indexed as (_ & _ & H), (H i Hi) as (_ & _ & ?).
Qed.

Lemma column_29 :
  column (distances nb) 29 =
  inr (map (fun r => nth 29 r 0%R) (distances nb)).
Proof.
  apply column_ok. apply List.Forall_forall. intros r Hr.
  destruct (In_nth _ _ [] Hr) as (i & Hi & <-).
  destruct indexed as (Hd & _ & _). rewrite Hd in Hi.
  rewrite length_distances_row by assumption. unfold n_neighbors. lia.
Qed.

Lemma in_bounds i :
  i < length distnod ->
  i < length (indices nb) /\ i < length (distances nb) /\
  i < length (smul scale_factor
                (map (fun r => nth 29 r 0%R) (distances nb))) /\
  Forall (fun j => j < length distnod) (nth i (indices nb) []) /\
  length (nth i (indices nb) []) = length (nth i (distances nb) []).
Proof.
  intros Hi.
  destruct indexed as (Hd & Hx & H), (H i) as (Hld & Hlx & ?); [lia|].
  unfold smul. rewrite !length_map, Hd, Hx.
  repeat split; try lia; assumption.
Qed.

(** the pass of node [i] gets past [pinv] exactly when its radius is not
    zero: entry 29 of the distances is one of those divided by it *)
Lemma radius_passes i :
  i < length distnod ->
  Forall is_finite (xDn (nth i (distances nb) []) (a0_at nb i)) <->
  a0_at nb i <> 0%R.
Proof.
  intros Hi. split.
  - intros HF Ha. revert HF. apply xDn_not_finite; [assumption|].
    assert (H29 : 29 < length (nth i (distances nb) [])).
    { rewrite length_distances_row by assumption. unfold n_neighbors. lia. }
    pose proof (nth_In (nth i (distances nb) []) 0%R H29) as Hin.
    assert (H0 : nth 29 (nth i (distances nb) []) 0%R = 0%R).
    { unfold a0_at, scale_factor in Ha. lra. }
    now rewrite H0 in Hin.
  - apply xDn_finite.
Qed.

Lemma mls_ok :
  kneighbors n_neighbors distnod = inr nb ->
  (forall i, i < length distnod -> a0_at nb i <> 0%R) ->
  mls pinv cond kneighbors distnod =
  (fold_left (fun o i => progress i o) (seq 0 (length distnod)) [],
   inr {| out_cond_number :=
            map (fun i => cond_A cond (nsd_at distnod nb i)
                            (nth i (distances nb) []) (a0_at nb i))
                (seq 0 (length distnod));
          sf := operator (sf_row pinv) distnod nb;
          sfx := operator (sfx_row pinv) distnod nb;
          sfxx := operator (sfxx_row pinv) distnod nb;
          sfy := operator (sfy_row pinv) distnod nb;
          sfyy := operator (sfyy_row pinv) distnod nb |}).
Proof.
  intros Hk Hrad. unfold mls. rewrite Hk, column_29.
  rewrite loop_ok.
  2: { intros i Hi. apply in_seq in Hi.
       destruct (in_bounds i) as (H1 & H2 & H3 & H4 & H5); [lia|].
       repeat split; try assumption.
       rewrite nth_a0 by lia. apply radius_passes; [lia|]. apply Hrad. lia. }
  unfold assemble.
  cbn [empty_lists cond_number i_list sf_list sfx_list sfxx_list sfy_list
       sfyy_list app].
  rewrite (csc_matrix_rows (sf_row pinv)) by (intros; now apply length_sf_row).
  rewrite (csc_matrix_rows (sfx_row pinv)) by (intros; now apply length_sfx_row).
  rewrite (csc_matrix_rows (sfxx_row pinv)) by (intros; now apply length_sfxx_row).
  rewrite (csc_matrix_rows (sfy_row pinv)) by (intros; now apply length_sfy_row).
  rewrite (csc_matrix_rows (sfyy_row pinv)) by (intros; now apply length_sfyy_row).
  do 3 f_equal.
  apply map_ext_in. intros i Hi. apply in_seq in Hi.
  now rewrite nth_a0 by lia.
Qed.

(** a run that reaches its result had no zero radius *)
Lemma mls_inr (log : list nat) (out : output) :
  kneighbors n_neighbors distnod = inr nb ->
  mls pinv cond kneighbors distnod = (log, inr out) ->
  forall i, i < length distnod -> a0_at nb i <> 0%R.
Proof.
  intros Hk Hrun i Hi. unfold mls in Hrun. rewrite Hk, column_29 in Hrun.
  destruct (loop _ _ _ _ _ _ _ _) as [out' [e|acc]] eqn:Hloop;
    [discriminate|].
  apply radius_passes; [assumption|]. rewrite <- nth_a0 by assumption.
  eapply loop_inr; [|exact Hloop|apply in_seq; lia].
  intros j Hj. apply in_seq in Hj. apply in_bounds. lia.
Qed.

(** past the neighbour query the only error left is that of [pinv] *)
Lemma mls_inl (log : list nat) (e : error) :
  kneighbors n_neighbors distnod = inr nb ->
  mls pinv cond kneighbors distnod = (log, inl e) ->
  e = LinAlgError.
Proof.
  intros Hk Hrun. pose proof Hrun as Hrun'.
  unfold mls in Hrun. rewrite Hk, column_29 in Hrun.
  destruct (loop _ _ _ _ _ _ _ _) as [out' [e'|acc]] eqn:Hloop.
  - injection Hrun as _ <-.
    eapply loop_inl; [|exact Hloop].
    intros j Hj. apply in_seq in Hj. apply in_bounds. lia.
  - assert (Hrad : forall i, i < length distnod -> a0_at nb i <> 0%R).
    { intros i Hi. apply radius_passes; [assumption|].
      rewrite <- nth_a0 by assumption.
      eapply loop_inr; [|exact Hloop|apply in_seq; lia].
      intros j Hj. apply in_seq in Hj. apply in_bounds. lia. }
    rewrite (mls_ok Hk Hrad) in Hrun'. discriminate.
Qed.


End Operators.

(** ** What the neighbour query guarantees *)

Section Neighbours.
Local Open Scope R_scope.

Variable distnod : list point.
Variable nb : neighbors.
Hypothesis spec : kneighbors_spec n_neighbors distnod nb.

Lemma spec_well_indexed : well_indexed (length distnod) n_neighbors nb.
Proof.
  destruct spec as (Hd & Hi & H).
  split; [assumption|]. split; [assumption|].
  intros i Hlt. destruct (H i Hlt) as (Hld & Hli & _ & Hj & _).
  repeat split; try assumption.
  apply List.Forall_nth. intros j d Hj'.
  rewrite (nth_indep _ d 0%nat) by assumption.
  apply Hj. lia.
Qed.

Lemma spec_NoDup i :
  (i < length distnod)%nat -> NoDup (nth i (indices nb) []).
Proof. intros Hi. now destruct spec as (_ & _ & H), (H i Hi) as (_ & _ & ? & _). Qed.

Lemma spec_distance i j :
  (i < length distnod)%nat -> (j < n_neighbors)%nat ->
  nth j (nth i (distances nb) []) 0 =
  euclidean (nth i distnod (0, 0))
            (nth (nth j (nth i (indices nb) []) 0%nat) distnod (0, 0)).
Proof.
  intros Hi Hj.
  destruct spec as (_ & _ & H), (H i Hi) as (_ & _ & _ & Hd & _).
  now apply Hd.
Qed.

(** the first neighbour listed is at distance zero *)
Lemma spec_nearest i :
  (i < length distnod)%nat -> nth 0 (nth i (distances nb) []) 0 = 0.
Proof.
  intros Hi.
  destruct spec as (_ & _ & H), (H i Hi) as (_ & Hlen & _ & Hd & Hsort & Hout).
  assert (Hge : 0 <= nth 0 (nth i (distances nb) []) 0).
  { destruct (Hd 0%nat) as [_ ->]; [unfold n_neighbors; lia|].
    apply euclidean_nonneg. }
  assert (Hle : nth 0 (nth i (distances nb) []) 0 <= 0); [|lra].
  destruct (decide (i ∈ nth i (indices nb) [])) as [Hin|Hnin].
  - apply list_elem_of_In, (In_nth _ _ 0%nat) in Hin.
    destruct Hin as (j & Hj & Hij). rewrite Hlen in Hj.
    destruct (Hd j Hj) as [_ Hdj]. rewrite Hij, euclidean_self in Hdj.
    apply Rle_trans with (nth j (nth i (distances nb) []) 0);
      [apply Hsort; lia|rewrite Hdj; lra].
  - specialize (Hout i Hi Hnin). rewrite euclidean_self in Hout.
    eapply Rle_trans; [|exact Hout].
    apply Hsort; unfold n_neighbors; lia.
Qed.

Lemma nth_nsd_at i j :
  (i < length distnod)%nat -> (j < n_neighbors)%nat ->
  nth j (nsd_at distnod nb i) (0, 0) =
  nth (nth j (nth i (indices nb) []) 0%nat) distnod (0, 0).
Proof.
  intros Hi Hj. unfold nsd_at.
  destruct spec as (_ & _ & H), (H i Hi) as (_ & Hlen & _).
  rewrite (nth_map_lt (fun j => nth j distnod (0, 0)) _ _ 0%nat) by lia.
  reflexivity.
Qed.

(** the local origin [nsd[0]] is node [i] itself *)
Lemma spec_origin i :
  (i < length distnod)%nat ->
  nth 0 (nsd_at distnod nb i) (0, 0) = nth i distnod (0, 0).
Proof.
  intros Hi.
  rewrite nth_nsd_at by (try assumption; unfold n_neighbors; lia).
  symmetry. apply euclidean_zero.
  rewrite <- spec_distance by (try assumption; unfold n_neighbors; lia).
  now apply spec_nearest.
Qed.

End Neighbours.

Section SparseRows.

Variable distnod : list point.
Variable nb : neighbors.
Variable row : list point -> vector -> R -> vector.
Hypothesis indexed : well_indexed (length distnod) n_neighbors nb.
Hypothesis row_length :
  forall nsd d a, 0 < length nsd -> length d = length nsd ->
                  length (row nsd d a) = length nsd.

Lemma length_row_at i :
  i < length distnod ->
  length (row_at row distnod nb i) = length (nth i (indices nb) []).
Proof.
  intros Hi. unfold row_at.
  destruct indexed as (_ & _ & H), (H i Hi) as (Hd & Hx & _).
  rewrite row_length; rewrite length_nsd_at, ?Hx, ?Hd;
    try reflexivity. unfold n_neighbors. lia.
Qed.

Lemma given_triplets i c :
  i < length distnod ->
  given (triplets row distnod nb) i c =
  map fst (filter (fun t : R * nat => t.2 = c)
             (zip (row_at row distnod nb i) (nth i (indices nb) []))).
Proof.
  intros Hi. unfold given, triplets.
  rewrite (filter_concat_map_one _ _ _ i).
  - apply filter_own_block.
  - apply NoDup_seq.
  - apply in_seq. lia.
  - intros i' _ Hne. now apply filter_row_block.
Qed.

Lemma lookup_operator i c :
  i < length distnod ->
  stored (operator row distnod nb) !! (i, c) =
  if decide (c ∈ nth i (indices nb) [])
  then Some (column_sum (row_at row distnod nb i) (nth i (indices nb) []) c)
  else None.
Proof.
  intros Hi. cbn [operator stored].
  rewrite lookup_add_entries, given_triplets by assumption.
  pose proof (filter_column_nil (row_at row distnod nb i)
                (nth i (indices nb) []) c (length_row_at i Hi)) as Hnil.
  unfold column_sum.
  destruct (filter _ _) as [|t l] eqn:E.
  - rewrite decide_False; [reflexivity|]. now apply Hnil.
  - rewrite decide_True; [reflexivity|].
    destruct (decide (c ∈ nth i (indices nb) [])) as [|Hn]; [assumption|].
    apply Hnil in Hn. discriminate.
Qed.

Lemma row_columns_operator i :
  i < length distnod ->
  row_columns (operator row distnod nb) i = list_to_set (nth i (indices nb) []).
Proof.
  intros Hi. unfold row_columns. apply set_eq. intros c.
  rewrite elem_of_map, elem_of_list_to_set. split.
  - intros ([r c'] & -> & Hrc).
    apply elem_of_filter in Hrc as [Hr Hdom]. cbn in Hr. subst r.
    apply elem_of_dom in Hdom. rewrite lookup_operator in Hdom by assumption.
    destruct (decide _) as [Hin|]; [exact Hin|].
    now destruct Hdom.
  - intros Hin. exists (i, c). split; [reflexivity|].
    apply elem_of_filter. split; [reflexivity|].
    apply elem_of_dom. rewrite lookup_operator by assumption.
    now rewrite decide_True.
Qed.

Lemma neighbour_row_operator i :
  i < length distnod -> NoDup (nth i (indices nb) []) ->
  neighbour_row n_neighbors (operator row distnod nb)
    (nth i (indices nb) []) (row_at row distnod nb i) i.
Proof.
  intros Hi Hnd.
  assert (Hlen : length (nth i (indices nb) []) = n_neighbors)
    by now destruct indexed as (_ & _ & H), (H i Hi) as (_ & ? & _).
  split; [now apply row_columns_operator|]. split.
  - rewrite row_columns_operator by assumption.
    now rewrite size_list_to_set.
  - intros j Hj.
    rewrite lookup_operator by assumption.
    rewrite decide_True by (apply nth_elem_of; lia).
    f_equal. apply column_sum_nodup; try assumption.
    + now apply length_row_at.
    + lia.
Qed.

End SparseRows.

Lemma row_columns_bound (op : sparse) (T : list (R * (nat * nat))) (r : nat) :
  stored op = foldr add_entry ∅ T ->
  size (row_columns op r)
  <= length (filter (fun t : R * (nat * nat) => t.2.1 = r) T).
Proof.
  intros Hop.
  set (cols := map (fun t : R * (nat * nat) => t.2.2)
                 (filter (fun t : R * (nat * nat) => t.2.1 = r) T)).
  transitivity (size (list_to_set cols : gset nat)).
  - apply subseteq_size. intros c Hc.
    unfold row_columns in Hc.
    apply elem_of_map in Hc as ([r' c'] & -> & Hrc).
    apply elem_of_filter in Hrc as [Hr Hdom]. cbn in Hr. subst r'.
    apply elem_of_dom in Hdom. rewrite Hop, lookup_add_entries in Hdom.
    unfold given in Hdom.
    destruct (filter (fun t : R * (nat * nat) => t.2 = (r, c')) T)
      as [|t l] eqn:E;
      [destruct Hdom as [x Hx]; cbn in Hx; discriminate|].
    assert (Ht : t ∈ filter (fun t : R * (nat * nat) => t.2 = (r, c')) T)
      by (rewrite E; apply list_elem_of_here).
    apply list_elem_of_filter in Ht as [Hkey HtT].
    apply elem_of_list_to_set. unfold cols.
    apply list_elem_of_In, in_map_iff. exists t.
    split; [now rewrite Hkey|].
    apply list_elem_of_In, list_elem_of_filter.
    split; [now rewrite Hkey|assumption].
  - etransitivity; [apply size_list_to_set_le|].
    unfold cols. now rewrite length_map.
Qed.

(** ** Properties of the whole cell *)

Section CellClaims.

Variable pinv : matrix -> matrix.
Variable cond : matrix -> R.
Variable kneighbors : nat -> list point -> error + neighbors.
Variable distnod : list point.



(** C8.  A cloud of fewer than 30 nodes makes the cell fail with the
    neighbour query's error, before anything is printed or computed for a
    node.  On a cloud of at least 30 nodes this error never occurs: the one
    error left to the cell is that of [pinv]. *)
Theorem insufficient_points :
  kneighbors_contract kneighbors n_neighbors distnod ->
  (length distnod < n_neighbors ->
   mls pinv cond kneighbors distnod = ([], inl InsufficientPoints)) /\
  (n_neighbors <= length distnod ->
   (mls pinv cond kneighbors distnod).2 <> inl InsufficientPoints /\
   forall log e,
     mls pinv cond kneighbors distnod = (log, inl e) -> e = LinAlgError).
Proof.
  intros Hc. unfold kneighbors_contract in Hc.
  destruct (kneighbors n_neighbors distnod) as [e|nb] eqn:Hk.
  - destruct Hc as [Hlt ->]. split; [|lia].
    intros _. unfold mls. now rewrite Hk.
  - destruct Hc as [Hge Hspec]. split; [lia|].
    intros _.
    pose proof (spec_well_indexed _ _ Hspec) as Hwi.
    assert (H : forall log e,
              mls pinv cond kneighbors distnod = (log, inl e) ->
              e = LinAlgError).
    { intros log e Hrun.
      exact (mls_inl pinv cond kneighbors distnod nb Hwi log e Hk Hrun). }
    split; [|exact H].
    destruct (mls pinv cond kneighbors distnod) as [log [e|out]] eqn:Hrun;
      [|discriminate].
    rewrite (H log e eq_refl). discriminate.
Qed.

(** C9.  In a run that reaches its result, row [i] of each of the five
    operators has its stored entries exactly at the columns listed for node
    [i], 30 of them, the entry at the [j]-th listed column being entry [j]
    of the row computed for node [i].  In general [csc_matrix] stores at a
    position the sum of the data given for it, so a row never stores more
    entries than it was given. *)
Theorem row_sparsity (nb : neighbors) (log : list nat) (out : output) :
  kneighbors_contract kneighbors n_neighbors distnod ->
  kneighbors n_neighbors distnod = inr nb ->
  mls pinv cond kneighbors distnod = (log, inr out) ->
  (forall i, i < length distnod ->
     let ix := nth i (indices nb) [] in
     neighbour_row 30 (sf out) ix (row_at (sf_row pinv) distnod nb i) i /\
     neighbour_row 30 (sfx out) ix (row_at (sfx_row pinv) distnod nb i) i /\
     neighbour_row 30 (sfxx out) ix (row_at (sfxx_row pinv) distnod nb i) i /\
     neighbour_row 30 (sfy out) ix (row_at (sfy_row pinv) distnod nb i) i /\
     neighbour_row 30 (sfyy out) ix (row_at (sfyy_row pinv) distnod nb i) i) /\
  (forall data rows cols n op,
     csc_matrix data rows cols n = inr op ->
     let T := zip data (zip rows cols) in
     forall r,
       (forall c, stored op !! (r, c) =
                  match given T r c with
                  | [] => None
                  | vs => Some (Rsum vs)
                  end) /\
       size (row_columns op r)
       <= length (filter (fun t : R * (nat * nat) => t.2.1 = r) T)).
Proof.
  intros Hc Hk Hrun. split.
  - unfold kneighbors_contract in Hc. rewrite Hk in Hc.
    destruct Hc as [_ Hspec].
    pose proof (spec_well_indexed _ _ Hspec) as Hwi.
    pose proof (mls_inr pinv cond kneighbors distnod nb Hwi log out Hk Hrun)
      as Hnz.
    rewrite (mls_ok pinv cond kneighbors distnod nb Hwi Hk Hnz) in Hrun.
    injection Hrun as _ <-.
    intros i Hi ix. cbn [sf sfx sfxx sfy sfyy].
    pose proof (spec_NoDup _ _ Hspec i Hi) as Hnd.
    split; [|split; [|split; [|split]]];
      apply neighbour_row_operator; try assumption; intros.
    + now apply length_sf_row.
    + now apply length_sfx_row.
    + now apply length_sfxx_row.
    + now apply length_sfy_row.
    + now apply length_sfyy_row.
  - intros data rows cols n op Hop T r.
    unfold csc_matrix in Hop.
    destruct (decide _) as [_|_]; [|discriminate].
    injection Hop as <-. cbn [stored]. split.
    + intros c. apply lookup_add_entries.
    + now apply row_columns_bound.
Qed.

End CellClaims.

(** ** The sample cloud and its neighbour table *)

Section SampleCloud.
Local Open Scope R_scope.

Lemma sample_rows_ok :
  Forall (fun i =>
            length (sample_row i) = 30%nat /\
            NoDup (sample_row i) /\
            Forall (fun j => (j < 30)%nat) (sample_row i) /\
            Forall (fun m => m ∈ sample_row i) (seq 0 30))
         (seq 0 30).
Proof. compute_done. Qed.

Lemma sample_sorted i j :
  (i < 30)%nat -> (S j < 30)%nat ->
  euclidean (nth i sample_nsd (0, 0)) (nth (nth j (sample_row i) 0%nat) sample_nsd (0, 0))
  <= euclidean (nth i sample_nsd (0, 0)) (nth (nth (S j) (sample_row i) 0%nat) sample_nsd (0, 0)).
Proof.
  intros Hi Hj. unfold euclidean. apply sqrt_le_1_alt.
  do 30 (destruct i as [|i]; [ do 29 (destruct j as [|j]; [cbn; lra|]); lia |]).
  lia.
Qed.

End SampleCloud.

Section SampleSpec.
Local Open Scope R_scope.

Lemma sorted_from_adjacent (f : nat -> R) (k : nat) :
  (forall j, (S j < k)%nat -> f j <= f (S j)) ->
  forall j j', (j <= j')%nat -> (j' < k)%nat -> f j <= f j'.
Proof.
  intros Hadj j j' Hle. induction Hle as [|j' Hle IH]; intros Hk.
  - apply Rle_refl.
  - apply Rle_trans with (f j'); [apply IH; lia|now apply Hadj].
Qed.

Lemma sample_row_facts i :
  (i < 30)%nat ->
  length (sample_row i) = 30%nat /\
  NoDup (sample_row i) /\
  Forall (fun j => (j < 30)%nat) (sample_row i) /\
  Forall (fun m => m ∈ sample_row i) (seq 0 30).
Proof.
  intros Hi. pose proof sample_rows_ok as H.
  rewrite List.Forall_forall in H. apply H. apply in_seq. lia.
Qed.

Lemma sample_spec : kneighbors_spec n_neighbors sample_nsd sample_neighbors.
Proof.
  unfold kneighbors_spec, n_neighbors.
  change (length sample_nsd) with 30%nat.
  cbn [distances indices sample_neighbors].
  split; [now rewrite length_map, length_seq|].
  split; [now rewrite length_map, length_seq|].
  intros i Hi.
  rewrite !nth_map_seq by assumption.
  destruct (sample_row_facts i Hi) as (Hlen & Hnd & Hlt & Hall).
  cbn zeta.
  split; [now rewrite length_map|].
  split; [assumption|]. split; [assumption|].
  assert (Hd : forall j, (j < 30)%nat ->
            nth j (map (fun j => euclidean (nth i sample_nsd (0, 0))
                                   (nth j sample_nsd (0, 0)))
                       (sample_row i)) 0
            = euclidean (nth i sample_nsd (0, 0))
                        (nth (nth j (sample_row i) 0%nat) sample_nsd (0, 0))).
  { intros j Hj.
    now rewrite (nth_map_lt
                   (fun j => euclidean (nth i sample_nsd (0, 0))
                               (nth j sample_nsd (0, 0))) _ _ 0%nat)
      by lia. }
  split; [|split].
  - intros j Hj. split; [|now apply Hd].
    rewrite List.Forall_forall in Hlt. apply Hlt, nth_In. lia.
  - apply sorted_from_adjacent. intros j Hj.
    rewrite !Hd by lia. now apply sample_sorted.
  - intros m Hm Hnin. exfalso. apply Hnin.
    rewrite List.Forall_forall in Hall. apply Hall, in_seq. lia.
Qed.

Lemma sample_length : length sample_nsd = 30%nat.
Proof. reflexivity. Qed.

Lemma sample_query :
  sample_kneighbors n_neighbors sample_nsd = inr sample_neighbors.
Proof.
  unfold sample_kneighbors, n_neighbors.
  rewrite sample_length. now rewrite decide_False by lia.
Qed.

Lemma sample_contract :
  kneighbors_contract sample_kneighbors n_neighbors sample_nsd.
Proof.
  unfold kneighbors_contract. rewrite sample_query.
  split; [|exact sample_spec].
  unfold n_neighbors. rewrite sample_length. lia.
Qed.

Lemma empty_contract : kneighbors_contract sample_kneighbors n_neighbors [].
Proof.
  unfold kneighbors_contract, sample_kneighbors, n_neighbors.
  cbn [length]. rewrite decide_True by lia.
  split; [lia|reflexivity].
Qed.

End SampleSpec.

Section SampleRun.
Local Open Scope R_scope.

#[local] Abbreviation sample_pinv := (fun _ : matrix => sample_inverse).
#[local] Abbreviation sample_cond := (fun _ : matrix => 0).

(** every node of the sample cloud has a node of another place in its
    list: no radius is zero *)
Lemma sample_radii i : (i < 30)%nat -> 0 < a0_at sample_neighbors i.
Proof.
  intros Hi. unfold a0_at, scale_factor.
  cbn [sample_neighbors distances].
  rewrite (nth_map_seq _ _ _ []) by lia.
  destruct (sample_row_facts i Hi) as (Hlen & _).
  rewrite (nth_map_lt _ _ _ 0%nat) by lia.
  apply Rmult_lt_0_compat; [lra|].
  unfold euclidean. apply sqrt_lt_R0.
  do 30 (destruct i as [|i]; [cbn; lra|]). lia.
Qed.

Lemma sample_run :
  exists log out,
    mls sample_pinv sample_cond sample_kneighbors sample_nsd = (log, inr out).
Proof.
  eexists _, _.
  apply (mls_ok sample_pinv sample_cond sample_kneighbors sample_nsd
           sample_neighbors (spec_well_indexed _ _ sample_spec) sample_query).
  intros i Hi. rewrite sample_length in Hi.
  pose proof (sample_radii i Hi). lra.
Qed.

Lemma sample_nsd_at : nsd_at sample_nsd sample_neighbors 0 = sample_nsd.
Proof. reflexivity. Qed.

Lemma sample_distances :
  nth 0 (distances sample_neighbors) [] = sample_dist.
Proof.
  cbn [sample_neighbors distances].
  rewrite (nth_map_seq _ _ _ []) by lia.
  apply (nth_ext _ _ 0 0).
  - reflexivity.
  - intros j Hj. rewrite length_map in Hj.
    change (length (sample_row 0)) with 30%nat in Hj.
    rewrite (nth_map_lt _ _ _ 0%nat) by exact Hj.
    unfold euclidean.
    do 30 (destruct j as [|j];
           [cbn;
            first [ replace ((0 - 0) * ((0 - 0) * 1) + (0 - 0) * ((0 - 0) * 1))
                      with 0 by ring; apply sqrt_0
                  | match goal with
                    | |- sqrt ?e = 1 =>
                        replace e with 1 by ring; apply sqrt_1
                    end
                  | f_equal; ring ]|]).
    lia.
Qed.

Lemma sample_a0_at : a0_at sample_neighbors 0 = sample_a0.
Proof. unfold a0_at, sample_a0. now rewrite sample_distances. Qed.

Lemma sample_radius : 0 < a0_at sample_neighbors 0.
Proof.
  rewrite sample_a0_at. unfold sample_a0, scale_factor. cbn [sample_dist nth repeat app].
  assert (0 < sqrt 2) by (apply sqrt_lt_R0; lra).
  cbn. lra.
Qed.

End SampleRun.



Lemma insufficient_points_witness :
  mls (fun _ => sample_inverse) (fun _ => 0%R) sample_kneighbors []
  = ([], inl InsufficientPoints) /\
  (mls (fun _ => sample_inverse) (fun _ => 0%R) sample_kneighbors
     sample_nsd).2 <> inl InsufficientPoints.
Proof.
  split.
  - apply (insufficient_points _ _ sample_kneighbors [] empty_contract).
    unfold n_neighbors. cbn [length]. lia.
  - apply (insufficient_points _ _ sample_kneighbors sample_nsd sample_contract).
    unfold n_neighbors. rewrite sample_length. lia.
Defined.

Lemma row_sparsity_witness :
  exists log out,
    mls (fun _ => sample_inverse) (fun _ => 0%R) sample_kneighbors sample_nsd
    = (log, inr out) /\
    size (row_columns (sfxx out) 12) = 30.
Proof.
  destruct sample_run as (log & out & Hrun).
  exists log, out. split; [exact Hrun|].
  destruct (row_sparsity (fun _ => sample_inverse) (fun _ => 0%R)
              sample_kneighbors sample_nsd sample_neighbors log out
              sample_contract sample_query Hrun) as [Hrows _].
  assert (Hi : 12 < length sample_nsd) by (rewrite sample_length; lia).
  destruct (Hrows 12 Hi) as (_ & _ & (_ & Hsize & _) & _).
  exact Hsize.
Defined.

(** ** Linearity of the array product *)

Section Linearity.
Local Open Scope R_scope.

Lemma has_shape_add M N : has_shape (nrows M) (ncols M) (add M N).
Proof. apply has_shape_fromfunction. Qed.

Lemma has_shape_sub M N : has_shape (nrows M) (ncols M) (sub M N).
Proof. apply has_shape_fromfunction. Qed.

Lemma has_shape_neg M : has_shape (nrows M) (ncols M) (neg M).
Proof. apply has_shape_fromfunction. Qed.

Lemma has_shape_scale c M : has_shape (nrows M) (ncols M) (scale c M).
Proof. apply has_shape_fromfunction. Qed.

Lemma dot_add_l M N Q :
  nrows N = nrows M -> ncols N = ncols M -> (0 < nrows M)%nat ->
  dot (add M N) Q = add (dot M Q) (dot N Q).
Proof.
  intros Hr Hc Hpos.
  apply (array_ext (nrows M) (ncols Q)).
  - pose proof (has_shape_dot (add M N) Q) as H.
    now rewrite nrows_add in H.
  - pose proof (has_shape_add (dot M Q) (dot N Q)) as H.
    now rewrite nrows_dot, ncols_dot in H.
  - intros i j Hi Hj.
    rewrite item_dot by (rewrite ?nrows_add; assumption).
    rewrite ncols_add by assumption.
    rewrite item_add by (rewrite ?nrows_dot, ?ncols_dot; assumption).
    rewrite !item_dot by (rewrite ?Hr; assumption).
    rewrite Hc, <- sum_n_plus.
    apply sum_n_ext. intros l Hl.
    rewrite item_add by assumption. ring.
Qed.

Lemma dot_sub_l M N Q :
  nrows N = nrows M -> ncols N = ncols M -> (0 < nrows M)%nat ->
  dot (sub M N) Q = sub (dot M Q) (dot N Q).
Proof.
  intros Hr Hc Hpos.
  apply (array_ext (nrows M) (ncols Q)).
  - pose proof (has_shape_dot (sub M N) Q) as H.
    now rewrite nrows_sub in H.
  - pose proof (has_shape_sub (dot M Q) (dot N Q)) as H.
    now rewrite nrows_dot, ncols_dot in H.
  - intros i j Hi Hj.
    rewrite item_dot by (rewrite ?nrows_sub; assumption).
    rewrite ncols_sub by assumption.
    rewrite item_sub by (rewrite ?nrows_dot, ?ncols_dot; assumption).
    rewrite !item_dot by (rewrite ?Hr; assumption).
    rewrite Hc, <- sum_n_minus.
    apply sum_n_ext. intros l Hl.
    rewrite item_sub by assumption. ring.
Qed.

Lemma dot_neg_l M Q :
  (0 < nrows M)%nat -> dot (neg M) Q = neg (dot M Q).
Proof.
  intros Hpos.
  apply (array_ext (nrows M) (ncols Q)).
  - pose proof (has_shape_dot (neg M) Q) as H.
    now rewrite nrows_neg in H.
  - pose proof (has_shape_neg (dot M Q)) as H.
    now rewrite nrows_dot, ncols_dot in H.
  - intros i j Hi Hj.
    rewrite item_dot by (rewrite ?nrows_neg; assumption).
    rewrite ncols_neg by assumption.
    rewrite item_neg by (rewrite ?nrows_dot, ?ncols_dot; assumption).
    rewrite item_dot by assumption.
    rewrite <- sum_n_opp.
    apply sum_n_ext. intros l Hl.
    rewrite item_neg by assumption. ring.
Qed.

Lemma dot_scale_l c M Q :
  (0 < nrows M)%nat -> dot (scale c M) Q = scale c (dot M Q).
Proof.
  intros Hpos.
  apply (array_ext (nrows M) (ncols Q)).
  - pose proof (has_shape_dot (scale c M) Q) as H.
    now rewrite nrows_scale in H.
  - pose proof (has_shape_scale c (dot M Q)) as H.
    now rewrite nrows_dot, ncols_dot in H.
  - intros i j Hi Hj.
    rewrite item_dot by (rewrite ?nrows_scale; assumption).
    rewrite ncols_scale by assumption.
    rewrite item_scale by (rewrite ?nrows_dot, ?ncols_dot; assumption).
    rewrite item_dot by assumption.
    rewrite <- sum_n_mult_l.
    apply sum_n_ext. intros l Hl.
    rewrite item_scale by assumption. ring.
Qed.

Lemma dot_neg_r M Q :
  (0 < nrows M)%nat -> (0 < nrows Q)%nat -> ncols M = nrows Q ->
  dot M (neg Q) = neg (dot M Q).
Proof.
  intros Hpos HQ Hc.
  apply (array_ext (nrows M) (ncols Q)).
  - pose proof (has_shape_dot M (neg Q)) as H.
    now rewrite ncols_neg in H.
  - pose proof (has_shape_neg (dot M Q)) as H.
    now rewrite nrows_dot, ncols_dot in H.
  - intros i j Hi Hj.
    rewrite item_dot by (rewrite ?ncols_neg; assumption).
    rewrite item_neg by (rewrite ?nrows_dot, ?ncols_dot; assumption).
    rewrite item_dot by assumption.
    rewrite <- sum_n_opp.
    apply sum_n_ext. intros l Hl.
    rewrite item_neg by (rewrite <- ?Hc; assumption). ring.
Qed.

Lemma dot_sub_r M P Q :
  (0 < nrows M)%nat -> (0 < nrows P)%nat -> ncols M = nrows P ->
  nrows Q = nrows P -> ncols Q = ncols P ->
  dot M (sub P Q) = sub (dot M P) (dot M Q).
Proof.
  intros Hpos HP Hc Hr Hc'.
  apply (array_ext (nrows M) (ncols P)).
  - pose proof (has_shape_dot M (sub P Q)) as H.
    now rewrite ncols_sub in H.
  - pose proof (has_shape_sub (dot M P) (dot M Q)) as H.
    now rewrite nrows_dot, ncols_dot in H.
  - intros i j Hi Hj.
    rewrite item_dot by (rewrite ?ncols_sub; assumption).
    rewrite item_sub by (rewrite ?nrows_dot, ?ncols_dot; assumption).
    rewrite !item_dot by (rewrite ?Hc'; assumption).
    rewrite <- sum_n_minus.
    apply sum_n_ext. intros l Hl.
    rewrite item_sub by (rewrite <- ?Hc; assumption). ring.
Qed.

End Linearity.

(** ** Reproduction of the quadratic basis *)

Lemma has_shape_eq m n m' n' M :
  has_shape m' n' M -> m' = m -> n' = n -> has_shape m n M.
Proof. now intros H <- <-. Qed.

Ltac dimok := dims; first [reflexivity | lia | assumption].

Ltac shaped :=
  eapply has_shape_eq;
  [ first [ apply has_shape_add | apply has_shape_sub
          | apply has_shape_neg | apply has_shape_scale
          | apply has_shape_dot ]
  | dimok | dimok ].

Ltac entries :=
  repeat first
    [ rewrite item_add by dimok
    | rewrite item_sub by dimok
    | rewrite item_neg by dimok
    | rewrite item_scale by dimok ].

(** The algebra behind the derivatives of the inverse, for arbitrary
    arrays of the right shapes: [IA] a left inverse of [A]. *)

Section InverseAlgebra.
Local Open Scope R_scope.

Variables IA A : matrix.

Hypothesis IA_r : nrows IA = 6%nat.
Hypothesis IA_c : ncols IA = 6%nat.
Hypothesis A_r : nrows A = 6%nat.
Hypothesis A_c : ncols A = 6%nat.
Hypothesis IA_A : dot IA A = eye 6.

#[local] Hint Rewrite IA_r IA_c A_r A_c : mls_dims.

Lemma row_IA_A X : has_shape 1 6 X -> dot (dot X IA) A = X.
Proof.
  intros HX.
  pose proof (has_shape_nrows _ _ _ HX) as Hr.
  assert (Hc : ncols X = 6%nat) by (apply (has_shape_ncols 1 6); [exact HX|lia]).
  rewrite dot_assoc by dimok.
  rewrite IA_A.
  apply (dot_eye_r 6 1); [assumption|lia|lia].
Qed.

Lemma square_IA_A X Y :
  nrows X = 6%nat -> ncols X = 6%nat -> nrows Y = 6%nat -> ncols Y = 6%nat ->
  dot (dot (dot X Y) IA) A = dot X Y.
Proof.
  intros HXr HXc HYr HYc.
  rewrite (dot_assoc (dot X Y)) by dimok.
  rewrite IA_A.
  apply (dot_eye_r 6 6); [|lia|lia].
  eapply has_shape_eq; [apply has_shape_dot|assumption|assumption].
Qed.

Section First.

Variable Ax : matrix.
Hypothesis Ax_r : nrows Ax = 6%nat.
Hypothesis Ax_c : ncols Ax = 6%nat.

#[local] Hint Rewrite Ax_r Ax_c : mls_dims.

(** [IAx . A = - IA . Ax] *)
Lemma d1_A : dot (neg (dot (dot IA Ax) IA)) A = neg (dot IA Ax).
Proof.
  rewrite dot_neg_l by dimok.
  now rewrite square_IA_A.
Qed.

Lemma d1_Ax :
  dot (neg (dot (dot IA Ax) IA)) Ax = neg (dot (dot IA Ax) (dot IA Ax)).
Proof.
  rewrite dot_neg_l by dimok.
  now rewrite (dot_assoc (dot IA Ax)) by dimok.
Qed.

Section Second.

Variable Axx : matrix.
Hypothesis Axx_r : nrows Axx = 6%nat.
Hypothesis Axx_c : ncols Axx = 6%nat.

#[local] Hint Rewrite Axx_r Axx_c : mls_dims.

(** [IAxx . A = 2 (IA . Ax)^2 - IA . Axx] *)
Lemma d2_A :
  dot (sub (sub (neg (dot (dot (neg (dot (dot IA Ax) IA)) Ax) IA))
                (dot (dot IA Axx) IA))
           (dot (dot IA Ax) (neg (dot (dot IA Ax) IA)))) A =
  sub (sub (dot (dot IA Ax) (dot IA Ax)) (dot IA Axx))
      (neg (dot (dot IA Ax) (dot IA Ax))).
Proof.
  rewrite !dot_sub_l by dimok.
  rewrite (dot_neg_l (dot (dot _ Ax) IA)) by dimok.
  rewrite (dot_assoc (dot IA Ax) (neg _) A) by dimok.
  rewrite d1_A.
  rewrite (dot_assoc (dot (neg _) Ax) IA A) by dimok.
  rewrite IA_A.
  rewrite (dot_eye_r 6 6 (dot (neg _) Ax)) by (first [shaped | lia]).
  rewrite d1_Ax.
  rewrite (square_IA_A IA Axx) by assumption.
  rewrite (dot_neg_r (dot IA Ax)) by dimok.
  apply (array_ext 6 6); [shaped|shaped|].
  intros a b Ha Hb. entries. ring.
Qed.

End Second.
End First.
End InverseAlgebra.

(** The algebra behind the rows: [BT], [BxT], [BxxT] the transposed
    weighted bases and [PT] the transposed basis, so that [BT . PT = A] and
    so on. *)

Section RowAlgebra.
Local Open Scope R_scope.

Variable k : nat.
Variables IA A BT PT w : matrix.

Hypothesis k_pos : (0 < k)%nat.
Hypothesis IA_r : nrows IA = 6%nat.
Hypothesis IA_c : ncols IA = 6%nat.
Hypothesis A_r : nrows A = 6%nat.
Hypothesis A_c : ncols A = 6%nat.
Hypothesis BT_r : nrows BT = 6%nat.
Hypothesis BT_c : ncols BT = k.
Hypothesis PT_r : nrows PT = k.
Hypothesis PT_c : ncols PT = 6%nat.
Hypothesis w_shape : has_shape 1 6 w.

Hypothesis BT_PT : dot BT PT = A.
Hypothesis IA_A : dot IA A = eye 6.

Lemma w_r : nrows w = 1%nat.
Proof. exact (has_shape_nrows _ _ _ w_shape). Qed.

Lemma w_c : ncols w = 6%nat.
Proof. apply (has_shape_ncols 1 6); [exact w_shape|lia]. Qed.

#[local] Hint Rewrite IA_r IA_c A_r A_c BT_r BT_c PT_r PT_c w_r w_c
  : mls_dims.

(** a row [X] through [BT] and [PT] *)
Lemma through X :
  nrows X = 1%nat -> ncols X = 6%nat -> dot (dot X BT) PT = dot X A.
Proof.
  intros Hr Hc. rewrite dot_assoc by dimok. now rewrite BT_PT.
Qed.

(** the value row *)
Lemma value_row : dot (dot (dot w IA) BT) PT = w.
Proof.
  rewrite through by dimok.
  now apply (row_IA_A IA A).
Qed.

Section RowFirst.

Variables Ax BxT p1 : matrix.

Hypothesis Ax_r : nrows Ax = 6%nat.
Hypothesis Ax_c : ncols Ax = 6%nat.
Hypothesis BxT_r : nrows BxT = 6%nat.
Hypothesis BxT_c : ncols BxT = k.
Hypothesis p1_shape : has_shape 1 6 p1.
Hypothesis BxT_PT : dot BxT PT = Ax.

Lemma p1_r : nrows p1 = 1%nat.
Proof. exact (has_shape_nrows _ _ _ p1_shape). Qed.

Lemma p1_c : ncols p1 = 6%nat.
Proof. apply (has_shape_ncols 1 6); [exact p1_shape|lia]. Qed.

#[local] Hint Rewrite Ax_r Ax_c BxT_r BxT_c p1_r p1_c : mls_dims.

Lemma through_x X :
  nrows X = 1%nat -> ncols X = 6%nat -> dot (dot X BxT) PT = dot X Ax.
Proof.
  intros Hr Hc. rewrite dot_assoc by dimok. now rewrite BxT_PT.
Qed.

(** the first-derivative row *)
Lemma d1_row :
  dot (add (dot (add (dot p1 IA) (dot w (neg (dot (dot IA Ax) IA)))) BT)
           (dot (dot w IA) BxT)) PT = p1.
Proof.
  rewrite dot_add_l by dimok.
  rewrite through, through_x by dimok.
  rewrite dot_add_l by dimok.
  rewrite (row_IA_A IA A) by assumption.
  rewrite !(dot_assoc w) by dimok.
  rewrite (d1_A IA A) by assumption.
  rewrite dot_neg_r by dimok.
  apply (array_ext 1 6); [shaped|assumption|].
  intros a b Ha Hb. entries. ring.
Qed.

Section RowSecond.

Variables Axx BxxT p2 : matrix.

Hypothesis Axx_r : nrows Axx = 6%nat.
Hypothesis Axx_c : ncols Axx = 6%nat.
Hypothesis BxxT_r : nrows BxxT = 6%nat.
Hypothesis BxxT_c : ncols BxxT = k.
Hypothesis p2_shape : has_shape 1 6 p2.
Hypothesis BxxT_PT : dot BxxT PT = Axx.

Lemma p2_r : nrows p2 = 1%nat.
Proof. exact (has_shape_nrows _ _ _ p2_shape). Qed.

Lemma p2_c : ncols p2 = 6%nat.
Proof. apply (has_shape_ncols 1 6); [exact p2_shape|lia]. Qed.

#[local] Hint Rewrite Axx_r Axx_c BxxT_r BxxT_c p2_r p2_c : mls_dims.

Lemma through_xx X :
  nrows X = 1%nat -> ncols X = 6%nat -> dot (dot X BxxT) PT = dot X Axx.
Proof.
  intros Hr Hc. rewrite dot_assoc by dimok. now rewrite BxxT_PT.
Qed.

(** the second-derivative row, as written in the cell *)
Lemma d2_row :
  dot (add (add
         (dot (add (add (dot p2 IA)
                        (scale 2 (dot p1 (neg (dot (dot IA Ax) IA)))))
                   (dot w (sub (sub (neg (dot (dot (neg (dot (dot IA Ax) IA))
                                                    Ax) IA))
                                    (dot (dot IA Axx) IA))
                               (dot (dot IA Ax) (neg (dot (dot IA Ax) IA))))))
              BT)
         (dot (add (add (dot w (neg (dot (dot IA Ax) IA)))
                        (scale 2 (dot p1 IA)))
                   (dot w (neg (dot (dot IA Ax) IA))))
              BxT))
       (dot (dot w IA) BxxT)) PT = p2.
Proof.
  rewrite !dot_add_l by dimok.
  rewrite !dot_scale_l by dimok.
  rewrite !through, !through_x, !through_xx by dimok.
  rewrite ?dot_scale_l by dimok.
  rewrite (row_IA_A IA A) by assumption.
  rewrite !(dot_assoc w), !(dot_assoc p1) by dimok.
  rewrite (d1_A IA A), (d2_A IA A), (d1_Ax IA A) by assumption.
  rewrite !dot_sub_r by dimok.
  rewrite !dot_neg_r by dimok.
  apply (array_ext 1 6); [shaped|assumption|].
  intros a b Ha Hb. entries. ring.
Qed.

End RowSecond.
End RowFirst.
End RowAlgebra.


Section Reproduction.
Local Open Scope R_scope.

Variable pinv : matrix -> matrix.
Variable nsd : list point.
Variable dist_i : vector.
Variable a0 : R.

Hypothesis nonempty : (0 < length nsd)%nat.
Hypothesis same_length : length dist_i = length nsd.
Hypothesis shape_pinv : has_shape 6 6 (pinv (A nsd dist_i a0)).
Hypothesis left_inverse :
  dot (IA pinv nsd dist_i a0) (A nsd dist_i a0) = eye 6.

#[local] Hint Rewrite nrows_IA ncols_IA nrows_A ncols_A nrows_Ax ncols_Ax
  nrows_Axx ncols_Axx nrows_Ay ncols_Ay nrows_Ayy ncols_Ayy
  nrows_B ncols_B nrows_Bx ncols_Bx nrows_Bxx ncols_Bxx
  nrows_By ncols_By nrows_Byy ncols_Byy
  nrows_IAx ncols_IAx nrows_IAy ncols_IAy
  nrows_IAxx ncols_IAxx nrows_IAyy ncols_IAyy using assumption : mls_dims.

(** [B_D^T . p_^T] is the moment matrix of the weights [D] *)
Lemma weighted_transpose_moment D :
  length D = length nsd ->
  dot (transpose (dot (diag D) (transpose (p_ nsd)))) (transpose (p_ nsd)) =
  dot (p_ nsd) (dot (diag D) (transpose (p_ nsd))).
Proof.
  intros HD.
  pose proof (nrows_weighted nsd D HD) as Hr.
  pose proof (ncols_weighted nsd nonempty D HD) as Hc.
  apply (array_ext 6 6).
  - eapply has_shape_eq; [apply has_shape_dot| |].
    + now rewrite nrows_transpose.
    + rewrite ncols_transpose by (rewrite ncols_p_; lia). reflexivity.
  - now apply has_shape_moment.
  - intros a b Ha Hb.
    rewrite item_dot_transpose.
    2: { rewrite nrows_transpose, Hc. exact Ha. }
    2: { exact Hb. }
    2: { rewrite ncols_transpose by (rewrite Hc; lia).
         now rewrite Hr, ncols_p_. }
    2: { rewrite ncols_p_. exact nonempty. }
    rewrite item_moment by assumption.
    rewrite ncols_p_. apply sum_n_ext. intros j Hj.
    rewrite item_transpose by (rewrite ?Hr, ?Hc; assumption).
    rewrite item_weighted by assumption. ring.
Qed.

(** testing a flattened row on basis function [b] *)
Lemma test_row M b :
  nrows M = 1%nat -> ncols M = length nsd -> (b < 6)%nat ->
  sum_n (length nsd)
    (fun j => nth j (ravel (transpose M)) 0 * item (p_ nsd) b j) =
  item (dot M (transpose (p_ nsd))) 0 b.
Proof.
  intros Hr Hc Hb.
  rewrite ravel_transpose_row by assumption.
  rewrite item_dot_transpose
    by (rewrite ?Hr, ?ncols_p_, ?nrows_p_; try assumption; lia).
  rewrite Hc, ncols_p_.
  apply sum_n_ext. intros j Hj.
  now rewrite nth_map_seq.
Qed.

Lemma has_selector (s : matrix) :
  length s = 6%nat -> Forall (fun r => length r = 1%nat) s ->
  has_shape 1 6 (transpose s).
Proof.
  intros Hs Hr.
  eapply has_shape_eq; [apply has_shape_fromfunction| |].
  - unfold ncols. destruct s as [|r s]; [discriminate|].
    now inversion Hr.
  - exact Hs.
Qed.

Lemma has_shape_w_ : has_shape 1 6 w_.
Proof. apply has_selector; [reflexivity|repeat constructor]. Qed.
Lemma has_shape_pdx_ : has_shape 1 6 pdx_.
Proof. apply has_selector; [reflexivity|repeat constructor]. Qed.
Lemma has_shape_pdxx_ : has_shape 1 6 pdxx_.
Proof. apply has_selector; [reflexivity|repeat constructor]. Qed.
Lemma has_shape_pdy_ : has_shape 1 6 pdy_.
Proof. apply has_selector; [reflexivity|repeat constructor]. Qed.
Lemma has_shape_pdyy_ : has_shape 1 6 pdyy_.
Proof. apply has_selector; [reflexivity|repeat constructor]. Qed.

Ltac leaf :=
  first [ assumption | exact has_shape_w_ | exact has_shape_pdx_
        | exact has_shape_pdxx_ | exact has_shape_pdy_
        | exact has_shape_pdyy_
        | apply weighted_transpose_moment;
          first [ now apply length_Dn' | now apply length_Dx
                | now apply length_Dxx | now apply length_Dy
                | now apply length_Dyy ]
        | dimok ].

Lemma item_selector_ (s : matrix) b :
  nrows s = 6%nat -> ncols s = 1%nat -> (b < 6)%nat ->
  item (transpose s) 0 b = item s b 0.
Proof.
  intros Hr Hc Hb. apply item_transpose; lia.
Qed.

Lemma reproduce_sf b :
  (b < 6)%nat ->
  sum_n (length nsd)
    (fun j => nth j (sf_row pinv nsd dist_i a0) 0 * item (p_ nsd) b j) =
  item w b 0.
Proof.
  intros Hb. unfold sf_row.
  rewrite test_row by dimok.
  rewrite value_row with (k := length nsd) (A := A nsd dist_i a0) by leaf.
  now apply item_selector_.
Qed.

Lemma reproduce_sfx b :
  (b < 6)%nat ->
  sum_n (length nsd)
    (fun j => nth j (sfx_row pinv nsd dist_i a0) 0 * item (p_ nsd) b j) =
  item pdx b 0.
Proof.
  intros Hb. unfold sfx_row.
  rewrite test_row by dimok.
  unfold IAx.
  rewrite d1_row with (k := length nsd) (A := A nsd dist_i a0)
                      (Ax := Ax nsd dist_i a0) by leaf.
  now apply item_selector_.
Qed.

Lemma reproduce_sfy b :
  (b < 6)%nat ->
  sum_n (length nsd)
    (fun j => nth j (sfy_row pinv nsd dist_i a0) 0 * item (p_ nsd) b j) =
  item pdy b 0.
Proof.
  intros Hb. unfold sfy_row.
  rewrite test_row by dimok.
  unfold IAy.
  rewrite d1_row with (k := length nsd) (A := A nsd dist_i a0)
                      (Ax := Ay nsd dist_i a0) by leaf.
  now apply item_selector_.
Qed.

Lemma reproduce_sfxx b :
  (b < 6)%nat ->
  sum_n (length nsd)
    (fun j => nth j (sfxx_row pinv nsd dist_i a0) 0 * item (p_ nsd) b j) =
  item pdxx b 0.
Proof.
  intros Hb. unfold sfxx_row.
  rewrite test_row by dimok.
  unfold IAxx, IAx.
  rewrite d2_row with (k := length nsd) (A := A nsd dist_i a0)
                      (Ax := Ax nsd dist_i a0) (Axx := Axx nsd dist_i a0)
    by leaf.
  now apply item_selector_.
Qed.

Lemma reproduce_sfyy b :
  (b < 6)%nat ->
  sum_n (length nsd)
    (fun j => nth j (sfyy_row pinv nsd dist_i a0) 0 * item (p_ nsd) b j) =
  item pdyy b 0.
Proof.
  intros Hb. unfold sfyy_row.
  rewrite test_row by dimok.
  unfold IAyy, IAy.
  rewrite d2_row with (k := length nsd) (A := A nsd dist_i a0)
                      (Ax := Ay nsd dist_i a0) (Axx := Ayy nsd dist_i a0)
    by leaf.
  now apply item_selector_.
Qed.

(** differentiating [IA . A = I] once and twice *)
Lemma IAx_exact a b :
  (a < 6)%nat -> (b < 6)%nat ->
  item (dot (IAx pinv nsd dist_i a0) (A nsd dist_i a0)) a b
  + item (dot (IA pinv nsd dist_i a0) (Ax nsd dist_i a0)) a b = 0.
Proof.
  intros Ha Hb. unfold IAx.
  rewrite (d1_A _ (A nsd dist_i a0)) by leaf.
  entries. ring.
Qed.

Lemma IAy_exact a b :
  (a < 6)%nat -> (b < 6)%nat ->
  item (dot (IAy pinv nsd dist_i a0) (A nsd dist_i a0)) a b
  + item (dot (IA pinv nsd dist_i a0) (Ay nsd dist_i a0)) a b = 0.
Proof.
  intros Ha Hb. unfold IAy.
  rewrite (d1_A _ (A nsd dist_i a0)) by leaf.
  entries. ring.
Qed.

Lemma IAxx_exact a b :
  (a < 6)%nat -> (b < 6)%nat ->
  item (dot (IAxx pinv nsd dist_i a0) (A nsd dist_i a0)) a b
  + 2 * item (dot (IAx pinv nsd dist_i a0) (Ax nsd dist_i a0)) a b
  + item (dot (IA pinv nsd dist_i a0) (Axx nsd dist_i a0)) a b = 0.
Proof.
  intros Ha Hb. unfold IAxx, IAx.
  rewrite (d2_A _ (A nsd dist_i a0)) by leaf.
  rewrite (d1_Ax _ (A nsd dist_i a0)) by leaf.
  entries. ring.
Qed.

Lemma IAyy_exact a b :
  (a < 6)%nat -> (b < 6)%nat ->
  item (dot (IAyy pinv nsd dist_i a0) (A nsd dist_i a0)) a b
  + 2 * item (dot (IAy pinv nsd dist_i a0) (Ay nsd dist_i a0)) a b
  + item (dot (IA pinv nsd dist_i a0) (Ayy nsd dist_i a0)) a b = 0.
Proof.
  intros Ha Hb. unfold IAyy, IAy.
  rewrite (d2_A _ (A nsd dist_i a0)) by leaf.
  rewrite (d1_Ax _ (A nsd dist_i a0)) by leaf.
  entries. ring.
Qed.

(** a row that reproduces the basis as the selector [s] sends a quadratic
    to the selected combination of its coefficients *)
Lemma reproduce_quadratic (row : vector) (s : matrix) (c : vector) :
  (forall b, (b < 6)%nat ->
     sum_n (length nsd) (fun j => nth j row 0 * item (p_ nsd) b j) =
     item s b 0) ->
  sum_n (length nsd) (fun j => nth j row 0 * quadratic c nsd j) =
  sum_n 6 (fun b => nth b c 0 * item s b 0).
Proof.
  intros Hrow. unfold quadratic, md.
  rewrite (sum_n_ext _ _
    (fun j => sum_n 6
       (fun b => nth b c 0 * (nth j row 0 * item (p_ nsd) b j)))).
  2: { intros j Hj. rewrite <- sum_n_mult_l.
       apply sum_n_ext. intros b Hb. ring. }
  rewrite sum_n_swap.
  apply sum_n_ext. intros b Hb.
  rewrite sum_n_mult_l. now rewrite Hrow.
Qed.

End Reproduction.

(** ** Consistency of the rows: quadratics are reproduced *)

Section Consistency.
Local Open Scope R_scope.

Variable pinv : matrix -> matrix.
Variable nsd : list point.
Variable dist_i : vector.
Variable a0 : R.

Lemma pinv_ready :
  (0 < length nsd)%nat ->
  length dist_i = length nsd ->
  Moore_Penrose (A nsd dist_i a0) (pinv (A nsd dist_i a0)) ->
  invertible 6 (A nsd dist_i a0) ->
  has_shape 6 6 (pinv (A nsd dist_i a0)) /\
  dot (IA pinv nsd dist_i a0) (A nsd dist_i a0) = eye 6.
Proof.
  intros Hk Hlen HMP Hinv.
  assert (HA : has_shape 6 6 (A nsd dist_i a0))
    by (apply has_shape_moment; [assumption|now apply length_Dn']).
  split.
  - destruct HMP as [H _].
    now rewrite (has_shape_nrows _ _ _ HA),
                (has_shape_ncols 6 6 _ HA) in H by lia.
  - unfold IA. apply (pinv_left_inverse 6); try assumption; lia.
Qed.

(** X1.  When the moment matrix of a point is invertible, the row of
    shape-function values reproduces every quadratic on the local basis:
    weighting the values of the quadratic at the neighbours by the row gives
    its value at the evaluation point, the coefficient of the constant. *)
Theorem value_reproduced (c : vector) :
  (0 < length nsd)%nat ->
  length dist_i = length nsd ->
  Moore_Penrose (A nsd dist_i a0) (pinv (A nsd dist_i a0)) ->
  invertible 6 (A nsd dist_i a0) ->
  sum_n (length nsd)
    (fun j => nth j (sf_row pinv nsd dist_i a0) 0 * quadratic c nsd j) =
  nth 0 c 0.
Proof.
  intros Hk Hlen HMP Hinv.
  destruct (pinv_ready Hk Hlen HMP Hinv) as [Hshape Hleft].
  rewrite (reproduce_quadratic nsd _ w)
    by (intros b Hb; now apply reproduce_sf).
  rewrite sum_n_6. unfold item. cbn [w nth]. ring.
Qed.

(** X2.  Under the same condition the rows of x- and y-derivatives send
    every quadratic on the local basis to its first derivatives at the
    evaluation point, the coefficients of [x - x0] and [y - y0]. *)
Theorem gradient_reproduced (c : vector) :
  (0 < length nsd)%nat ->
  length dist_i = length nsd ->
  Moore_Penrose (A nsd dist_i a0) (pinv (A nsd dist_i a0)) ->
  invertible 6 (A nsd dist_i a0) ->
  sum_n (length nsd)
    (fun j => nth j (sfx_row pinv nsd dist_i a0) 0 * quadratic c nsd j) =
  nth 1 c 0 /\
  sum_n (length nsd)
    (fun j => nth j (sfy_row pinv nsd dist_i a0) 0 * quadratic c nsd j) =
  nth 2 c 0.
Proof.
  intros Hk Hlen HMP Hinv.
  destruct (pinv_ready Hk Hlen HMP Hinv) as [Hshape Hleft].
  rewrite (reproduce_quadratic nsd _ pdx)
    by (intros b Hb; now apply reproduce_sfx).
  rewrite (reproduce_quadratic nsd _ pdy)
    by (intros b Hb; now apply reproduce_sfy).
  rewrite !sum_n_6. unfold item. cbn [pdx pdy nth]. split; ring.
Qed.

(** X3.  Under the same condition the rows of second derivatives, computed
    by the expansion with [w^T.IAx] twice, send every quadratic on the local
    basis to its second derivatives: twice the coefficients of [(x - x0)^2]
    and [(y - y0)^2]. *)
Theorem second_derivatives_reproduced (c : vector) :
  (0 < length nsd)%nat ->
  length dist_i = length nsd ->
  Moore_Penrose (A nsd dist_i a0) (pinv (A nsd dist_i a0)) ->
  invertible 6 (A nsd dist_i a0) ->
  sum_n (length nsd)
    (fun j => nth j (sfxx_row pinv nsd dist_i a0) 0 * quadratic c nsd j) =
  2 * nth 3 c 0 /\
  sum_n (length nsd)
    (fun j => nth j (sfyy_row pinv nsd dist_i a0) 0 * quadratic c nsd j) =
  2 * nth 5 c 0.
Proof.
  intros Hk Hlen HMP Hinv.
  destruct (pinv_ready Hk Hlen HMP Hinv) as [Hshape Hleft].
  rewrite (reproduce_quadratic nsd _ pdxx)
    by (intros b Hb; now apply reproduce_sfxx).
  rewrite (reproduce_quadratic nsd _ pdyy)
    by (intros b Hb; now apply reproduce_sfyy).
  rewrite !sum_n_6. unfold item. cbn [pdxx pdyy nth]. split; ring.
Qed.

End Consistency.

Section InverseConsistency.
Local Open Scope R_scope.

Variable pinv : matrix -> matrix.
Variable nsd : list point.
Variable dist_i : vector.
Variable a0 : R.

(** X4.  When the moment matrix is invertible, [IAx] and [IAxx] are what
    differentiating [IA . A = I] once and twice gives:
    [IAx.A + IA.Ax = 0] and [IAxx.A + 2 IAx.Ax + IA.Axx = 0], and likewise
    in [y]. *)
Theorem inverse_derivatives_exact (a b : nat) :
  (0 < length nsd)%nat ->
  length dist_i = length nsd ->
  Moore_Penrose (A nsd dist_i a0) (pinv (A nsd dist_i a0)) ->
  invertible 6 (A nsd dist_i a0) ->
  (a < 6)%nat -> (b < 6)%nat ->
  let A := A nsd dist_i a0 in
  let IA := IA pinv nsd dist_i a0 in
  let IAx := IAx pinv nsd dist_i a0 in
  let IAy := IAy pinv nsd dist_i a0 in
  item (dot IAx A) a b + item (dot IA (Ax nsd dist_i a0)) a b = 0 /\
  item (dot (IAxx pinv nsd dist_i a0) A) a b
  + 2 * item (dot IAx (Ax nsd dist_i a0)) a b
  + item (dot IA (Axx nsd dist_i a0)) a b = 0 /\
  item (dot IAy A) a b + item (dot IA (Ay nsd dist_i a0)) a b = 0 /\
  item (dot (IAyy pinv nsd dist_i a0) A) a b
  + 2 * item (dot IAy (Ay nsd dist_i a0)) a b
  + item (dot IA (Ayy nsd dist_i a0)) a b = 0.
Proof.
  intros Hk Hlen HMP Hinv Ha Hb. cbn zeta.
  destruct (pinv_ready pinv nsd dist_i a0 Hk Hlen HMP Hinv)
    as [Hshape Hleft].
  split; [|split; [|split]].
  - now apply IAx_exact.
  - now apply IAxx_exact.
  - now apply IAy_exact.
  - now apply IAyy_exact.
Qed.

End InverseConsistency.

(** ** The moment matrices *)

Section Moments.
Local Open Scope R_scope.

Variable nsd : list point.
Variable D : vector.
Hypothesis nonempty : (0 < length nsd)%nat.
Hypothesis length_D : length D = length nsd.

#[local] Abbreviation M := (dot (p_ nsd) (dot (diag D) (transpose (p_ nsd)))).

Lemma moment_sym a b :
  (a < 6)%nat -> (b < 6)%nat -> item M a b = item M b a.
Proof.
  intros Ha Hb.
  rewrite !item_moment by assumption.
  apply sum_n_ext. intros j Hj. ring.
Qed.

(** the quadratic form of a moment matrix is the weighted sum of the
    squares of the combined basis *)
Lemma moment_form (v : vector) :
  sum_n 6 (fun a => sum_n 6 (fun b => nth a v 0 * item M a b * nth b v 0)) =
  sum_n (length nsd)
    (fun j => nth j D 0 * sum_n 6 (fun a => nth a v 0 * item (p_ nsd) a j) ^ 2).
Proof.
  rewrite (sum_n_ext _ _
    (fun a => sum_n (length nsd)
       (fun j => sum_n 6
          (fun b => nth j D 0 * (nth a v 0 * item (p_ nsd) a j)
                    * (nth b v 0 * item (p_ nsd) b j))))).
  2: { intros a Ha. rewrite <- sum_n_swap.
       apply sum_n_ext. intros b Hb.
       rewrite item_moment by assumption.
       rewrite <- sum_n_mult_l, <- sum_n_mult_r.
       apply sum_n_ext. intros j Hj. ring. }
  rewrite sum_n_swap.
  apply sum_n_ext. intros j Hj.
  set (S := sum_n 6 (fun b => nth b v 0 * item (p_ nsd) b j)).
  transitivity
    (sum_n 6 (fun a => nth j D 0 * S * (nth a v 0 * item (p_ nsd) a j))).
  - apply sum_n_ext. intros a Ha.
    rewrite sum_n_mult_l. fold S. ring.
  - rewrite sum_n_mult_l. fold S. ring.
Qed.

End Moments.

Section MomentClaims.
Local Open Scope R_scope.

Variable nsd : list point.
Variable dist_i : vector.
Variable a0 : R.

(** X5.  The moment matrix [A] and its derivatives [Ax], [Axx], [Ay], [Ayy]
    are symmetric. *)
Theorem moments_symmetric (a b : nat) :
  (0 < length nsd)%nat ->
  length dist_i = length nsd ->
  (a < 6)%nat -> (b < 6)%nat ->
  item (A nsd dist_i a0) a b = item (A nsd dist_i a0) b a /\
  item (Ax nsd dist_i a0) a b = item (Ax nsd dist_i a0) b a /\
  item (Axx nsd dist_i a0) a b = item (Axx nsd dist_i a0) b a /\
  item (Ay nsd dist_i a0) a b = item (Ay nsd dist_i a0) b a /\
  item (Ayy nsd dist_i a0) a b = item (Ayy nsd dist_i a0) b a.
Proof.
  intros Hk Hlen Ha Hb.
  split; [|split; [|split; [|split]]]; apply moment_sym;
    first [ assumption | now apply length_Dn' | now apply length_Dx
          | now apply length_Dxx | now apply length_Dy
          | now apply length_Dyy ].
Qed.

Lemma sum_n_nonneg n f :
  (forall i, (i < n)%nat -> 0 <= f i) -> 0 <= sum_n n f.
Proof.
  induction n as [|n IH]; intros H.
  - cbn. lra.
  - rewrite sum_n_S.
    apply Rplus_le_le_0_compat; [apply IH; intros; apply H; lia|apply H; lia].
Qed.

(** X6.  The quadratic form of the moment matrix [A] is the sum over the
    neighbours of the weight times the square of the combined basis, so [A]
    is positive semidefinite. *)
Theorem moment_positive_semidefinite (v : vector) :
  (0 < length nsd)%nat ->
  length dist_i = length nsd ->
  let form :=
    sum_n 6 (fun a =>
      sum_n 6 (fun b => nth a v 0 * item (A nsd dist_i a0) a b * nth b v 0)) in
  form =
    sum_n (length nsd)
      (fun j => nth j (Dn dist_i a0) 0 * quadratic v nsd j ^ 2) /\
  0 <= form.
Proof.
  intros Hk Hlen form.
  assert (E : form =
              sum_n (length nsd)
                (fun j => nth j (Dn dist_i a0) 0 * quadratic v nsd j ^ 2)).
  { unfold form, A. apply moment_form; [assumption|now apply length_Dn']. }
  split; [exact E|].
  rewrite E. apply sum_n_nonneg. intros j Hj.
  rewrite (nth_Dn nsd) by assumption.
  apply Rmult_le_pos; [left; apply exp_pos|apply pow2_ge_0].
Qed.

End MomentClaims.

(** ** The kernel arrays as derivatives of the weight *)

Section KernelDerivatives.
Local Open Scope R_scope.

Lemma derivable_pt_lim_ext f g x l :
  (forall t, f t = g t) -> derivable_pt_lim f x l -> derivable_pt_lim g x l.
Proof.
  intros E H eps Heps.
  destruct (H eps Heps) as [delta Hd].
  exists delta. intros h Hh Hlt.
  rewrite <- !E. now apply Hd.
Qed.

Lemma euclidean_sqr p q :
  euclidean p q ^ 2 = (p.1 - q.1) ^ 2 + (p.2 - q.2) ^ 2.
Proof.
  unfold euclidean.
  replace (sqrt ((p.1 - q.1) ^ 2 + (p.2 - q.2) ^ 2) ^ 2)
    with (sqrt ((p.1 - q.1) ^ 2 + (p.2 - q.2) ^ 2)
          * sqrt ((p.1 - q.1) ^ 2 + (p.2 - q.2) ^ 2)) by ring.
  apply sqrt_sqrt.
  apply Rplus_le_le_0_compat; apply pow2_ge_0.
Qed.


Lemma gauss_d1 a0 u c t :
  derivable_pt_lim (gauss a0 u c) t
    (-2 / a0 ^ 2 * (t - u) * gauss a0 u c t).
Proof.
  unfold gauss.
  set (g := fun t : R => - (((t - u) ^ 2 + c) / a0 ^ 2)).
  assert (Hg : derivable_pt_lim g t (-2 / a0 ^ 2 * (t - u))).
  { unfold g.
    apply (derivable_pt_lim_ext
             (fun t => (- / a0 ^ 2) * ((t - u) * (t - u) + c))).
    - intros s. unfold Rdiv. ring.
    - replace (-2 / a0 ^ 2 * (t - u))
        with (- / a0 ^ 2 * ((1 * (t - u) + (t - u) * 1) + 0))
        by (unfold Rdiv; ring).
      apply derivable_pt_lim_scal.
      apply (derivable_pt_lim_plus (fun t => (t - u) * (t - u))
                                   (fun _ => c)).
      + apply (derivable_pt_lim_mult (fun t => t - u) (fun t => t - u)).
        * replace 1 with (1 - 0) by ring.
          apply (derivable_pt_lim_minus id (fun _ => u));
            [apply derivable_pt_lim_id|apply derivable_pt_lim_const].
        * replace 1 with (1 - 0) by ring.
          apply (derivable_pt_lim_minus id (fun _ => u));
            [apply derivable_pt_lim_id|apply derivable_pt_lim_const].
      + apply derivable_pt_lim_const. }
  replace (-2 / a0 ^ 2 * (t - u) * exp (- (((t - u) ^ 2 + c) / a0 ^ 2)))
    with (exp (g t) * (-2 / a0 ^ 2 * (t - u))) by (unfold g; ring).
  apply (derivable_pt_lim_comp g exp t (-2 / a0 ^ 2 * (t - u)) (exp (g t)));
    [exact Hg|apply derivable_pt_lim_exp].
Qed.

Lemma gauss_d2 a0 u c t :
  a0 <> 0 ->
  derivable_pt_lim (fun t => -2 / a0 ^ 2 * (t - u) * gauss a0 u c t) t
    (-2 / a0 ^ 4 * (a0 ^ 2 - 2 * (t - u) ^ 2) * gauss a0 u c t).
Proof.
  intros Ha.
  replace (-2 / a0 ^ 4 * (a0 ^ 2 - 2 * (t - u) ^ 2) * gauss a0 u c t)
    with (-2 / a0 ^ 2 * 1 * gauss a0 u c t
          + -2 / a0 ^ 2 * (t - u)
            * (-2 / a0 ^ 2 * (t - u) * gauss a0 u c t))
    by (field; assumption).
  apply (derivable_pt_lim_mult (fun t => -2 / a0 ^ 2 * (t - u))
                               (gauss a0 u c)).
  - apply derivable_pt_lim_scal.
    replace 1 with (1 - 0) by ring.
    apply (derivable_pt_lim_minus id (fun _ => u));
      [apply derivable_pt_lim_id|apply derivable_pt_lim_const].
  - apply gauss_d1.
Qed.

Variable nsd : list point.
Variable a0 : R.
Variable j : nat.
Hypothesis a0_nonzero : a0 <> 0.
Hypothesis j_listed : (j < length nsd)%nat.

#[local] Abbreviation q := (nth j nsd (0, 0)).

Lemma weight_at (e : point) :
  nth j (Dn (map (euclidean e) nsd) a0) 0 =
  exp (- (((e.1 - q.1) ^ 2 + (e.2 - q.2) ^ 2) / a0 ^ 2)).
Proof.
  rewrite (nth_Dn nsd) by (rewrite ?length_map; auto).
  rewrite (nth_map_lt (euclidean e) nsd j (0, 0)) by assumption.
  f_equal. f_equal.
  replace ((euclidean e q / a0) ^ 2) with (euclidean e q ^ 2 / a0 ^ 2)
    by (field; assumption).
  now rewrite euclidean_sqr.
Qed.

Lemma weight_x t y0 :
  nth j (Dn (map (euclidean (t, y0)) nsd) a0) 0 =
  gauss a0 q.1 ((y0 - q.2) ^ 2) t.
Proof. now rewrite weight_at. Qed.

Lemma weight_y x0 t :
  nth j (Dn (map (euclidean (x0, t)) nsd) a0) 0 =
  gauss a0 q.2 ((x0 - q.1) ^ 2) t.
Proof.
  rewrite weight_at. unfold gauss. cbn [fst snd].
  f_equal. f_equal. f_equal. ring.
Qed.

End KernelDerivatives.

Section KernelDerivativeClaims.
Local Open Scope R_scope.

(** X7.  The kernel arrays are the derivatives of the weight with respect
    to the evaluation point.  With the nodes [nsd] held fixed, [a0 <> 0] and
    the weight of node [j] seen from the point [(t, y0)] being entry [j] of
    [Dn] for the distances from that point, the derivative of the weight in
    [t] at [t = x0] is entry [j] of [Dx], and the derivative of that
    derivative is entry [j] of [Dxx]; likewise in [y] with [Dy] and [Dyy]. *)
Theorem kernel_derivatives (nsd : list point) (a0 : R) (j : nat) :
  a0 <> 0 ->
  (j < length nsd)%nat ->
  let x0 := nsd00 nsd in
  let y0 := nsd01 nsd in
  let dist_i := map (euclidean (x0, y0)) nsd in
  let Wx := fun t => nth j (Dn (map (euclidean (t, y0)) nsd) a0) 0 in
  let Wy := fun t => nth j (Dn (map (euclidean (x0, t)) nsd) a0) 0 in
  (exists W' : R -> R,
     (forall t, derivable_pt_lim Wx t (W' t)) /\
     W' x0 = nth j (Dx nsd dist_i a0) 0 /\
     derivable_pt_lim W' x0 (nth j (Dxx nsd dist_i a0) 0)) /\
  (exists W' : R -> R,
     (forall t, derivable_pt_lim Wy t (W' t)) /\
     W' y0 = nth j (Dy nsd dist_i a0) 0 /\
     derivable_pt_lim W' y0 (nth j (Dyy nsd dist_i a0) 0)).
Proof.
  intros Ha Hj x0 y0 dist_i Wx Wy.
  assert (Hlen : length dist_i = length nsd)
    by (unfold dist_i; now rewrite length_map).
  set (q := nth j nsd (0, 0)).
  assert (Hd : nth j dist_i 0 = euclidean (x0, y0) q).
  { unfold dist_i.
    now rewrite (nth_map_lt (euclidean (x0, y0)) nsd j (0, 0)). }
  assert (He : exp (- (nth j dist_i 0 / a0) ^ 2) =
               exp (- (((x0 - q.1) ^ 2 + (y0 - q.2) ^ 2) / a0 ^ 2))).
  { rewrite Hd. f_equal. f_equal.
    replace ((euclidean (x0, y0) q / a0) ^ 2)
      with (euclidean (x0, y0) q ^ 2 / a0 ^ 2) by (field; assumption).
    now rewrite euclidean_sqr. }
  split.
  - exists (fun t => -2 / a0 ^ 2 * (t - q.1)
                     * gauss a0 q.1 ((y0 - q.2) ^ 2) t).
    split; [|split].
    + intros t.
      apply (derivable_pt_lim_ext (gauss a0 q.1 ((y0 - q.2) ^ 2))).
      * intros s. unfold Wx. symmetry. now apply weight_x.
      * apply gauss_d1.
    + unfold Dx.
      rewrite (nth_D1 nsd) by (unfold nsd_x; rewrite ?length_map; auto).
      rewrite nth_nsd_x, He. reflexivity.
    + unfold Dxx.
      rewrite (nth_D2 nsd) by (unfold nsd_x; rewrite ?length_map; auto).
      rewrite nth_nsd_x, He.
      now apply gauss_d2.
  - exists (fun t => -2 / a0 ^ 2 * (t - q.2)
                     * gauss a0 q.2 ((x0 - q.1) ^ 2) t).
    assert (He' : exp (- (nth j dist_i 0 / a0) ^ 2) =
                  gauss a0 q.2 ((x0 - q.1) ^ 2) y0).
    { rewrite He. unfold gauss. f_equal. f_equal. f_equal. ring. }
    split; [|split].
    + intros t.
      apply (derivable_pt_lim_ext (gauss a0 q.2 ((x0 - q.1) ^ 2))).
      * intros s. unfold Wy. symmetry. now apply weight_y.
      * apply gauss_d1.
    + unfold Dy.
      rewrite (nth_D1 nsd) by (unfold nsd_y; rewrite ?length_map; auto).
      rewrite nth_nsd_y, He'. reflexivity.
    + unfold Dyy.
      rewrite (nth_D2 nsd) by (unfold nsd_y; rewrite ?length_map; auto).
      rewrite nth_nsd_y, He'.
      now apply gauss_d2.
Qed.

End KernelDerivativeClaims.


(** ** The operators on quadratic fields *)

Section Fields.
Local Open Scope R_scope.

Variable pinv : matrix -> matrix.
Variable distnod : list point.
Variable nb : neighbors.
Hypothesis spec : kneighbors_spec n_neighbors distnod nb.

Variable i : nat.
Hypothesis i_node : (i < length distnod)%nat.

#[local] Abbreviation nsd := (nsd_at distnod nb i).
#[local] Abbreviation ix := (nth i (indices nb) []).
#[local] Abbreviation o := (nth i distnod (0, 0)).

Lemma length_ix : length ix = n_neighbors.
Proof.
  apply (length_indices_row distnod nb (spec_well_indexed _ _ spec)).
  exact i_node.
Qed.

Lemma length_nsd : length nsd = n_neighbors.
Proof. rewrite length_nsd_at. exact length_ix. Qed.

Lemma nsd00_node : nsd00 nsd = o.1.
Proof. unfold nsd00. now rewrite (spec_origin _ _ spec). Qed.

Lemma nsd01_node : nsd01 nsd = o.2.
Proof. unfold nsd01. now rewrite (spec_origin _ _ spec). Qed.

(** the field at neighbour [j] is the shifted quadratic on the local
    basis *)
Lemma field_local (c : vector) j :
  (j < n_neighbors)%nat ->
  quadratic_field c (nth (nth j ix 0%nat) distnod (0, 0)) =
  quadratic (shifted c o) nsd j.
Proof.
  intros Hj.
  assert (Hj' : (j < length nsd)%nat) by now rewrite length_nsd.
  unfold quadratic, md. rewrite sum_n_6.
  rewrite item_p_0, item_p_1, item_p_2, item_p_3, item_p_4, item_p_5
    by assumption.
  rewrite nsd00_node, nsd01_node.
  rewrite (nth_nsd_at _ _ spec) by assumption.
  unfold shifted, quadratic_field. cbn [nth]. ring.
Qed.

Variable row : list point -> vector -> R -> vector.
Hypothesis row_length :
  forall nsd d a, (0 < length nsd)%nat -> length d = length nsd ->
                  length (row nsd d a) = length nsd.

(** row [i] of an operator applied to nodal values *)
Lemma apply_row_operator (u : nat -> R) :
  apply_row (operator row distnod nb) i ix u =
  sum_n (length nsd)
    (fun j => nth j (row_at row distnod nb i) 0 * u (nth j ix 0%nat)).
Proof.
  unfold apply_row. rewrite length_nsd, length_ix.
  apply sum_n_ext. intros j Hj.
  destruct (neighbour_row_operator distnod nb row
              (spec_well_indexed _ _ spec) row_length i i_node
              (spec_NoDup _ _ spec i i_node)) as (_ & _ & H).
  now rewrite H.
Qed.

Lemma apply_row_field (c : vector) :
  apply_row (operator row distnod nb) i ix
    (fun m => quadratic_field c (nth m distnod (0, 0))) =
  sum_n (length nsd)
    (fun j => nth j (row_at row distnod nb i) 0
              * quadratic (shifted c o) nsd j).
Proof.
  rewrite apply_row_operator.
  apply sum_n_ext. intros j Hj.
  rewrite length_nsd in Hj.
  now rewrite field_local.
Qed.

End Fields.

Section FieldClaims.
Local Open Scope R_scope.

Variable pinv : matrix -> matrix.
Variable cond : matrix -> R.
Variable kneighbors : nat -> list point -> error + neighbors.
Variable distnod : list point.

(** X12.  The operators are exact on quadratic fields.  When the cell runs
    to its result and the moment matrix of node [i] is invertible, row [i]
    of [sf], [sfx], [sfy], [sfxx] and [sfyy] applied to the nodal values of
    a quadratic field gives the field, its first derivatives and its second
    derivatives at node [i]. *)
Theorem operators_exact_on_quadratics (nb : neighbors) (log : list nat)
    (out : output) (i : nat) (c : vector) :
  kneighbors_contract kneighbors n_neighbors distnod ->
  kneighbors n_neighbors distnod = inr nb ->
  mls pinv cond kneighbors distnod = (log, inr out) ->
  (i < length distnod)%nat ->
  let A_i := A (nsd_at distnod nb i) (nth i (distances nb) []) (a0_at nb i) in
  Moore_Penrose A_i (pinv A_i) ->
  invertible 6 A_i ->
  let ix := nth i (indices nb) [] in
  let u := fun m => quadratic_field c (nth m distnod (0, 0)) in
  let x := (nth i distnod (0, 0)).1 in
  let y := (nth i distnod (0, 0)).2 in
  apply_row (sf out) i ix u = quadratic_field c (x, y) /\
  apply_row (sfx out) i ix u =
    nth 1 c 0 + 2 * nth 3 c 0 * x + nth 4 c 0 * y /\
  apply_row (sfy out) i ix u =
    nth 2 c 0 + nth 4 c 0 * x + 2 * nth 5 c 0 * y /\
  apply_row (sfxx out) i ix u = 2 * nth 3 c 0 /\
  apply_row (sfyy out) i ix u = 2 * nth 5 c 0.
Proof.
  intros Hc Hk Hm Hi A_i HMP Hinv ix u x y.
  unfold kneighbors_contract in Hc. rewrite Hk in Hc. destruct Hc as [_ Hspec].
  pose proof (spec_well_indexed _ _ Hspec) as Hwi.
  rewrite (mls_ok pinv cond kneighbors distnod nb Hwi Hk
             (mls_inr pinv cond kneighbors distnod nb Hwi log out Hk Hm))
    in Hm.
  injection Hm as _ <-. cbn [sf sfx sfy sfxx sfyy].
  set (nsd := nsd_at distnod nb i) in *.
  set (d := nth i (distances nb) []) in *.
  assert (Hlen : length nsd = n_neighbors)
    by (unfold nsd; now apply length_nsd).
  assert (Hpos : (0 < length nsd)%nat)
    by (rewrite Hlen; unfold n_neighbors; lia).
  assert (Hd : length d = length nsd).
  { rewrite Hlen. unfold d.
    now apply (length_distances_row distnod nb Hwi). }
  destruct (pinv_ready pinv nsd d (a0_at nb i) Hpos Hd HMP Hinv)
    as [Hshape Hleft].
  unfold u, ix.
  rewrite (apply_row_field distnod nb Hspec i Hi (sf_row pinv))
    by (intros; now apply length_sf_row).
  rewrite (apply_row_field distnod nb Hspec i Hi (sfx_row pinv))
    by (intros; now apply length_sfx_row).
  rewrite (apply_row_field distnod nb Hspec i Hi (sfy_row pinv))
    by (intros; now apply length_sfy_row).
  rewrite (apply_row_field distnod nb Hspec i Hi (sfxx_row pinv))
    by (intros; now apply length_sfxx_row).
  rewrite (apply_row_field distnod nb Hspec i Hi (sfyy_row pinv))
    by (intros; now apply length_sfyy_row).
  unfold row_at. fold nsd d.
  rewrite (reproduce_quadratic nsd _ w)
    by (intros b Hb; now apply reproduce_sf).
  rewrite (reproduce_quadratic nsd _ pdx)
    by (intros b Hb; now apply reproduce_sfx).
  rewrite (reproduce_quadratic nsd _ pdy)
    by (intros b Hb; now apply reproduce_sfy).
  rewrite (reproduce_quadratic nsd _ pdxx)
    by (intros b Hb; now apply reproduce_sfxx).
  rewrite (reproduce_quadratic nsd _ pdyy)
    by (intros b Hb; now apply reproduce_sfyy).
  rewrite !sum_n_6. unfold item, shifted.
  cbn [w pdx pdy pdxx pdyy nth].
  replace (x, y) with (nth i distnod (0, 0))
    by (unfold x, y; now destruct (nth i distnod (0, 0))).
  fold x y.
  repeat split; ring.
Qed.

End FieldClaims.

(** ** The support radius and the weights of the neighbours *)

Section Radius.
Local Open Scope R_scope.

Variable distnod : list point.
Variable nb : neighbors.
Hypothesis spec : kneighbors_spec n_neighbors distnod nb.

Variable i : nat.
Hypothesis i_node : (i < length distnod)%nat.

#[local] Abbreviation d := (nth i (distances nb) []).
#[local] Abbreviation ix := (nth i (indices nb) []).

Lemma spec_sorted j j' :
  (j <= j')%nat -> (j' < n_neighbors)%nat -> nth j d 0 <= nth j' d 0.
Proof.
  intros Hle Hlt.
  destruct spec as (_ & _ & H), (H i i_node) as (_ & _ & _ & _ & Hsort & _).
  now apply Hsort.
Qed.

Lemma spec_nonneg j : (j < n_neighbors)%nat -> 0 <= nth j d 0.
Proof.
  intros Hj. rewrite (spec_distance _ _ spec) by assumption.
  apply euclidean_nonneg.
Qed.

(** the support radius vanishes exactly when all the listed nodes lie on
    node [i] *)
Lemma radius_zero :
  a0_at nb i = 0 <->
  forall j, (j < n_neighbors)%nat ->
    nth (nth j ix 0%nat) distnod (0, 0) = nth i distnod (0, 0).
Proof.
  unfold a0_at, scale_factor. split.
  - intros H0 j Hj.
    assert (Hk : nth 29 d 0 = 0) by lra.
    assert (Hdj : nth j d 0 = 0).
    { apply Rle_antisym; [|now apply spec_nonneg].
      apply Rle_trans with (nth 29 d 0); [|lra].
      apply spec_sorted; unfold n_neighbors in *; lia. }
    rewrite (spec_distance _ _ spec) in Hdj by assumption.
    symmetry. now apply euclidean_zero.
  - intros Hall.
    rewrite (spec_distance _ _ spec) by (try assumption; unfold n_neighbors; lia).
    rewrite Hall by (unfold n_neighbors; lia).
    rewrite euclidean_self. ring.
Qed.

Lemma radius_nonneg : 0 <= a0_at nb i.
Proof.
  unfold a0_at, scale_factor.
  assert (0 <= nth 29 d 0) by (apply spec_nonneg; unfold n_neighbors; lia).
  lra.
Qed.


Lemma exp_le x y : x <= y -> exp x <= exp y.
Proof.
  intros [H | ->]; [left; now apply exp_increasing | apply Rle_refl].
Qed.

(** the weights of the listed nodes, nearest first *)
Lemma weight_sorted j j' :
  0 < a0_at nb i -> (j <= j')%nat -> (j' < n_neighbors)%nat ->
  nth j' (Dn d (a0_at nb i)) 0 <= nth j (Dn d (a0_at nb i)) 0.
Proof.
  intros Ha Hle Hlt.
  pose proof (spec_well_indexed _ _ spec) as (_ & _ & Hwi).
  destruct (Hwi i i_node) as (Hlen & _ & _).
  rewrite !(nth_Dn (repeat (0, 0) n_neighbors))
    by (rewrite ?repeat_length; lia).
  apply exp_le, Ropp_le_contravar.
  assert (H0 : 0 <= nth j d 0) by (apply spec_nonneg; lia).
  assert (H1 : nth j d 0 <= nth j' d 0) by now apply spec_sorted.
  assert (Hq : nth j d 0 / a0_at nb i <= nth j' d 0 / a0_at nb i).
  { unfold Rdiv. apply Rmult_le_compat_r; [|exact H1].
    left. now apply Rinv_0_lt_compat. }
  assert (Hq0 : 0 <= nth j d 0 / a0_at nb i).
  { unfold Rdiv. apply Rmult_le_pos; [exact H0|].
    left. now apply Rinv_0_lt_compat. }
  apply pow_incr. split; assumption.
Qed.

Lemma weight_first :
  0 < a0_at nb i -> nth 0 (Dn d (a0_at nb i)) 0 = 1.
Proof.
  intros Ha.
  pose proof (spec_well_indexed _ _ spec) as (_ & _ & Hwi).
  destruct (Hwi i i_node) as (Hlen & _ & _).
  rewrite (nth_Dn (repeat (0, 0) n_neighbors))
    by (rewrite ?repeat_length; unfold n_neighbors in *; lia).
  rewrite (spec_nearest _ _ spec) by assumption.
  replace (- (0 / a0_at nb i) ^ 2) with 0 by (field; lra).
  apply exp_0.
Qed.

Lemma weight_last :
  0 < a0_at nb i -> nth 29 (Dn d (a0_at nb i)) 0 = exp (- (100 / 9)).
Proof.
  intros Ha.
  pose proof (spec_well_indexed _ _ spec) as (_ & _ & Hwi).
  destruct (Hwi i i_node) as (Hlen & _ & _).
  rewrite (nth_Dn (repeat (0, 0) n_neighbors))
    by (rewrite ?repeat_length; unfold n_neighbors in *; lia).
  f_equal. unfold a0_at, scale_factor in *. field. lra.
Qed.

End Radius.

Section RadiusClaims.
Local Open Scope R_scope.

Variable kneighbors : nat -> list point -> error + neighbors.
Variable distnod : list point.


(** X9.  With a positive support radius the weights of the thirty listed
    nodes decrease along the list, from [1] for the node itself to
    [exp(-100/9)] for the last one listed. *)
Theorem neighbour_weights (nb : neighbors) (i j j' : nat) :
  kneighbors_contract kneighbors n_neighbors distnod ->
  kneighbors n_neighbors distnod = inr nb ->
  (i < length distnod)%nat ->
  0 < a0_at nb i ->
  (j <= j')%nat -> (j' < 30)%nat ->
  let Dn := Dn (nth i (distances nb) []) (a0_at nb i) in
  nth 0 Dn 0 = 1 /\
  nth 29 Dn 0 = exp (- (100 / 9)) /\
  exp (- (100 / 9)) <= nth j' Dn 0 <= nth j Dn 0 /\
  nth j Dn 0 <= 1.
Proof.
  intros Hc Hk Hi Ha Hle Hlt Dn'.
  unfold kneighbors_contract in Hc. rewrite Hk in Hc. destruct Hc as [_ Hspec].
  split; [exact (weight_first distnod nb Hspec i Hi Ha)|].
  split; [exact (weight_last distnod nb Hspec i Hi Ha)|].
  split; [split|].
  - unfold Dn'. rewrite <- (weight_last distnod nb Hspec i Hi Ha).
    apply (weight_sorted distnod nb Hspec i Hi); try assumption;
      unfold n_neighbors; lia.
  - apply (weight_sorted distnod nb Hspec i Hi); assumption.
  - unfold Dn'. rewrite <- (weight_first distnod nb Hspec i Hi Ha).
    apply (weight_sorted distnod nb Hspec i Hi); try assumption;
      unfold n_neighbors; lia.
Qed.

End RadiusClaims.

(** ** The progress lines *)

Section Progress.

Lemma ceil_div_exact m N :
  0 < m -> N mod m = 0 ->
  (S N + (m - 1)) / m = S ((N + (m - 1)) / m) /\
  m * ((N + (m - 1)) / m) = N.
Proof.
  intros Hm H0.
  pose proof (Nat.div_mod_eq N m) as E. rewrite H0 in E.
  set (q := N / m) in *.
  assert (E1 : (N + (m - 1)) / m = q).
  { symmetry. apply (Nat.div_unique _ _ _ (m - 1)); lia. }
  assert (E2 : (S N + (m - 1)) / m = S q).
  { symmetry. apply (Nat.div_unique _ _ _ 0); lia. }
  rewrite E1, E2. split; lia.
Qed.

Lemma ceil_div_between m N :
  0 < m -> N mod m <> 0 ->
  (S N + (m - 1)) / m = (N + (m - 1)) / m.
Proof.
  intros Hm H0.
  pose proof (Nat.div_mod_eq N m) as E.
  pose proof (Nat.mod_upper_bound N m ltac:(lia)) as Hr.
  set (q := N / m) in *. set (r := N mod m) in *.
  assert (E1 : (N + (m - 1)) / m = S q).
  { symmetry. apply (Nat.div_unique _ _ _ (r - 1)); lia. }
  assert (E2 : (S N + (m - 1)) / m = S q).
  { symmetry. apply (Nat.div_unique _ _ _ r); lia. }
  now rewrite E1, E2.
Qed.

Lemma filter_multiples m N :
  0 < m ->
  List.filter (fun i => i mod m =? 0) (seq 0 N) =
  map (fun q => m * q) (seq 0 ((N + (m - 1)) / m)).
Proof.
  intros Hm. induction N as [|N IH].
  - rewrite Nat.div_small by lia. reflexivity.
  - rewrite seq_S, Nat.add_0_l, List.filter_app, IH. cbn [List.filter].
    destruct (Nat.eqb_spec (N mod m) 0) as [H0|H0].
    + destruct (ceil_div_exact m N Hm H0) as [-> E].
      rewrite seq_S, Nat.add_0_l, map_app. cbn [map]. now rewrite E.
    + rewrite (ceil_div_between m N Hm H0). now rewrite app_nil_r.
Qed.

Lemma fold_progress (l out : list nat) :
  fold_left (fun o i => progress i o) l out =
  out ++ List.filter (fun i => i mod 10000 =? 0) l.
Proof.
  revert out. induction l as [|i l IH]; intros out.
  - now rewrite app_nil_r.
  - cbn [fold_left List.filter]. rewrite IH. unfold progress.
    destruct (i mod 10000 =? 0); [now rewrite <- app_assoc|reflexivity].
Qed.

End Progress.

Section RunClaims.

Variable pinv : matrix -> matrix.
Variable cond : matrix -> R.
Variable kneighbors : nat -> list point -> error + neighbors.
Variable distnod : list point.


(** X11.  The list [cond_number] filled by the loop has one entry per
    node, entry [i] being [cond] of the moment matrix of node [i]. *)
Theorem condition_numbers (nb : neighbors) (log : list nat) (out : output) :
  kneighbors_contract kneighbors n_neighbors distnod ->
  kneighbors n_neighbors distnod = inr nb ->
  mls pinv cond kneighbors distnod = (log, inr out) ->
  length (out_cond_number out) = length distnod /\
  forall i, i < length distnod ->
    nth i (out_cond_number out) 0%R =
    cond (A (nsd_at distnod nb i) (nth i (distances nb) []) (a0_at nb i)).
Proof.
  intros Hc Hk Hm.
  unfold kneighbors_contract in Hc. rewrite Hk in Hc. destruct Hc as [_ Hspec].
  pose proof (spec_well_indexed _ _ Hspec) as Hwi.
  rewrite (mls_ok pinv cond kneighbors distnod nb Hwi Hk
             (mls_inr pinv cond kneighbors distnod nb Hwi log out Hk Hm))
    in Hm.
  injection Hm as _ <-. cbn [out_cond_number].
  split; [now rewrite length_map, length_seq|].
  intros i Hi. now rewrite nth_map_seq.
Qed.

End RunClaims.

(** ** The stored positions of the operators *)

Section Positions.

Lemma dom_add_entries (T : list (R * (nat * nat))) :
  dom (foldr add_entry ∅ T) =@{gset (nat * nat)} list_to_set (map snd T).
Proof.
  induction T as [|t T IH]; [apply dom_empty_L|].
  cbn [foldr map list_to_set]. unfold add_entry at 1.
  now rewrite dom_insert_L, IH.
Qed.


Lemma elem_of_positions ixf l r c :
  (r, c) ∈ positions ixf l <-> r ∈ l /\ c ∈ ixf r.
Proof.
  unfold positions. induction l as [|i l IH]; cbn [map concat].
  - split; [intros H; inversion H|intros [H _]; inversion H].
  - rewrite elem_of_app, IH, list_elem_of_fmap, elem_of_cons. split.
    + intros [(c' & E & Hc)|[Hr Hc]].
      * injection E as -> ->. split; [now left|assumption].
      * split; [now right|assumption].
    + intros [[->|Hr] Hc].
      * left. now exists c.
      * right. now split.
Qed.

Lemma NoDup_positions ixf l :
  NoDup l -> (forall i, i ∈ l -> NoDup (ixf i)) -> NoDup (positions ixf l).
Proof.
  unfold positions. induction l as [|i l IH]; intros Hl Hix; cbn [map concat].
  - constructor.
  - apply NoDup_cons in Hl as [Hi Hl].
    apply NoDup_app. split; [|split].
    + apply NoDup_fmap_2; [intros c c' E; now injection E|].
      apply Hix. now left.
    + intros [r c] Hrc Hin.
      apply list_elem_of_fmap in Hrc as (c' & E & _). injection E as -> ->.
      apply (elem_of_positions ixf l) in Hin as [Hin _]. contradiction.
    + apply IH; [assumption|]. intros i' Hi'. apply Hix. now right.
Qed.

Lemma length_positions ixf l k :
  (forall i, i ∈ l -> length (ixf i) = k) ->
  length (positions ixf l) = k * length l.
Proof.
  unfold positions. induction l as [|i l IH]; intros H; cbn [map concat length].
  - lia.
  - rewrite length_app, length_map, IH, H.
    + lia.
    + now left.
    + intros i' Hi'. apply H. now right.
Qed.

Variable distnod : list point.
Variable nb : neighbors.
Variable row : list point -> vector -> R -> vector.
Hypothesis indexed : well_indexed (length distnod) n_neighbors nb.
Hypothesis row_length :
  forall nsd d a, 0 < length nsd -> length d = length nsd ->
                  length (row nsd d a) = length nsd.

Lemma positions_triplets :
  map snd (triplets row distnod nb) =
  positions (fun i => nth i (indices nb) []) (seq 0 (length distnod)).
Proof.
  unfold triplets, positions.
  rewrite concat_map, map_map. f_equal.
  apply map_ext_in. intros i Hi. apply in_seq in Hi.
  rewrite snd_zip.
  2: { rewrite length_zip_with, repeat_length, Nat.min_id.
       rewrite (length_row_at distnod nb row indexed row_length) by lia.
       lia. }
  generalize (nth i (indices nb) []). intros l.
  induction l as [|c l IH]; [reflexivity|].
  cbn [length repeat zip zip_with map]. now rewrite <- IH.
Qed.

Lemma dom_operator :
  dom (stored (operator row distnod nb)) =@{gset (nat * nat)}
  list_to_set
    (positions (fun i => nth i (indices nb) []) (seq 0 (length distnod))).
Proof.
  cbn [operator stored]. now rewrite dom_add_entries, positions_triplets.
Qed.

End Positions.

Section PositionClaims.

Variable pinv : matrix -> matrix.
Variable cond : matrix -> R.
Variable kneighbors : nat -> list point -> error + neighbors.
Variable distnod : list point.

(** X13.  The five operators store the same positions: position [(r, c)]
    is stored exactly when [r] is a node and [c] is listed for it, so every
    stored position lies inside the [N] by [N] shape and each operator
    stores [30 N] entries. *)
Theorem stored_positions (nb : neighbors) (log : list nat) (out : output) :
  kneighbors_contract kneighbors n_neighbors distnod ->
  kneighbors n_neighbors distnod = inr nb ->
  mls pinv cond kneighbors distnod = (log, inr out) ->
  let N := length distnod in
  let P : gset (nat * nat) := dom (stored (sf out)) in
  (forall r c, (r, c) ∈ P <-> r < N /\ c ∈ nth r (indices nb) []) /\
  (forall r c, (r, c) ∈ P -> r < N /\ c < N) /\
  size P = 30 * N /\
  dom (stored (sfx out)) = P /\ dom (stored (sfxx out)) = P /\
  dom (stored (sfy out)) = P /\ dom (stored (sfyy out)) = P /\
  shape (sf out) = (N, N) /\ shape (sfx out) = (N, N) /\
  shape (sfxx out) = (N, N) /\ shape (sfy out) = (N, N) /\
  shape (sfyy out) = (N, N).
Proof.
  intros Hc Hk Hm N P.
  unfold kneighbors_contract in Hc. rewrite Hk in Hc. destruct Hc as [_ Hspec].
  pose proof (spec_well_indexed _ _ Hspec) as Hwi.
  rewrite (mls_ok pinv cond kneighbors distnod nb Hwi Hk
             (mls_inr pinv cond kneighbors distnod nb Hwi log out Hk Hm))
    in Hm.
  injection Hm as _ <-. unfold P. cbn [sf sfx sfxx sfy sfyy].
  rewrite (dom_operator distnod nb (sf_row pinv) Hwi)
    by (intros; now apply length_sf_row).
  rewrite (dom_operator distnod nb (sfx_row pinv) Hwi)
    by (intros; now apply length_sfx_row).
  rewrite (dom_operator distnod nb (sfxx_row pinv) Hwi)
    by (intros; now apply length_sfxx_row).
  rewrite (dom_operator distnod nb (sfy_row pinv) Hwi)
    by (intros; now apply length_sfy_row).
  rewrite (dom_operator distnod nb (sfyy_row pinv) Hwi)
    by (intros; now apply length_sfyy_row).
  assert (Hin : forall r c,
            (r, c) ∈ (list_to_set
                        (positions (fun i => nth i (indices nb) [])
                           (seq 0 (length distnod))) : gset (nat * nat))
            <-> r < N /\ c ∈ nth r (indices nb) []).
  { intros r c. rewrite elem_of_list_to_set, elem_of_positions.
    rewrite list_elem_of_In, in_seq. unfold N. intuition lia. }
  split; [exact Hin|]. split.
  - intros r c Hrc. apply Hin in Hrc as [Hr Hcin]. split; [exact Hr|].
    destruct Hwi as (_ & _ & H), (H r Hr) as (_ & _ & Hlt).
    rewrite Forall_forall in Hlt. now apply Hlt.
  - split; [|repeat split].
    rewrite size_list_to_set.
    + rewrite (length_positions _ _ n_neighbors).
      * rewrite length_seq. reflexivity.
      * intros i Hi. apply list_elem_of_In, in_seq in Hi.
        apply (length_indices_row distnod nb Hwi). lia.
    + apply NoDup_positions.
      * apply NoDup_seq.
      * intros i Hi. apply list_elem_of_In, in_seq in Hi.
        apply (spec_NoDup _ _ Hspec). lia.
Qed.

End PositionClaims.

(** ** The nodes of the channel *)


Section ChannelFacts.
Local Open Scope R_scope.

Lemma length_linspace a b n : length (linspace a b n) = n.
Proof.
  destruct n as [|[|n]]; [reflexivity|reflexivity|].
  unfold linspace. rewrite length_app, length_map, length_seq. cbn. lia.
Qed.

Lemma nth_linspace a b n c :
  (2 <= n)%nat -> (c < n)%nat ->
  nth c (linspace a b n) 0 = a + INR c * ((b - a) / INR (n - 1)).
Proof.
  intros Hn Hc. destruct n as [|[|n]]; [lia|lia|].
  unfold linspace.
  replace (S (S n) - 1)%nat with (S n) by lia.
  assert (HS : INR (S n) <> 0) by (apply not_0_INR; lia).
  destruct (Nat.eq_dec c (S n)) as [->|Hne].
  - rewrite List.app_nth2 by (rewrite length_map, length_seq; lia).
    rewrite length_map, length_seq, Nat.sub_diag. cbn [nth].
    field. exact HS.
  - rewrite List.app_nth1 by (rewrite length_map, length_seq; lia).
    rewrite (nth_map_seq _ _ _ 0) by lia. ring.
Qed.

Lemma linspace_first a b n : (0 < n)%nat -> nth 0 (linspace a b n) 0 = a.
Proof.
  intros Hn. destruct (Nat.eq_dec n 1%nat) as [->|Hne]; [reflexivity|].
  rewrite nth_linspace by lia. cbn [INR]. ring.
Qed.

Lemma linspace_last a b n :
  (2 <= n)%nat -> nth (n - 1) (linspace a b n) 0 = b.
Proof.
  intros Hn. rewrite nth_linspace by lia.
  field. apply not_0_INR. lia.
Qed.

Lemma linspace_range a b n c :
  a <= b -> (c < n)%nat -> a <= nth c (linspace a b n) 0 <= b.
Proof.
  intros Hab Hc.
  destruct (Nat.eq_dec n 1%nat) as [->|Hne].
  - replace c with 0%nat by lia. cbn. lra.
  - rewrite nth_linspace by lia.
    assert (Hpos : 0 < INR (n - 1)) by (apply lt_0_INR; lia).
    assert (H0 : 0 <= INR c) by apply pos_INR.
    assert (H1 : INR c <= INR (n - 1)) by (apply le_INR; lia).
    assert (Hq : 0 <= (b - a) / INR (n - 1)).
    { unfold Rdiv. apply Rmult_le_pos; [lra|].
      left. now apply Rinv_0_lt_compat. }
    split.
    + assert (0 <= INR c * ((b - a) / INR (n - 1)))
        by now apply Rmult_le_pos.
      lra.
    + assert (INR c * ((b - a) / INR (n - 1))
              <= INR (n - 1) * ((b - a) / INR (n - 1)))
        by now apply Rmult_le_compat_r.
      replace (INR (n - 1) * ((b - a) / INR (n - 1))) with (b - a) in H
        by (field; lra).
      lra.
Qed.

Lemma linspace_inj a b n c c' :
  a <> b -> (c < n)%nat -> (c' < n)%nat ->
  nth c (linspace a b n) 0 = nth c' (linspace a b n) 0 -> c = c'.
Proof.
  intros Hab Hc Hc' E.
  destruct (Nat.eq_dec n 1%nat) as [->|Hne]; [lia|].
  rewrite !nth_linspace in E by lia.
  assert (Hpos : INR (n - 1) <> 0) by (apply not_0_INR; lia).
  assert (Hq : (b - a) / INR (n - 1) <> 0).
  { unfold Rdiv. apply Rmult_integral_contrapositive_currified; [lra|].
    now apply Rinv_neq_0_compat. }
  apply INR_eq.
  apply (Rmult_eq_reg_r ((b - a) / INR (n - 1))); [lra|exact Hq].
Qed.

(** entry [(r, c)] of an array of rows of length [n], flattened *)
Lemma nth_concat_rows {X : Type} (M : list (list X)) (n r c : nat) (d : X) :
  Forall (fun row => length row = n) M ->
  (r < length M)%nat -> (c < n)%nat ->
  nth (r * n + c) (concat M) d = nth c (nth r M []) d.
Proof.
  intros HM. revert r. induction HM as [|row M Hrow HM IH]; intros r Hr Hc.
  - cbn in Hr. lia.
  - cbn [concat]. destruct r as [|r].
    + cbn [Nat.mul Nat.add nth]. apply List.app_nth1. lia.
    + rewrite List.app_nth2 by (rewrite Hrow; lia).
      rewrite Hrow.
      replace (S r * n + c - n)%nat with (r * n + c)%nat by lia.
      cbn [nth length] in *. apply IH; lia.
Qed.

Lemma length_concat_rows {X : Type} (M : list (list X)) (n : nat) :
  Forall (fun row => length row = n) M ->
  length (concat M) = (length M * n)%nat.
Proof.
  induction 1 as [|row M Hrow HM IH]; [reflexivity|].
  cbn [concat length]. rewrite length_app, IH, Hrow. lia.
Qed.

Variables H L : R.
Variables ny nx : nat.

#[local] Abbreviation x := (linspace 0 L nx).
#[local] Abbreviation y := (linspace 0 H ny).

Lemma meshgrid_rows_X :
  Forall (fun row : vector => length row = nx) (meshgrid x y).1.
Proof.
  cbn [meshgrid fst]. apply Forall_forall. intros row Hrow.
  apply list_elem_of_fmap in Hrow as (v & -> & _).
  apply length_linspace.
Qed.

Lemma meshgrid_rows_Y :
  Forall (fun row : vector => length row = nx) (meshgrid x y).2.
Proof.
  cbn [meshgrid snd]. apply Forall_forall. intros row Hrow.
  apply list_elem_of_fmap in Hrow as (v & -> & _).
  rewrite length_map. apply length_linspace.
Qed.

Lemma length_ravel_X : length (ravel (meshgrid x y).1) = (ny * nx)%nat.
Proof.
  unfold ravel. rewrite (length_concat_rows _ nx) by apply meshgrid_rows_X.
  cbn [meshgrid fst]. now rewrite length_map, length_linspace.
Qed.

Lemma length_ravel_Y : length (ravel (meshgrid x y).2) = (ny * nx)%nat.
Proof.
  unfold ravel. rewrite (length_concat_rows _ nx) by apply meshgrid_rows_Y.
  cbn [meshgrid snd]. now rewrite length_map, length_linspace.
Qed.

Lemma nodes_ok :
  nodes H L ny nx =
  inr (zip_with app (map (fun v => [v]) (ravel (meshgrid x y).1))
                    (map (fun v => [v]) (ravel (meshgrid x y).2))).
Proof.
  unfold nodes. cbn [meshgrid]. unfold reshape.
  pose proof length_ravel_X as HX. pose proof length_ravel_Y as HY.
  cbn [meshgrid fst snd] in HX, HY.
  rewrite !decide_True by assumption.
  unfold hstack. rewrite decide_True; [reflexivity|].
  now rewrite !length_map, HX, HY.
Qed.

Lemma nth_nodes r c :
  (r < ny)%nat -> (c < nx)%nat ->
  nth (r * nx + c)
      (zip_with app (map (fun v => [v]) (ravel (meshgrid x y).1))
                    (map (fun v => [v]) (ravel (meshgrid x y).2))) [] =
  [nth c x 0; nth r y 0].
Proof.
  intros Hr Hc.
  assert (Hk : (r * nx + c < ny * nx)%nat) by nia.
  rewrite (nth_zip_with _ _ _ _ [] [])
    by (rewrite !length_map, ?length_ravel_X, ?length_ravel_Y; lia).
  rewrite !(nth_map_lt (fun v : R => [v]) _ _ 0)
    by (rewrite ?length_ravel_X, ?length_ravel_Y; lia).
  unfold ravel.
  rewrite (nth_concat_rows _ nx) by
    (first [apply meshgrid_rows_X | cbn [meshgrid fst];
            rewrite length_map, length_linspace; lia | lia]).
  rewrite (nth_concat_rows _ nx) by
    (first [apply meshgrid_rows_Y | cbn [meshgrid snd];
            rewrite length_map, length_linspace; lia | lia]).
  cbn [meshgrid fst snd app].
  rewrite (nth_map_lt (fun _ : R => x) y r 0)
    by (rewrite length_linspace; lia).
  rewrite (nth_map_lt (fun v : R => map (fun _ : R => v) x) y r 0)
    by (rewrite length_linspace; lia).
  rewrite (nth_map_lt (fun _ : R => nth r y 0) x c 0)
    by (rewrite length_linspace; lia).
  reflexivity.
Qed.

End ChannelFacts.

Section ChannelClaims.
Local Open Scope R_scope.

Variables H L : R.
Variables ny nx : nat.

Lemma nodes_inv M :
  nodes H L ny nx = inr M ->
  M = zip_with app
        (map (fun v => [v])
           (ravel (meshgrid (linspace 0 L nx) (linspace 0 H ny)).1))
        (map (fun v => [v])
           (ravel (meshgrid (linspace 0 L nx) (linspace 0 H ny)).2)).
Proof. rewrite nodes_ok. congruence. Qed.

Lemma nth_points M r c :
  nodes H L ny nx = inr M -> (r < ny)%nat -> (c < nx)%nat ->
  nth (r * nx + c) (genfromtxt M) (0, 0) =
  (nth c (linspace 0 L nx) 0, nth r (linspace 0 H ny) 0).
Proof.
  intros HM Hr Hc. rewrite (nodes_inv M HM).
  unfold genfromtxt.
  rewrite (nth_map_lt _ _ _ []).
  - now rewrite nth_nodes.
  - rewrite length_zip_with, !length_map, length_ravel_X, length_ravel_Y.
    nia.
Qed.

Lemma length_points M :
  nodes H L ny nx = inr M -> length (genfromtxt M) = (ny * nx)%nat.
Proof.
  intros HM. rewrite (nodes_inv M HM).
  unfold genfromtxt.
  rewrite length_map, length_zip_with, !length_map,
          length_ravel_X, length_ravel_Y.
  lia.
Qed.

(** X14.  The first cell never fails: it writes [ny * nx] rows of two
    columns, row [r * nx + c] holding sample [c] of the abscissas and sample
    [r] of the ordinates, so the abscissa varies fastest. *)
Theorem channel_rows :
  exists M,
    nodes H L ny nx = inr M /\
    length M = (ny * nx)%nat /\
    forall r c, (r < ny)%nat -> (c < nx)%nat ->
      nth (r * nx + c) M [] =
      [nth c (linspace 0 L nx) 0; nth r (linspace 0 H ny) 0].
Proof.
  eexists. split; [apply nodes_ok|]. split.
  - rewrite length_zip_with, !length_map, length_ravel_X, length_ravel_Y.
    lia.
  - intros r c Hr Hc. now apply nth_nodes.
Qed.

(** X15.  With at least two points in each direction, node [r * nx + c]
    read back from the file is [(c L / (nx - 1), r H / (ny - 1))]: the nodes
    are evenly spaced, the first one is the corner [(0, 0)] and the last
    one the corner [(L, H)], and for [0 <= L] and [0 <= H] every node lies
    in the channel. *)
Theorem channel_coordinates (M : matrix) (r c : nat) :
  nodes H L ny nx = inr M ->
  (2 <= ny)%nat -> (2 <= nx)%nat -> (r < ny)%nat -> (c < nx)%nat ->
  let distnod := genfromtxt M in
  let p := nth (r * nx + c) distnod (0, 0) in
  p = (INR c * (L / INR (nx - 1)), INR r * (H / INR (ny - 1))) /\
  nth 0 distnod (0, 0) = (0, 0) /\
  nth (ny * nx - 1) distnod (0, 0) = (L, H) /\
  (0 <= L -> 0 <= H -> 0 <= p.1 <= L /\ 0 <= p.2 <= H).
Proof.
  intros HM Hny Hnx Hr Hc distnod p.
  assert (Hp : p = (nth c (linspace 0 L nx) 0, nth r (linspace 0 H ny) 0))
    by now apply nth_points.
  split; [|split; [|split]].
  - rewrite Hp, !nth_linspace by lia.
    f_equal; unfold Rdiv; ring.
  - unfold distnod.
    replace 0%nat with (0 * nx + 0)%nat by lia.
    rewrite (nth_points M) by (try assumption; lia).
    now rewrite !linspace_first by lia.
  - unfold distnod.
    replace (ny * nx - 1)%nat with ((ny - 1) * nx + (nx - 1))%nat by nia.
    rewrite (nth_points M) by (try assumption; lia).
    now rewrite !linspace_last by lia.
  - intros HL HH. rewrite Hp. cbn [fst snd].
    split; apply linspace_range; assumption.
Qed.

Lemma points_inj (M : matrix) (k k' : nat) :
  nodes H L ny nx = inr M ->
  L <> 0 -> H <> 0 ->
  (k < ny * nx)%nat -> (k' < ny * nx)%nat ->
  nth k (genfromtxt M) (0, 0) = nth k' (genfromtxt M) (0, 0) ->
  k = k'.
Proof.
  intros HM HL HH Hk Hk' E.
  assert (Hnx : (0 < nx)%nat) by nia.
  pose proof (Nat.div_mod_eq k nx) as Ek.
  pose proof (Nat.div_mod_eq k' nx) as Ek'.
  pose proof (Nat.mod_upper_bound k nx ltac:(lia)) as Hc.
  pose proof (Nat.mod_upper_bound k' nx ltac:(lia)) as Hc'.
  assert (Hr : (k / nx < ny)%nat)
    by (apply Nat.Div0.div_lt_upper_bound; lia).
  assert (Hr' : (k' / nx < ny)%nat)
    by (apply Nat.Div0.div_lt_upper_bound; lia).
  replace k with (k / nx * nx + k mod nx)%nat in E by lia.
  replace k' with (k' / nx * nx + k' mod nx)%nat in E by lia.
  rewrite !(nth_points M) in E by assumption.
  injection E as Ex Ey.
  apply linspace_inj in Ex; try assumption; [|lra].
  apply linspace_inj in Ey; try assumption; [|lra].
  rewrite Ek, Ek', Ex, Ey. reflexivity.
Qed.

(** X16.  When the channel has a length and a width other than zero, the
    nodes read back from the file are pairwise distinct. *)
Theorem channel_nodes_distinct (M : matrix) :
  nodes H L ny nx = inr M ->
  L <> 0 -> H <> 0 ->
  NoDup (genfromtxt M).
Proof.
  intros HM HL HH.
  apply NoDup_ListNoDup, (List.NoDup_nth _ (0, 0)).
  intros k k' Hk Hk' E.
  pose proof (length_points M HM) as Hlen. unfold point in Hlen.
  rewrite Hlen in Hk, Hk'.
  now apply (points_inj M).
Qed.

End ChannelClaims.

(** ** The exhaustive neighbour query keeps the contract *)

Section Exhaustive.
Local Open Scope R_scope.

#[local] Instance nearer_total : Total nearer.
Proof.
  intros t u. unfold nearer.
  destruct (Rle_or_lt t.1 u.1) as [H|H]; [now left|right; lra].
Qed.

#[local] Instance nearer_trans : Transitive nearer.
Proof. intros t u v. unfold nearer. apply Rle_trans. Qed.

Lemma StronglySorted_nth (l : list (R * nat)) j j' :
  StronglySorted nearer l -> (j <= j')%nat -> (j' < length l)%nat ->
  (nth j l (0, 0%nat)).1 <= (nth j' l (0, 0%nat)).1.
Proof.
  intros Hs. revert j j'.
  induction Hs as [|t l Hs IH Hall]; intros j j' Hle Hlt.
  - cbn in Hlt. lia.
  - destruct j' as [|j'].
    + replace j with 0%nat by lia. apply Rle_refl.
    + destruct j as [|j].
      * cbn [nth]. rewrite List.Forall_forall in Hall.
        apply Hall, nth_In. cbn in Hlt. lia.
      * cbn [nth]. apply IH; cbn in Hlt; lia.
Qed.

Variable X : list point.
Variable p : point.

#[local] Abbreviation S := (merge_sort nearer (candidates X p)).

Lemma sorted_Permutation : S ≡ₚ candidates X p.
Proof. apply merge_sort_Permutation. Qed.

Lemma length_sorted : length S = length X.
Proof.
  rewrite sorted_Permutation. unfold candidates.
  now rewrite length_map, length_seq.
Qed.

Lemma sorted_entries t :
  t ∈ S -> (t.2 < length X)%nat /\ t.1 = euclidean p (nth t.2 X (0, 0)).
Proof.
  rewrite sorted_Permutation. unfold candidates.
  intros Ht. apply list_elem_of_fmap in Ht as (m & -> & Hm).
  apply list_elem_of_In, in_seq in Hm. cbn [fst snd]. split; [lia|reflexivity].
Qed.

Lemma sorted_indices : map snd S ≡ₚ seq 0 (length X).
Proof.
  rewrite sorted_Permutation. unfold candidates.
  rewrite map_map. cbn [snd]. now rewrite map_id.
Qed.

Variable k : nat.
Hypothesis enough : (k <= length X)%nat.

Lemma length_nearest : length (nearest k X p) = k.
Proof.
  unfold nearest. rewrite length_firstn, length_sorted. lia.
Qed.

Lemma nth_nearest j :
  (j < k)%nat -> nth j (nearest k X p) (0, 0%nat) = nth j S (0, 0%nat).
Proof.
  intros Hj. unfold nearest.
  rewrite <- (firstn_skipn k S) at 2.
  rewrite List.app_nth1; [reflexivity|].
  rewrite length_firstn, length_sorted. lia.
Qed.

Lemma NoDup_nearest : NoDup (map snd (nearest k X p)).
Proof.
  unfold nearest. rewrite <- firstn_map.
  apply (sublist_NoDup _ (map snd S)).
  - rewrite sorted_indices. apply NoDup_seq.
  - apply sublist_take.
Qed.

Lemma nearest_in j :
  (j < k)%nat -> nth j (nearest k X p) (0, 0%nat) ∈ S.
Proof.
  intros Hj. rewrite nth_nearest by assumption.
  apply list_elem_of_In, nth_In. rewrite length_sorted. lia.
Qed.

Lemma nearest_sorted j j' :
  (j <= j')%nat -> (j' < k)%nat ->
  (nth j (nearest k X p) (0, 0%nat)).1
  <= (nth j' (nearest k X p) (0, 0%nat)).1.
Proof.
  intros Hle Hlt. rewrite !nth_nearest by lia.
  apply StronglySorted_nth.
  - apply StronglySorted_merge_sort; apply _.
  - exact Hle.
  - rewrite length_sorted. lia.
Qed.

Lemma nearest_excluded m :
  (0 < k)%nat -> (m < length X)%nat -> m ∉ map snd (nearest k X p) ->
  (nth (k - 1) (nearest k X p) (0, 0%nat)).1
  <= euclidean p (nth m X (0, 0)).
Proof.
  intros Hk Hm Hnin.
  assert (Hin : (euclidean p (nth m X (0, 0)), m) ∈ S).
  { rewrite sorted_Permutation. unfold candidates.
    apply list_elem_of_fmap. exists m. split; [reflexivity|].
    apply list_elem_of_In, in_seq. lia. }
  apply list_elem_of_In, (In_nth _ _ (0, 0%nat)) in Hin.
  destruct Hin as (pos & Hpos & Hnth).
  destruct (Nat.lt_ge_cases pos k) as [Hlt|Hge].
  - exfalso. apply Hnin.
    apply list_elem_of_fmap. exists (nth pos (nearest k X p) (0, 0%nat)).
    split.
    + now rewrite nth_nearest, Hnth.
    + apply list_elem_of_In, nth_In. now rewrite length_nearest.
  - rewrite nth_nearest by lia.
    replace (euclidean p (nth m X (0, 0)))
      with (nth pos S (0, 0%nat)).1 by now rewrite Hnth.
    apply StronglySorted_nth.
    + apply StronglySorted_merge_sort; apply _.
    + lia.
    + exact Hpos.
Qed.

End Exhaustive.

Section ExhaustiveContract.
Local Open Scope R_scope.

Lemma exhaustive_spec k X :
  (k <= length X)%nat ->
  kneighbors_spec k X
    {| distances := map (fun p => map fst (nearest k X p)) X;
       indices := map (fun p => map snd (nearest k X p)) X |}.
Proof.
  intros Hk. unfold kneighbors_spec. cbn [distances indices].
  split; [apply length_map|]. split; [apply length_map|].
  intros i Hi. cbn zeta.
  rewrite (nth_map_lt (fun p => map fst (nearest k X p)) X i (0, 0)),
          (nth_map_lt (fun p => map snd (nearest k X p)) X i (0, 0))
    by assumption.
  set (p := nth i X (0, 0)).
  split; [now rewrite length_map, length_nearest|].
  split; [now rewrite length_map, length_nearest|].
  split; [now apply NoDup_nearest|].
  assert (Hfst : forall j, (j < k)%nat ->
            nth j (map fst (nearest k X p)) 0
            = (nth j (nearest k X p) (0, 0%nat)).1).
  { intros j Hj.
    now rewrite (nth_map_lt fst _ _ (0, 0%nat)) by now rewrite length_nearest. }
  assert (Hsnd : forall j, (j < k)%nat ->
            nth j (map snd (nearest k X p)) 0%nat
            = (nth j (nearest k X p) (0, 0%nat)).2).
  { intros j Hj.
    now rewrite (nth_map_lt snd _ _ (0, 0%nat)) by now rewrite length_nearest. }
  split; [|split].
  - intros j Hj. rewrite Hfst, Hsnd by assumption.
    apply (sorted_entries X p). now apply nearest_in.
  - intros j j' Hle Hlt. rewrite !Hfst by lia.
    now apply nearest_sorted.
  - intros m Hm Hnin.
    destruct k as [|k'].
    + cbn. apply euclidean_nonneg.
    + rewrite Hfst by lia. apply nearest_excluded; try assumption; lia.
Qed.

(** the exhaustive query keeps the contract on every cloud *)
Lemma exhaustive_contract k X :
  kneighbors_contract exhaustive_kneighbors k X.
Proof.
  unfold kneighbors_contract, exhaustive_kneighbors.
  destruct (decide (length X < k)%nat) as [Hlt|Hge].
  - split; [exact Hlt|reflexivity].
  - split; [lia|]. apply exhaustive_spec. lia.
Qed.

End ExhaustiveContract.

(** ** A cloud with a repeated node

    One node at [(1, 0)] followed by thirty at the origin: the first node
    has neighbours away from it, every other node has thirty neighbours on
    itself. *)

Section RepeatedNode.
Local Open Scope R_scope.

#[local] Abbreviation heap := ((1, 0) :: repeat (0, 0) 30 : list point).




Variable nb : neighbors.
Hypothesis spec : kneighbors_spec n_neighbors heap nb.



End RepeatedNode.

(** ** The two cells together *)

Section TwoCells.
Local Open Scope R_scope.

Variable pinv : matrix -> matrix.
Variable cond : matrix -> R.
Variable kneighbors : nat -> list point -> error + neighbors.


End TwoCells.


(** ** Neighbours on a common conic *)

Section Conic.
Local Open Scope R_scope.

Variable nsd : list point.
Variable D : vector.
Hypothesis nonempty : (0 < length nsd)%nat.
Hypothesis length_D : length D = length nsd.

#[local] Abbreviation M := (dot (p_ nsd) (dot (diag D) (transpose (p_ nsd)))).

(** a moment matrix sends the coefficients of a quadratic that vanishes at
    the neighbours to zero *)
Lemma moment_kernel (c : vector) a :
  (forall j, (j < length nsd)%nat -> quadratic c nsd j = 0) ->
  (a < 6)%nat ->
  sum_n 6 (fun b => item M a b * nth b c 0) = 0.
Proof.
  intros Hq Ha.
  rewrite (sum_n_ext _ _
    (fun b => sum_n (length nsd)
       (fun j => item (p_ nsd) a j * nth j D 0
                 * (nth b c 0 * item (p_ nsd) b j)))).
  2: { intros b Hb. rewrite item_moment by assumption.
       rewrite <- sum_n_mult_r.
       apply sum_n_ext. intros j Hj. ring. }
  rewrite sum_n_swap.
  rewrite (sum_n_ext _ _ (fun _ => 0)); [apply sum_n_zero|].
  intros j Hj.
  rewrite sum_n_mult_l.
  change (sum_n 6 (fun b => nth b c 0 * item (p_ nsd) b j))
    with (quadratic c nsd j).
  rewrite Hq by assumption. ring.
Qed.

Lemma moment_singular (c : vector) b :
  (forall j, (j < length nsd)%nat -> quadratic c nsd j = 0) ->
  (b < 6)%nat -> nth b c 0 <> 0 ->
  ~ invertible 6 M.
Proof.
  intros Hq Hb Hne (Y & HY & HYM & _).
  apply Hne.
  assert (HYr : nrows Y = 6%nat) by exact (has_shape_nrows _ _ _ HY).
  assert (HYc : ncols Y = 6%nat)
    by (apply (has_shape_ncols 6 6); [exact HY|lia]).
  assert (E : sum_n 6 (fun m => item (dot Y M) b m * nth m c 0) = nth b c 0).
  { rewrite HYM.
    rewrite (sum_n_ext _ _
      (fun m => if Nat.eqb b m then nth m c 0 else 0)).
    - now rewrite sum_n_delta.
    - intros m Hm. rewrite item_eye by assumption.
      destruct (Nat.eqb b m); ring. }
  rewrite <- E.
  rewrite (sum_n_ext _ _
    (fun m => sum_n 6 (fun l => item Y b l * (item M l m * nth m c 0)))).
  2: { intros m Hm.
       rewrite item_dot
         by (rewrite ?HYr, ?ncols_moment; assumption).
       rewrite HYc, <- sum_n_mult_r.
       apply sum_n_ext. intros l Hl. ring. }
  rewrite sum_n_swap.
  rewrite (sum_n_ext _ _ (fun _ => 0)); [apply sum_n_zero|].
  intros l Hl.
  rewrite sum_n_mult_l, moment_kernel by assumption. ring.
Qed.

End Conic.

Section ConicClaims.
Local Open Scope R_scope.

(** X18.  When the neighbours of a point lie on a common conic, that is a
    quadratic on the local basis with a coefficient other than zero vanishes
    at all of them, the moment matrix [A] of the point is singular: [pinv]
    then returns a pseudo-inverse that is no inverse. *)
Theorem conic_moment_singular (nsd : list point) (dist_i : vector) (a0 : R)
    (c : vector) (b : nat) :
  (0 < length nsd)%nat ->
  length dist_i = length nsd ->
  (b < 6)%nat -> nth b c 0 <> 0 ->
  (forall j, (j < length nsd)%nat -> quadratic c nsd j = 0) ->
  ~ invertible 6 (A nsd dist_i a0).
Proof.
  intros Hk Hlen Hb Hne Hq.
  apply (moment_singular nsd (Dn dist_i a0) Hk
           (length_Dn' nsd dist_i a0 Hlen) c b Hq Hb Hne).
Qed.

End ConicClaims.

Lemma conic_moment_singular_witness :
  let nsd : list point := [(0, 0); (1, 0); (2, 0); (3, 0)]%R in
  let dist_i : vector := [0; 1; 2; 3]%R in
  ~ invertible 6 (A nsd dist_i 1).
Proof.
  intros nsd dist_i.
  assert (Hk : 0 < length nsd) by (cbn; lia).
  assert (Hlen : length dist_i = length nsd) by reflexivity.
  assert (Hb : 2 < 6) by lia.
  assert (Hne : nth 2 [0; 0; 1; 0; 0; 0]%R 0%R <> 0%R) by (cbn; lra).
  apply (conic_moment_singular nsd dist_i 1 [0; 0; 1; 0; 0; 0]%R 2
           Hk Hlen Hb Hne).
  intros j Hj. unfold quadratic, md. rewrite sum_n_6.
  cbn in Hj.
  do 4 (destruct j as [|j]; [cbn; ring|]). lia.
Defined.

Section SingleRow.
Local Open Scope R_scope.

Variable kneighbors : nat -> list point -> error + neighbors.

(** X19.  A channel with a single row of points ([ny = 1]) puts all the
    nodes on one line, and then the moment matrix of every node is
    singular. *)
Theorem single_row_singular (H L : R) (nx : nat) (M : matrix)
    (nb : neighbors) (i : nat) :
  nodes H L 1 nx = inr M ->
  kneighbors_contract kneighbors n_neighbors (genfromtxt M) ->
  kneighbors n_neighbors (genfromtxt M) = inr nb ->
  (i < nx)%nat ->
  ~ invertible 6 (A (nsd_at (genfromtxt M) nb i) (nth i (distances nb) [])
                    (a0_at nb i)).
Proof.
  intros HM Hc Hk Hi.
  unfold kneighbors_contract in Hc. rewrite Hk in Hc. destruct Hc as [_ Hspec].
  pose proof (spec_well_indexed _ _ Hspec) as Hwi.
  pose proof (length_points H L 1 nx M HM) as Hlen.
  assert (Hi' : (i < length (genfromtxt M))%nat) by (rewrite Hlen; lia).
  set (nsd := nsd_at (genfromtxt M) nb i).
  assert (Hn : length nsd = n_neighbors).
  { unfold nsd. rewrite length_nsd_at.
    now apply (length_indices_row _ _ Hwi). }
  assert (Hy : forall j, (j < length nsd)%nat -> (nth j nsd (0, 0)).2 = 0).
  { intros j Hj. rewrite Hn in Hj.
    unfold nsd. rewrite (nth_nsd_at _ _ Hspec) by assumption.
    destruct Hwi as (_ & _ & Hw), (Hw i Hi') as (_ & Hl & Hlt).
    rewrite List.Forall_forall in Hlt.
    assert (Hm : (nth j (nth i (indices nb) []) 0 < nx)%nat).
    { specialize (Hlt (nth j (nth i (indices nb) []) 0%nat)).
      rewrite Hlen in Hlt. rewrite <- (Nat.mul_1_l nx).
      apply Hlt, nth_In. lia. }
    replace (nth j (nth i (indices nb) []) 0)%nat
      with (0 * nx + nth j (nth i (indices nb) []) 0)%nat by lia.
    rewrite (nth_points H L 1 nx M) by (try assumption; lia).
    reflexivity. }
  apply (moment_singular nsd (Dn (nth i (distances nb) []) (a0_at nb i))
           ltac:(rewrite Hn; unfold n_neighbors; lia)
           ltac:(rewrite length_Dn, Hn;
                 now apply (length_distances_row _ _ Hwi))
           [0; 0; 1; 0; 0; 0] 2).
  - intros j Hj. unfold quadratic, md. rewrite sum_n_6.
    rewrite item_p_2 by assumption.
    unfold nsd01. rewrite !Hy by (try assumption; rewrite Hn; unfold n_neighbors; lia).
    cbn [nth]. ring.
  - lia.
  - cbn [nth]. lra.
Qed.

End SingleRow.

Lemma single_row_singular_witness :
  exists M nb,
    nodes 1 20 1 40 = inr M /\
    exhaustive_kneighbors n_neighbors (genfromtxt M) = inr nb /\
    ~ invertible 6 (A (nsd_at (genfromtxt M) nb 7) (nth 7 (distances nb) [])
                      (a0_at nb 7)).
Proof.
  pose proof (nodes_ok 1 20 1 40) as HM.
  pose proof (exhaustive_contract n_neighbors
                (genfromtxt
                   (zip_with app
                      (map (fun v => [v])
                         (ravel (meshgrid (linspace 0 20 40)
                                          (linspace 0 1 1)).1))
                      (map (fun v => [v])
                         (ravel (meshgrid (linspace 0 20 40)
                                          (linspace 0 1 1)).2)))))
    as Hc.
  pose proof Hc as Hc'. unfold kneighbors_contract in Hc'.
  destruct (exhaustive_kneighbors _ _) as [e|nb] eqn:Hk.
  - exfalso. destruct Hc' as [Hlt _].
    rewrite (length_points 1 20 1 40 _ HM) in Hlt.
    unfold n_neighbors in Hlt. lia.
  - eexists _, nb. split; [exact HM|]. split; [exact Hk|].
    assert (Hi : 7 < 40) by lia.
    exact (single_row_singular exhaustive_kneighbors 1 20 40 _ nb 7
             HM Hc Hk Hi).
Defined.

(** ** Translation of the neighbourhood *)

Section Translation.
Local Open Scope R_scope.

Variable v : point.
Variable nsd : list point.
Hypothesis nonempty : (0 < length nsd)%nat.

#[local] Abbreviation moved :=
  (map (fun q : point => (q.1 + v.1, q.2 + v.2)) nsd).

Lemma moved_nsd00 : nsd00 moved = nsd00 nsd + v.1.
Proof.
  unfold nsd00. destruct nsd as [|q l]; [cbn in nonempty; lia|reflexivity].
Qed.

Lemma moved_nsd01 : nsd01 moved = nsd01 nsd + v.2.
Proof.
  unfold nsd01. destruct nsd as [|q l]; [cbn in nonempty; lia|reflexivity].
Qed.

Lemma moved_dx : vsubs (nsd_x moved) (nsd00 moved) = vsubs (nsd_x nsd) (nsd00 nsd).
Proof.
  rewrite moved_nsd00. unfold vsubs, nsd_x. rewrite !map_map.
  apply map_ext. intros q. cbn [fst]. ring.
Qed.

Lemma moved_dy : vsubs (nsd_y moved) (nsd01 moved) = vsubs (nsd_y nsd) (nsd01 nsd).
Proof.
  rewrite moved_nsd01. unfold vsubs, nsd_y. rewrite !map_map.
  apply map_ext. intros q. cbn [snd]. ring.
Qed.

Lemma moved_xd : ssub (nsd00 moved) (nsd_x moved) = ssub (nsd00 nsd) (nsd_x nsd).
Proof.
  rewrite moved_nsd00. unfold ssub, nsd_x. rewrite !map_map.
  apply map_ext. intros q. cbn [fst]. ring.
Qed.

Lemma moved_yd : ssub (nsd01 moved) (nsd_y moved) = ssub (nsd01 nsd) (nsd_y nsd).
Proof.
  rewrite moved_nsd01. unfold ssub, nsd_y. rewrite !map_map.
  apply map_ext. intros q. cbn [snd]. ring.
Qed.

Lemma moved_p_ : p_ moved = p_ nsd.
Proof.
  unfold p_. rewrite moved_dx, moved_dy. now rewrite length_map.
Qed.

Variable dist_i : vector.
Variable a0 : R.

Lemma moved_Dx : Dx moved dist_i a0 = Dx nsd dist_i a0.
Proof. unfold Dx. now rewrite moved_xd. Qed.

Lemma moved_Dxx : Dxx moved dist_i a0 = Dxx nsd dist_i a0.
Proof. unfold Dxx. now rewrite moved_xd. Qed.

Lemma moved_Dy : Dy moved dist_i a0 = Dy nsd dist_i a0.
Proof. unfold Dy. now rewrite moved_yd. Qed.

Lemma moved_Dyy : Dyy moved dist_i a0 = Dyy nsd dist_i a0.
Proof. unfold Dyy. now rewrite moved_yd. Qed.

End Translation.

Section TranslationClaims.
Local Open Scope R_scope.

Variable pinv : matrix -> matrix.
Variable cond : matrix -> R.

(** X20.  The per-point computation sees the nodes only through their
    offsets from the first one: moving all the nodes of a neighbourhood by
    the same vector, the distances and the support radius being the same,
    leaves the moment matrix, its condition number and the five rows
    unchanged. *)
Theorem translation_invariant (v : point) (nsd : list point)
    (dist_i : vector) (a0 : R) :
  (0 < length nsd)%nat ->
  let moved := map (fun q : point => (q.1 + v.1, q.2 + v.2)) nsd in
  A moved dist_i a0 = A nsd dist_i a0 /\
  cond_A cond moved dist_i a0 = cond_A cond nsd dist_i a0 /\
  sf_row pinv moved dist_i a0 = sf_row pinv nsd dist_i a0 /\
  sfx_row pinv moved dist_i a0 = sfx_row pinv nsd dist_i a0 /\
  sfy_row pinv moved dist_i a0 = sfy_row pinv nsd dist_i a0 /\
  sfxx_row pinv moved dist_i a0 = sfxx_row pinv nsd dist_i a0 /\
  sfyy_row pinv moved dist_i a0 = sfyy_row pinv nsd dist_i a0.
Proof.
  intros Hk moved.
  unfold sf_row, sfx_row, sfy_row, sfxx_row, sfyy_row, cond_A,
         IAxx, IAyy, IAx, IAy, IA, A, Ax, Axx, Ay, Ayy, B, Bx, Bxx, By, Byy.
  unfold moved.
  rewrite (moved_p_ v nsd Hk), (moved_Dx v nsd Hk), (moved_Dxx v nsd Hk),
          (moved_Dy v nsd Hk), (moved_Dyy v nsd Hk).
  repeat split; reflexivity.
Qed.

End TranslationClaims.

Lemma translation_invariant_witness :
  let moved := map (fun q : point => (q.1 + 3, q.2 + -2)%R) sample_nsd in
  sfxx_row (fun _ => sample_inverse) moved sample_dist sample_a0 =
  sfxx_row (fun _ => sample_inverse) sample_nsd sample_dist sample_a0.
Proof.
  intros moved.
  destruct (translation_invariant (fun _ => sample_inverse) (fun _ => 0%R)
              (3, -2)%R sample_nsd sample_dist sample_a0 sample_nonempty)
    as (_ & _ & _ & _ & _ & H & _).
  exact H.
Defined.

(** ** An index outside the cloud *)

Section IndexErrors.

Variable pinv : matrix -> matrix.
Variable cond : matrix -> R.
Variable kneighbors : nat -> list point -> error + neighbors.
Variable distnod : list point.
Variable nb : neighbors.

(** X21.  If the neighbour query hands back two arrays of thirty columns,
    with a row for each node, in which node [i] is the first with an index
    outside the cloud, and no node before it has a zero radius, the run
    stops at node [i] with an IndexError, after the progress lines up to
    node [i], and no operator is built. *)
Theorem index_outside_cloud (i : nat) :
  kneighbors n_neighbors distnod = inr nb ->
  length (indices nb) = length distnod ->
  length (distances nb) = length distnod ->
  Forall (fun r => length r = n_neighbors) (distances nb) ->
  Forall (fun r => length r = n_neighbors) (indices nb) ->
  i < length distnod ->
  (forall i', i' < i ->
     Forall (fun j => j < length distnod) (nth i' (indices nb) []) /\
     a0_at nb i' <> 0%R) ->
  Exists (fun j => length distnod <= j) (nth i (indices nb) []) ->
  mls pinv cond kneighbors distnod =
  (map (fun q => 10000 * q) (seq 0 ((S i + 9999) / 10000)), inl IndexError).
Proof.
  intros Hk Hix Hd Hrow Hrowx Hi Hok Hbad.
  unfold mls. rewrite Hk.
  rewrite column_ok.
  2: { eapply Forall_impl; [exact Hrow|].
       intros r Hr. cbn beta in Hr. rewrite Hr. unfold n_neighbors. lia. }
  replace (seq 0 (length distnod))
    with (seq 0 i ++ i :: seq (S i) (length distnod - S i)).
  2: { change (i :: seq (S i) (length distnod - S i))
         with (seq i (S (length distnod - S i))).
       rewrite <- seq_app. f_equal. lia. }
  assert (Hlen : forall i', i' < length distnod ->
            i' < length (indices nb) /\ i' < length (distances nb) /\
            i' < length (smul scale_factor
                           (map (fun r => nth 29 r 0%R) (distances nb))))
    by (intros i' Hi'; unfold smul; rewrite !length_map, Hix, Hd; lia).
  rewrite (loop_stop pinv cond distnod nb) with (e := IndexError).
  - f_equal.
    change (seq 0 i ++ [i]) with (seq 0 i ++ seq (0 + i) 1).
    rewrite <- seq_app, fold_progress. cbn [app].
    rewrite filter_multiples by (apply Nat.ltb_lt; vm_compute; reflexivity).
    replace (10000 - 1) with 9999 by (vm_compute; reflexivity).
    now rewrite Nat.add_1_r.
  - intros i' Hi'. apply in_seq in Hi'.
    destruct (Hlen i') as (H1 & H2 & H3); [lia|].
    destruct (Hok i') as [Hin Hnz]; [lia|].
    repeat split; try assumption.
    + rewrite List.Forall_forall in Hrow, Hrowx.
      rewrite (Hrow (nth i' (distances nb) [])) by now apply nth_In.
      apply Hrowx. now apply nth_In.
    + apply xDn_finite.
      unfold smul. rewrite map_map.
      rewrite (nth_map_lt (fun r => (scale_factor * nth 29 r 0)%R) _ _ [])
        by assumption.
      exact Hnz.
  - intros acc'. destruct (Hlen i Hi) as (H1 & H2 & H3).
    now apply body_IndexError.
Qed.

End IndexErrors.

Lemma index_outside_cloud_witness :
  let nb := {| distances := repeat (repeat 1%R 30) 30;
               indices := seq 0 30 :: repeat (seq 1 30) 29 |} in
  mls (fun _ => sample_inverse) (fun _ => 0%R) (fun _ _ => inr nb)
      sample_nsd = ([0], inl IndexError).
Proof.
  intros nb.
  assert (Hk : (fun (_ : nat) (_ : list point) => inr nb : error + neighbors)
                 n_neighbors sample_nsd = inr nb) by reflexivity.
  assert (Hix : length (indices nb) = length sample_nsd) by reflexivity.
  assert (Hd : length (distances nb) = length sample_nsd) by reflexivity.
  assert (Hrow : Forall (fun r => length r = n_neighbors) (distances nb))
    by (apply Forall_forall; intros r Hr;
        apply list_elem_of_In, repeat_spec in Hr; now subst r).
  assert (Hrowx : Forall (fun r => length r = n_neighbors) (indices nb)).
  { constructor; [reflexivity|].
    apply Forall_forall. intros r Hr.
    apply list_elem_of_In, repeat_spec in Hr. now subst r. }
  assert (Hi : 1 < length sample_nsd) by (rewrite sample_length; lia).
  assert (Hok : forall i', i' < 1 ->
            Forall (fun j => j < length sample_nsd)
                   (nth i' (indices nb) []) /\
            a0_at nb i' <> 0%R).
  { intros i' Hi'. assert (i' = 0) as -> by lia. split.
    - apply Forall_forall. intros j Hj.
      apply list_elem_of_In, in_seq in Hj. rewrite sample_length. lia.
    - unfold a0_at, scale_factor. cbn. lra. }
  assert (Hbad : Exists (fun j => length sample_nsd <= j)
                   (nth 1 (indices nb) [])).
  { apply Exists_exists. exists 30. split; [|rewrite sample_length; lia].
    apply list_elem_of_In, in_seq. lia. }
  exact (index_outside_cloud (fun _ => sample_inverse) (fun _ => 0%R)
           (fun _ _ => inr nb) sample_nsd nb 1 Hk Hix Hd Hrow Hrowx Hi Hok
           Hbad).
Defined.

Lemma value_reproduced_witness :
  let pinv := fun _ : matrix => sample_inverse in
  let c := [7; 1; 2; 3; 4; 5]%R in
  sum_n (length sample_nsd)
    (fun j => nth j (sf_row pinv sample_nsd sample_dist sample_a0) 0
              * quadratic c sample_nsd j)%R = 7%R.
Proof.
  intros pinv c.
  exact (value_reproduced pinv sample_nsd sample_dist sample_a0 c
           sample_nonempty sample_lengths sample_Moore_Penrose
           sample_invertible).
Defined.

Lemma gradient_reproduced_witness :
  let pinv := fun _ : matrix => sample_inverse in
  let c := [7; 1; 2; 3; 4; 5]%R in
  sum_n (length sample_nsd)
    (fun j => nth j (sfx_row pinv sample_nsd sample_dist sample_a0) 0
              * quadratic c sample_nsd j)%R = 1%R /\
  sum_n (length sample_nsd)
    (fun j => nth j (sfy_row pinv sample_nsd sample_dist sample_a0) 0
              * quadratic c sample_nsd j)%R = 2%R.
Proof.
  intros pinv c.
  exact (gradient_reproduced pinv sample_nsd sample_dist sample_a0 c
           sample_nonempty sample_lengths sample_Moore_Penrose
           sample_invertible).
Defined.

Lemma second_derivatives_reproduced_witness :
  let pinv := fun _ : matrix => sample_inverse in
  let c := [7; 1; 2; 3; 4; 5]%R in
  sum_n (length sample_nsd)
    (fun j => nth j (sfxx_row pinv sample_nsd sample_dist sample_a0) 0
              * quadratic c sample_nsd j)%R = (2 * 3)%R /\
  sum_n (length sample_nsd)
    (fun j => nth j (sfyy_row pinv sample_nsd sample_dist sample_a0) 0
              * quadratic c sample_nsd j)%R = (2 * 5)%R.
Proof.
  intros pinv c.
  exact (second_derivatives_reproduced pinv sample_nsd sample_dist sample_a0
           c sample_nonempty sample_lengths sample_Moore_Penrose
           sample_invertible).
Defined.

Lemma inverse_derivatives_exact_witness :
  let pinv := fun _ : matrix => sample_inverse in
  (item (dot (IAx pinv sample_nsd sample_dist sample_a0)
             (A sample_nsd sample_dist sample_a0)) 0 1
   + item (dot (IA pinv sample_nsd sample_dist sample_a0)
               (Ax sample_nsd sample_dist sample_a0)) 0 1 = 0)%R.
Proof.
  intros pinv.
  assert (H0 : 0 < 6) by lia.
  assert (H1 : 1 < 6) by lia.
  destruct (inverse_derivatives_exact pinv sample_nsd sample_dist sample_a0
              0 1 sample_nonempty sample_lengths sample_Moore_Penrose
              sample_invertible H0 H1) as (H & _).
  exact H.
Defined.

Lemma moments_symmetric_witness :
  item (Axx sample_nsd sample_dist sample_a0) 1 4 =
  item (Axx sample_nsd sample_dist sample_a0) 4 1.
Proof.
  assert (H1 : 1 < 6) by lia.
  assert (H4 : 4 < 6) by lia.
  destruct (moments_symmetric sample_nsd sample_dist sample_a0 1 4
              sample_nonempty sample_lengths H1 H4) as (_ & _ & H & _).
  exact H.
Defined.

Lemma moment_positive_semidefinite_witness :
  let v := [1; -1; 0; 2; 0; 0]%R in
  (0 <= sum_n 6 (fun a =>
          sum_n 6 (fun b =>
            nth a v 0 * item (A sample_nsd sample_dist sample_a0) a b
            * nth b v 0)))%R.
Proof.
  intros v.
  destruct (moment_positive_semidefinite sample_nsd sample_dist sample_a0 v
              sample_nonempty sample_lengths) as [_ H].
  exact H.
Defined.

Lemma kernel_derivatives_witness :
  let nsd : list point := [(0, 0); (1, 0)]%R in
  let dist_i := map (euclidean (0, 0)%R) nsd in
  (1 <> 0)%R /\ 1 < length nsd /\
  exists W' : R -> R,
    (forall t, derivable_pt_lim
                 (fun t => nth 1 (Dn (map (euclidean (t, 0%R)) nsd) 1) 0%R)
                 t (W' t)) /\
    W' 0%R = nth 1 (Dx nsd dist_i 1) 0%R /\
    derivable_pt_lim W' 0 (nth 1 (Dxx nsd dist_i 1) 0%R).
Proof.
  intros nsd dist_i.
  assert (Ha : (1 <> 0)%R) by lra.
  assert (Hj : 1 < length nsd) by (cbn; lia).
  split; [exact Ha|]. split; [exact Hj|].
  destruct (kernel_derivatives nsd 1 1 Ha Hj) as [H _].
  exact H.
Defined.


Lemma neighbour_weights_witness :
  let Dn := Dn (nth 0 (distances sample_neighbors) [])
               (a0_at sample_neighbors 0) in
  nth 0 Dn 0%R = 1%R /\ nth 29 Dn 0%R = exp (- (100 / 9)) /\
  (nth 12 Dn 0 <= nth 3 Dn 0)%R.
Proof.
  intros Dn'.
  assert (Hle : 3 <= 12) by lia.
  assert (Hlt : 12 < 30) by lia.
  destruct (neighbour_weights sample_kneighbors sample_nsd sample_neighbors
              0 3 12 sample_contract sample_query sample_nonempty sample_radius
              Hle Hlt) as (H0 & H29 & [_ Hs] & _).
  split; [exact H0|]. split; [exact H29|exact Hs].
Defined.


Lemma condition_numbers_witness :
  exists log out,
    mls (fun _ => sample_inverse) (fun _ => 0%R) sample_kneighbors sample_nsd
    = (log, inr out) /\
    length (out_cond_number out) = length sample_nsd.
Proof.
  destruct sample_run as (log & out & Hrun).
  exists log, out. split; [exact Hrun|].
  destruct (condition_numbers _ _ sample_kneighbors sample_nsd
              sample_neighbors log out sample_contract sample_query Hrun)
    as [H _].
  exact H.
Defined.

Lemma operators_exact_on_quadratics_witness :
  exists log out,
    mls (fun _ => sample_inverse) (fun _ => 0%R) sample_kneighbors sample_nsd
    = (log, inr out) /\
    let u := fun m => quadratic_field [7; 1; 2; 3; 4; 5]%R
                        (nth m sample_nsd (0, 0)%R) in
    apply_row (sfxx out) 0 (nth 0 (indices sample_neighbors) []) u
    = (2 * 3)%R.
Proof.
  destruct sample_run as (log & out & Hrun).
  exists log, out. split; [exact Hrun|].
  assert (HMP : Moore_Penrose
            (A (nsd_at sample_nsd sample_neighbors 0)
               (nth 0 (distances sample_neighbors) [])
               (a0_at sample_neighbors 0))
            ((fun _ : matrix => sample_inverse)
               (A (nsd_at sample_nsd sample_neighbors 0)
                  (nth 0 (distances sample_neighbors) [])
                  (a0_at sample_neighbors 0)))).
  { rewrite sample_nsd_at, sample_distances, sample_a0_at.
    exact sample_Moore_Penrose. }
  assert (Hinv : invertible 6
            (A (nsd_at sample_nsd sample_neighbors 0)
               (nth 0 (distances sample_neighbors) [])
               (a0_at sample_neighbors 0))).
  { rewrite sample_nsd_at, sample_distances, sample_a0_at.
    exact sample_invertible. }
  destruct (operators_exact_on_quadratics _ _ sample_kneighbors sample_nsd
              sample_neighbors log out 0 [7; 1; 2; 3; 4; 5]%R
              sample_contract sample_query Hrun sample_nonempty HMP Hinv)
    as (_ & _ & _ & H & _).
  exact H.
Defined.

Lemma stored_positions_witness :
  exists log out,
    mls (fun _ => sample_inverse) (fun _ => 0%R) sample_kneighbors sample_nsd
    = (log, inr out) /\
    size (dom (stored (sf out)) : gset (nat * nat)) = 30 * length sample_nsd /\
    dom (stored (sfyy out)) =@{gset (nat * nat)} dom (stored (sf out)).
Proof.
  destruct sample_run as (log & out & Hrun).
  exists log, out. split; [exact Hrun|].
  destruct (stored_positions _ _ sample_kneighbors sample_nsd
              sample_neighbors log out sample_contract sample_query Hrun)
    as (_ & _ & Hsize & _ & _ & _ & Hyy & _).
  split; [exact Hsize|exact Hyy].
Defined.

Lemma channel_coordinates_witness :
  exists M,
    nodes 1 20 3 5 = inr M /\
    nth (2 * 5 + 3) (genfromtxt M) (0, 0)%R
    = (INR 3 * (20 / INR (5 - 1)), INR 2 * (1 / INR (3 - 1)))%R /\
    nth (3 * 5 - 1) (genfromtxt M) (0, 0)%R = (20, 1)%R.
Proof.
  pose proof (nodes_ok 1 20 3 5) as HM.
  eexists. split; [exact HM|].
  assert (Hny : 2 <= 3) by lia.
  assert (Hnx : 2 <= 5) by lia.
  assert (Hr : 2 < 3) by lia.
  assert (Hc : 3 < 5) by lia.
  destruct (channel_coordinates 1 20 3 5 _ 2 3 HM Hny Hnx Hr Hc)
    as (Hp & _ & Hlast & _).
  split; [exact Hp|exact Hlast].
Defined.

Lemma channel_nodes_distinct_witness :
  exists M, nodes 1 20 3 5 = inr M /\ NoDup (genfromtxt M).
Proof.
  pose proof (nodes_ok 1 20 3 5) as HM.
  eexists. split; [exact HM|].
  apply (channel_nodes_distinct 1 20 3 5 _ HM); lra.
Defined.

(** ** Where a run meets NaN *)

Section Coincident.
Local Open Scope R_scope.

Variable pinv : matrix -> matrix.
Variable cond : matrix -> R.
Variable kneighbors : nat -> list point -> error + neighbors.
Variable distnod : list point.

(** X22.  In a run the kernel arrays of node [i] are NaN throughout when
    the thirty nodes listed for it all lie on node [i], and the run then
    ends with the error of [pinv].  Otherwise the radius is positive and
    the five arrays have thirty entries, those of [Dn] finite; for a radius
    between 2^-250 and 2^250 every entry of [Dx], [Dy], [Dxx] and [Dyy] is
    finite as well. *)
Theorem nan_when_coincident (nb : neighbors) (i : nat) :
  kneighbors_contract kneighbors n_neighbors distnod ->
  kneighbors n_neighbors distnod = inr nb ->
  (i < length distnod)%nat ->
  let nsd := nsd_at distnod nb i in
  let d := nth i (distances nb) [] in
  let a0 := a0_at nb i in
  let coincident :=
    forall j, (j < 30)%nat ->
      nth (nth j (nth i (indices nb) []) 0%nat) distnod (0, 0) =
      nth i distnod (0, 0) in
  (coincident ->
   let nans := repeat NaN 30 in
   (xDn d a0 = nans /\ xDx nsd d a0 = nans /\ xDy nsd d a0 = nans /\
    xDxx nsd d a0 = nans /\ xDyy nsd d a0 = nans) /\
   exists log, mls pinv cond kneighbors distnod = (log, inl LinAlgError)) /\
  (~ coincident ->
   0 < a0 /\
   (length (xDn d a0) = 30%nat /\ length (xDx nsd d a0) = 30%nat /\
    length (xDy nsd d a0) = 30%nat /\ length (xDxx nsd d a0) = 30%nat /\
    length (xDyy nsd d a0) = 30%nat) /\
   Forall is_finite (xDn d a0) /\
   (/ 2 ^ 250 <= a0 <= 2 ^ 250 ->
    Forall is_finite (xDx nsd d a0) /\
    Forall is_finite (xDy nsd d a0) /\
    Forall is_finite (xDxx nsd d a0) /\
    Forall is_finite (xDyy nsd d a0))).
Proof.
  intros Hc Hk Hi nsd d a0 coincident.
  unfold kneighbors_contract in Hc. rewrite Hk in Hc. destruct Hc as [_ Hspec].
  pose proof (spec_well_indexed _ _ Hspec) as Hwi.
  pose proof (radius_zero distnod nb Hspec i Hi) as Hzero.
  assert (Hn : length nsd = 30%nat).
  { unfold nsd. rewrite length_nsd_at.
    now apply (length_indices_row _ _ Hwi). }
  assert (Hd : length d = 30%nat)
    by now apply (length_distances_row _ _ Hwi).
  split.
  - intros Hall.
    assert (Ha : a0 = 0) by exact (proj2 Hzero Hall).
    split.
    + rewrite <- Hn.
      apply kernel_nan; [now rewrite Hn|assumption|].
      apply List.Forall_forall. intros x Hx.
      destruct (In_nth _ _ 0 Hx) as (j & Hj & <-).
      fold d in Hj. rewrite Hd in Hj.
      unfold d. rewrite (spec_distance _ _ Hspec) by assumption.
      rewrite Hall by assumption. apply euclidean_self.
    + destruct (mls pinv cond kneighbors distnod) as [log [e|out]] eqn:Hrun.
      * exists log.
        now rewrite (mls_inl pinv cond kneighbors distnod nb Hwi log e Hk
                       Hrun).
      * exfalso.
        exact (mls_inr pinv cond kneighbors distnod nb Hwi log out Hk Hrun
                 i Hi Ha).
  - intros Hnot.
    assert (Hnz : a0 <> 0).
    { intros Ha. apply Hnot. exact (proj1 Hzero Ha). }
    pose proof (radius_nonneg distnod nb Hspec i Hi) as Hge. fold a0 in Hge.
    split; [lra|]. split.
    { rewrite <- Hn. apply kernel_lengths. now rewrite Hn. }
    split; [now apply xDn_finite|].
    intros Hr.
    assert (Hs : forall j, (j < length nsd)%nat ->
              nth j d 0 = euclidean (nsd00 nsd, nsd01 nsd)
                                    (nth j nsd (0, 0)) /\
              3 / 10 * nth j d 0 <= a0).
    { intros j Hj. rewrite Hn in Hj. split.
      - unfold nsd00, nsd01, nsd.
        rewrite (spec_origin _ _ Hspec), (nth_nsd_at _ _ Hspec)
          by assumption.
        rewrite <- surjective_pairing.
        now apply (spec_distance _ _ Hspec).
      - unfold a0, a0_at, scale_factor.
        assert (nth j d 0 <= nth 29 d 0); [|unfold d in *; lra].
        apply (spec_sorted _ _ Hspec i Hi); unfold n_neighbors; lia. }
    destruct (kernel_in_range nsd d a0 Hr Hs) as (_ & Hx & Hy & Hxx & Hyy).
    now repeat split.
Qed.

End Coincident.

Lemma nan_when_coincident_witness :
  Forall is_finite
    (xDxx (nsd_at sample_nsd sample_neighbors 0)
          (nth 0 (distances sample_neighbors) [])
          (a0_at sample_neighbors 0)) /\
  exists nb,
    exhaustive_kneighbors n_neighbors (repeat (0, 0)%R 30) = inr nb /\
    xDn (nth 0 (distances nb) []) (a0_at nb 0) = repeat NaN 30 /\
    exists log,
      mls (fun _ => sample_inverse) (fun _ => 0%R) exhaustive_kneighbors
          (repeat (0, 0)%R 30) = (log, inl LinAlgError).
Proof.
  split.
  - assert (Hi : 0 < length sample_nsd) by (rewrite sample_length; lia).
    destruct (nan_when_coincident (fun _ => sample_inverse) (fun _ => 0%R)
                sample_kneighbors sample_nsd sample_neighbors 0
                sample_contract sample_query Hi) as [_ Hfin].
    destruct Hfin as (_ & _ & _ & Hrange).
    { intros Hall. specialize (Hall 29 ltac:(lia)).
      cbn in Hall. injection Hall as Hx _. lra. }
    destruct Hrange as (_ & _ & H & _); [|exact H].
    rewrite sample_a0_at. unfold sample_a0, scale_factor.
    cbn [sample_dist nth repeat app].
    assert (H1 : (1 <= sqrt 2)%R)
      by (rewrite <- sqrt_1 at 1; apply sqrt_le_1_alt; lra).
    assert (H2 : (sqrt 2 <= 2)%R).
    { rewrite <- (sqrt_square 2) at 2 by lra. apply sqrt_le_1_alt. lra. }
    cbn. split; lra.
  - pose proof (exhaustive_contract n_neighbors (repeat (0, 0)%R 30)) as Hc.
    pose proof Hc as Hc'. unfold kneighbors_contract in Hc'.
    destruct (exhaustive_kneighbors n_neighbors (repeat (0, 0)%R 30))
      as [e|nb] eqn:Hk.
    { exfalso. destruct Hc' as [Hlt _]. rewrite repeat_length in Hlt.
      unfold n_neighbors in Hlt. lia. }
    exists nb. split; [reflexivity|].
    assert (H0 : 0 < length (repeat (0, 0)%R 30))
      by (rewrite repeat_length; lia).
    destruct (nan_when_coincident (fun _ => sample_inverse) (fun _ => 0%R)
                exhaustive_kneighbors (repeat (0, 0)%R 30) nb 0 Hc Hk H0)
      as [Hnan _].
    destruct Hnan as [(H & _) Hrun].
    { intros j _. now rewrite !nth_repeat. }
    split; [exact H|exact Hrun].
Defined.
